(** * Reunion client: the Exchange state machine of client/exchange.go

    A shallow embedding of the per-contact Exchange driver.  The Go
    struct [Exchange] becomes a record, the goroutine-local mutation
    becomes explicit state passing over a [State] that also carries the
    outside world (database, shutdown channel, map iteration order) and
    the trace of everything the driver emits: updates on [updateChan],
    log lines, database queries and shutdown polls.

    The collaborators that live in other packages (reunion/crypto,
    reunion/server, reunion/commands, crypto/sha256) are interfaces. *)

From Stdlib Require Import Strings.Byte.
From stdpp Require Import gmap list fin_maps vector countable strings.

Set Default Proof Using "Type".

(** ** Bytes and hashes *)

Abbreviation bytes := (list byte).

#[global] Instance byte_eq_dec : EqDecision byte.
Proof. intros x y. destruct (Byte.byte_eq_dec x y); [left|right]; done. Defined.

#[global] Program Instance byte_countable : Countable byte :=
  inj_countable Byte.to_N Byte.of_N _.
Next Obligation. intros x. apply Byte.of_to_N. Qed.

(** [type ExchangeHash [32]byte] *)
Abbreviation ExchangeHash := (vec byte 32).

(** Hashes are map keys.  The instance below enumerates a hash through
    its 32 bytes and, unlike the library's, evaluates on concrete keys. *)
Definition hash_of_list (l : bytes) : option ExchangeHash :=
  match decide (length l = 32) with
  | left Hl => Some (eq_rect _ (vec byte) (list_to_vec l) _ Hl)
  | right _ => None
  end.

Lemma vec_to_list_cast {A n m} (Hnm : n = m) (v : vec A n) :
  vec_to_list (eq_rect n (vec A) v m Hnm) = vec_to_list v.
Proof. by destruct Hnm. Qed.

Lemma hash_of_list_to_list (v : ExchangeHash) :
  hash_of_list (vec_to_list v) = Some v.
Proof.
  unfold hash_of_list. destruct (decide _) as [Hl|Hl].
  - f_equal. apply vec_to_list_inj2.
    by rewrite vec_to_list_cast, vec_to_list_to_vec.
  - by rewrite length_vec_to_list in Hl.
Qed.

#[global] Remove Hints vec_countable : typeclass_instances.

#[global] Instance ExchangeHash_countable : Countable ExchangeHash :=
  inj_countable vec_to_list hash_of_list hash_of_list_to_list.

(** ** Errors and results *)

(** Go's [error] values that the driver itself creates are constructors
    of their own; errors handed over by a collaborator are opaque. *)
Inductive error : Type :=
| ErrShutdown                       (* "reunion: shutdown requested" *)
| ErrUnmarshalFailure (cause : error) (* "wtf unmarshal failure: %s\n" *)
| ErrInvalidMessage                 (* "wtf, invalid message found" *)
| ErrWrongResponse                  (* "fetch state: wrong response command received" *)
| ErrStatusCode (code : N)          (* "fetch state: received an error status code ..." *)
| ErrTruncated                      (* "truncated Reunion DB state not yet supported" *)
| ErrUnknownState                   (* "unknown state error" *)
| ErrExternal (msg : string).

(** A Go [(value, error)] pair. *)
Inductive Res (A : Type) : Type :=
| Ok (a : A)
| Err (e : error).
Arguments Ok {A} a.
Arguments Err {A} e.

Definition res_err {A} (r : Res A) : option error :=
  match r with Ok _ => None | Err e => Some e end.

Definition res_val {A} (r : Res A) : option A :=
  match r with Ok a => Some a | Err _ => None end.

(** ** Commands of the bulletin board (package commands) *)

Inductive Command : Type :=
| FetchState (Epoch : N) (T1Hash : ExchangeHash)
| SendT1 (Epoch : N) (Payload : bytes)
| SendT2 (Epoch : N) (SrcT1Hash DstT1Hash : ExchangeHash) (Payload : bytes)
| SendT3 (Epoch : N) (SrcT1Hash DstT1Hash : ExchangeHash) (Payload : bytes)
| StateResponse (ErrorCode : N) (Truncated : bool) (Payload : bytes)
| MessageResponse (ErrorCode : N).

(** [commands.ResponseStatusOK]; the wire value of OK is 0. *)
Definition ResponseStatusOK : N := 0.

(** [server.RequestedReunionState] and its messages, as the driver reads
    them. *)
Record T2Message : Type := {
  SrcT1Hash : ExchangeHash;
  T2Payload : bytes;
  T3Payload : bytes;
}.

Record RequestedReunionState : Type := {
  T1Map : gmap ExchangeHash bytes;
  Messages : list T2Message;
}.

(** ** Collaborating packages *)

(** reunion/crypto, reunion/server and crypto/sha256. *)
Class ReunionLib : Type := {
  Session : Type;
  PublicKey : Type;
  sha256 : bytes → ExchangeHash;
  NewSession : bytes → bytes → N → Res Session;
  Epoch : Session → N;
  GenerateType1Message : Session → bytes → bytes * option error;
  DecodeT1Message : bytes → Res (bytes * bytes * bytes);
  ProcessType1MessageAlpha : Session → bytes → Res (bytes * PublicKey);
  GetCandidateKey : Session → bytes → PublicKey → Res bytes;
  DecryptT1Beta : bytes → bytes → Res PublicKey;
  ComposeType3Message : Session → PublicKey → Res bytes;
  ProcessType3Message : Session → bytes → bytes → PublicKey → Res bytes;
  RequestedReunionState_Unmarshal : bytes → Res RequestedReunionState;
}.

(** The world outside the driver goroutine: the [server.ReunionDatabase]
    behind [Query], the shutdown channel polled by [shouldStop], and the
    order in which the Go runtime enumerates a map in a [range] loop.
    Every interaction may change the world. *)
Class Env (W : Type) : Type := {
  Query : W → Command → W * Res Command;
  shutdownRequested : W → W * bool;
  mapRange : W → gmap ExchangeHash bytes → W * list (ExchangeHash * bytes);
  mapRange_perm : ∀ w m, (mapRange w m).2 ≡ₚ map_to_list m;
}.

(** ** The Exchange *)

Definition initialState : Z := 0.
Definition t1MessageSentState : Z := 1.

Section Exchange.
Context `{ReunionLib}.

Record ReunionUpdate : Type := {
  ContactID : N;
  Error : option error;
  Serialized : option bytes;
  Result : option bytes;
}.

(** The fields [log], [updateChan], [db] and [shutdownChan] are the
    world; the rest is the record. *)
Record Exchange : Type := {
  status : Z;
  contactID : N;
  session : Session;
  payload : bytes;
  sentT1 : bytes;
  sentT2Map : gmap ExchangeHash bytes;
  repliedT1s : gmap ExchangeHash bytes;
  repliedT2s : gmap ExchangeHash bytes;
  receivedT1s : gmap ExchangeHash bytes;
  receivedT2s : gmap ExchangeHash bytes;
  receivedT3s : gmap ExchangeHash bytes;
  receivedT1Alphas : gmap ExchangeHash PublicKey;
  decryptedT1Betas : gmap ExchangeHash PublicKey;
}.

Definition set_status (v : Z) (e : Exchange) : Exchange :=
  {| status := v; contactID := contactID e; session := session e;
     payload := payload e; sentT1 := sentT1 e; sentT2Map := sentT2Map e;
     repliedT1s := repliedT1s e; repliedT2s := repliedT2s e;
     receivedT1s := receivedT1s e; receivedT2s := receivedT2s e;
     receivedT3s := receivedT3s e; receivedT1Alphas := receivedT1Alphas e;
     decryptedT1Betas := decryptedT1Betas e |}.

Definition set_sentT1 (v : bytes) (e : Exchange) : Exchange :=
  {| status := status e; contactID := contactID e; session := session e;
     payload := payload e; sentT1 := v; sentT2Map := sentT2Map e;
     repliedT1s := repliedT1s e; repliedT2s := repliedT2s e;
     receivedT1s := receivedT1s e; receivedT2s := receivedT2s e;
     receivedT3s := receivedT3s e; receivedT1Alphas := receivedT1Alphas e;
     decryptedT1Betas := decryptedT1Betas e |}.

Definition set_sentT2Map (v : gmap ExchangeHash bytes) (e : Exchange) : Exchange :=
  {| status := status e; contactID := contactID e; session := session e;
     payload := payload e; sentT1 := sentT1 e; sentT2Map := v;
     repliedT1s := repliedT1s e; repliedT2s := repliedT2s e;
     receivedT1s := receivedT1s e; receivedT2s := receivedT2s e;
     receivedT3s := receivedT3s e; receivedT1Alphas := receivedT1Alphas e;
     decryptedT1Betas := decryptedT1Betas e |}.

Definition set_repliedT1s (v : gmap ExchangeHash bytes) (e : Exchange) : Exchange :=
  {| status := status e; contactID := contactID e; session := session e;
     payload := payload e; sentT1 := sentT1 e; sentT2Map := sentT2Map e;
     repliedT1s := v; repliedT2s := repliedT2s e;
     receivedT1s := receivedT1s e; receivedT2s := receivedT2s e;
     receivedT3s := receivedT3s e; receivedT1Alphas := receivedT1Alphas e;
     decryptedT1Betas := decryptedT1Betas e |}.

Definition set_repliedT2s (v : gmap ExchangeHash bytes) (e : Exchange) : Exchange :=
  {| status := status e; contactID := contactID e; session := session e;
     payload := payload e; sentT1 := sentT1 e; sentT2Map := sentT2Map e;
     repliedT1s := repliedT1s e; repliedT2s := v;
     receivedT1s := receivedT1s e; receivedT2s := receivedT2s e;
     receivedT3s := receivedT3s e; receivedT1Alphas := receivedT1Alphas e;
     decryptedT1Betas := decryptedT1Betas e |}.

Definition set_receivedT1s (v : gmap ExchangeHash bytes) (e : Exchange) : Exchange :=
  {| status := status e; contactID := contactID e; session := session e;
     payload := payload e; sentT1 := sentT1 e; sentT2Map := sentT2Map e;
     repliedT1s := repliedT1s e; repliedT2s := repliedT2s e;
     receivedT1s := v; receivedT2s := receivedT2s e;
     receivedT3s := receivedT3s e; receivedT1Alphas := receivedT1Alphas e;
     decryptedT1Betas := decryptedT1Betas e |}.

Definition set_receivedT2s (v : gmap ExchangeHash bytes) (e : Exchange) : Exchange :=
  {| status := status e; contactID := contactID e; session := session e;
     payload := payload e; sentT1 := sentT1 e; sentT2Map := sentT2Map e;
     repliedT1s := repliedT1s e; repliedT2s := repliedT2s e;
     receivedT1s := receivedT1s e; receivedT2s := v;
     receivedT3s := receivedT3s e; receivedT1Alphas := receivedT1Alphas e;
     decryptedT1Betas := decryptedT1Betas e |}.

Definition set_receivedT3s (v : gmap ExchangeHash bytes) (e : Exchange) : Exchange :=
  {| status := status e; contactID := contactID e; session := session e;
     payload := payload e; sentT1 := sentT1 e; sentT2Map := sentT2Map e;
     repliedT1s := repliedT1s e; repliedT2s := repliedT2s e;
     receivedT1s := receivedT1s e; receivedT2s := receivedT2s e;
     receivedT3s := v; receivedT1Alphas := receivedT1Alphas e;
     decryptedT1Betas := decryptedT1Betas e |}.

Definition set_receivedT1Alphas (v : gmap ExchangeHash PublicKey) (e : Exchange) : Exchange :=
  {| status := status e; contactID := contactID e; session := session e;
     payload := payload e; sentT1 := sentT1 e; sentT2Map := sentT2Map e;
     repliedT1s := repliedT1s e; repliedT2s := repliedT2s e;
     receivedT1s := receivedT1s e; receivedT2s := receivedT2s e;
     receivedT3s := receivedT3s e; receivedT1Alphas := v;
     decryptedT1Betas := decryptedT1Betas e |}.

Definition set_decryptedT1Betas (v : gmap ExchangeHash PublicKey) (e : Exchange) : Exchange :=
  {| status := status e; contactID := contactID e; session := session e;
     payload := payload e; sentT1 := sentT1 e; sentT2Map := sentT2Map e;
     repliedT1s := repliedT1s e; repliedT2s := repliedT2s e;
     receivedT1s := receivedT1s e; receivedT2s := receivedT2s e;
     receivedT3s := receivedT3s e; receivedT1Alphas := receivedT1Alphas e;
     decryptedT1Betas := v |}.

(** [NewExchange]: a fresh Exchange in the initial state with empty maps. *)
Definition NewExchange (payload : bytes) (contactID : N)
    (passphrase sharedRandomValue : bytes) (epoch : N) : Res Exchange :=
  match NewSession passphrase sharedRandomValue epoch with
  | Err err => Err err
  | Ok session =>
      Ok {| status := initialState; contactID := contactID;
            session := session; payload := payload;
            sentT1 := []; sentT2Map := ∅;
            receivedT1s := ∅; receivedT2s := ∅; receivedT3s := ∅;
            repliedT1s := ∅; repliedT2s := ∅;
            receivedT1Alphas := ∅; decryptedT1Betas := ∅ |}
  end.


(** [serializableExchange]: the twelve persistent fields, named as the
    composite literal in [Marshal] names them. *)
Record serializableExchange : Type := {
  ser_ContactID : N;
  ser_Status : Z;
  ser_Session : Session;
  ser_SentT1 : bytes;
  ser_SentT2Map : gmap ExchangeHash bytes;
  ser_ReceivedT1s : gmap ExchangeHash bytes;
  ser_ReceivedT2s : gmap ExchangeHash bytes;
  ser_ReceivedT3s : gmap ExchangeHash bytes;
  ser_RepliedT1s : gmap ExchangeHash bytes;
  ser_RepliedT2s : gmap ExchangeHash bytes;
  ser_ReceivedT1Alphas : gmap ExchangeHash PublicKey;
  ser_DecryptedT1Betas : gmap ExchangeHash PublicKey;
}.

(** The snapshot codec behind [serializableExchange.Marshal] and
    [serializableExchange.Unmarshal]. *)
Class SnapshotCodec : Type := {
  ser_Marshal : serializableExchange → Res bytes;
  ser_Unmarshal : bytes → Res serializableExchange;
}.

Context `{SnapshotCodec}.

(** [Exchange.Unmarshal]: on a decoding error the receiver is left as it
    is; otherwise the twelve fields are overwritten and [payload] stays. *)
Definition Unmarshal (e : Exchange) (data : bytes) : option error * Exchange :=
  match ser_Unmarshal data with
  | Err err => (Some (ErrUnmarshalFailure err), e)
  | Ok state =>
      (None,
       {| contactID := ser_ContactID state;
          status := ser_Status state;
          session := ser_Session state;
          payload := payload e;
          sentT1 := ser_SentT1 state;
          sentT2Map := ser_SentT2Map state;
          receivedT1s := ser_ReceivedT1s state;
          receivedT2s := ser_ReceivedT2s state;
          receivedT3s := ser_ReceivedT3s state;
          repliedT1s := ser_RepliedT1s state;
          repliedT2s := ser_RepliedT2s state;
          receivedT1Alphas := ser_ReceivedT1Alphas state;
          decryptedT1Betas := ser_DecryptedT1Betas state |})
  end.

(** [Exchange.Marshal] *)
Definition Marshal (e : Exchange) : Res bytes :=
  let ex := {| ser_ContactID := contactID e;
               ser_Status := status e;
               ser_Session := session e;
               ser_SentT1 := sentT1 e;
               ser_SentT2Map := sentT2Map e;
               ser_ReceivedT1s := receivedT1s e;
               ser_ReceivedT2s := receivedT2s e;
               ser_ReceivedT3s := receivedT3s e;
               ser_RepliedT1s := repliedT1s e;
               ser_RepliedT2s := repliedT2s e;
               ser_ReceivedT1Alphas := receivedT1Alphas e;
               ser_DecryptedT1Betas := decryptedT1Betas e |} in
  ser_Marshal ex.

(** [e'] has the twelve persistent fields of [e]; the payload, which a
    snapshot does not hold, may differ. *)
Definition same_persistent (e e' : Exchange) : Prop :=
  contactID e' = contactID e ∧
  status e' = status e ∧
  session e' = session e ∧
  sentT1 e' = sentT1 e ∧
  sentT2Map e' = sentT2Map e ∧
  receivedT1s e' = receivedT1s e ∧
  receivedT2s e' = receivedT2s e ∧
  receivedT3s e' = receivedT3s e ∧
  repliedT1s e' = repliedT1s e ∧
  repliedT2s e' = repliedT2s e ∧
  receivedT1Alphas e' = receivedT1Alphas e ∧
  decryptedT1Betas e' = decryptedT1Betas e.

(** ** What the driver does to the world *)

Inductive LogMsg : Type :=
| LogErr (err : error)              (* err.Error() *)
| LogInvalidResponse                (* InvalidResponseErrMessage *)
| LogStatusCode (code : N)          (* "received an error status code from the reunion db: %d" *)
| LogT1HashMissing (h : ExchangeHash) (* "error, t1 hash %x missing from map" *)
| LogT1Missing                      (* "error, t1 missing from map" *)
| LogDecodeT1Failure                (* "decode t1 message failure" *)
| LogProcessT3Failure (err : error) (* "ProcessType3Message failure: %s" *)
| LogRunHalted.                     (* "Run was halted." *)

Inductive Event : Type :=
| EvUpdate (u : ReunionUpdate)      (* e.updateChan <- u *)
| EvError (m : LogMsg)              (* e.log.Error / e.log.Errorf *)
| EvDebug (m : LogMsg)              (* e.log.Debug *)
| EvPrintSession                    (* fmt.Printf("session is %v\n", e.session);
                                       what is printed is not recorded *)
| EvQuery (cmd : Command) (r : Res Command)
| EvShutdownPoll (stop : bool).

Context {W : Type} `{Env W}.

Record State : Type := {
  ex : Exchange;
  world : W;
  trace : list Event;
}.

Definition upd_ex (f : Exchange → Exchange) (s : State) : State :=
  {| ex := f (ex s); world := world s; trace := trace s |}.

Definition set_world (w : W) (s : State) : State :=
  {| ex := ex s; world := w; trace := trace s |}.

Definition emit (ev : Event) (s : State) : State :=
  {| ex := ex s; world := world s; trace := trace s ++ [ev] |}.

(** [e.db.Query(cmd, e.shutdownChan)] *)
Definition query (cmd : Command) (s : State) : Res Command * State :=
  let '(w, r) := Query (world s) cmd in
  (r, emit (EvQuery cmd r) (set_world w s)).

(** [for k, v := range m]: the runtime picks the order. *)
Definition range (m : gmap ExchangeHash bytes) (s : State)
    : list (ExchangeHash * bytes) * State :=
  let '(w, entries) := mapRange (world s) m in
  (entries, set_world w s).

(** How one pass through a loop body ends: the loop goes on ([continue],
    or the end of the body) with the function's boolean accumulator, or
    the enclosing function returns. *)
Inductive Flow (R : Type) : Type :=
| Continue (acc : bool) (s : State)
| Return (r : R) (s : State).
Arguments Continue {R} acc s.
Arguments Return {R} r s.

Definition flow_state {R} (f : Flow R) : State :=
  match f with Continue _ s => s | Return _ s => s end.

Fixpoint rangeLoop {A R} (body : A → bool → State → Flow R)
    (l : list A) (acc : bool) (s : State) : Flow R :=
  match l with
  | [] => Continue acc s
  | x :: l' =>
      match body x acc s with
      | Continue acc' s' => rangeLoop body l' acc' s'
      | Return r s' => Return r s'
      end
  end.

(** [shouldStop] *)
Definition shouldStop (s : State) : bool * State :=
  let '(w, stop) := shutdownRequested (world s) in
  (stop, emit (EvShutdownPoll stop) (set_world w s)).

(** [sentUpdateOK] *)
Definition sentUpdateOK (s : State) : bool * State :=
  let r := Marshal (ex s) in
  let s := emit (EvUpdate {| ContactID := contactID (ex s);
                             Error := res_err r;
                             Serialized := res_val r;
                             Result := None |}) s in
  match r with
  | Err _ => (false, s)
  | Ok _ => (true, s)
  end.

(** ** The operations of the driver *)

(** Body of the first loop of [processState], over [state.T1Map]. *)
Definition processState_t1 (entry : ExchangeHash * bytes) (hasNew : bool)
    (s : State) : Flow (bool * option error) :=
  let '(t1hash, t1) := entry in
  match receivedT1s (ex s) !! t1hash with
  | None =>
      Continue true
        (upd_ex (λ e, set_receivedT1s (<[t1hash := t1]> (receivedT1s e)) e) s)
  | Some _ => Continue hasNew s
  end.

(** Body of the second loop of [processState], over [state.Messages]. *)
Definition processState_message (message : T2Message) (hasNew : bool)
    (s : State) : Flow (bool * option error) :=
  if bool_decide (0 < length (T2Payload message)) then
    match receivedT2s (ex s) !! SrcT1Hash message with
    | None =>
        Continue true
          (upd_ex (λ e, set_receivedT2s
             (<[SrcT1Hash message := T2Payload message]> (receivedT2s e)) e) s)
    | Some _ => Continue hasNew s
    end
  else if bool_decide (0 < length (T3Payload message)) then
    match receivedT3s (ex s) !! SrcT1Hash message with
    | None =>
        Continue true
          (upd_ex (λ e, set_receivedT3s
             (<[SrcT1Hash message := T3Payload message]> (receivedT3s e)) e) s)
    | Some _ => Continue hasNew s
    end
  else Return (false, Some ErrInvalidMessage) s.

(** [processState] *)
Definition processState (state : RequestedReunionState) (s : State)
    : (bool * option error) * State :=
  let hasNew := false in
  let '(entries, s) := range (T1Map state) s in
  match rangeLoop processState_t1 entries hasNew s with
  | Return r s => (r, s)
  | Continue hasNew s =>
      match rangeLoop processState_message (Messages state) hasNew s with
      | Return r s => (r, s)
      | Continue hasNew s => ((hasNew, None), s)
      end
  end.

(** [fetchState] *)
Definition fetchState (s : State) : option error * State :=
  let s := emit EvPrintSession s in
  let fetchStateCmd :=
    FetchState (Epoch (session (ex s))) (sha256 (sentT1 (ex s))) in
  let '(rawResponse, s) := query fetchStateCmd s in
  match rawResponse with
  | Err err => (Some err, s)
  | Ok (StateResponse ErrorCode Truncated Payload) =>
      if bool_decide (ErrorCode ≠ ResponseStatusOK) then
        (Some (ErrStatusCode ErrorCode), s)
      else
        match RequestedReunionState_Unmarshal Payload with
        | Err err => (Some err, s)
        | Ok state =>
            if Truncated then (Some ErrTruncated, s)
            else
              let '((_, err), s) := processState state s in
              (err, s)
        end
  | Ok _ => (Some ErrWrongResponse, s)
  end.

(** [sendT1] *)
Definition sendT1 (s : State) : bool * State :=
  let '(t1, err) := GenerateType1Message (session (ex s)) (payload (ex s)) in
  let s := upd_ex (set_sentT1 t1) s in
  match err with
  | Some err => (false, emit (EvError (LogErr err)) s)
  | None =>
      let t1Cmd := SendT1 (Epoch (session (ex s))) (sentT1 (ex s)) in
      let '(rawResponse, s) := query t1Cmd s in
      match rawResponse with
      | Err err => (false, emit (EvError (LogErr err)) s)
      | Ok (MessageResponse ErrorCode) =>
          if bool_decide (ErrorCode ≠ ResponseStatusOK) then
            (false, emit (EvError (LogStatusCode ErrorCode)) s)
          else (true, s)
      | Ok _ => (false, emit (EvError LogInvalidResponse) s)
      end
  end.

(** Body of the loop of [sendT2Messages], over [e.receivedT1s]. *)
Definition sendT2Messages_body (myT1Hash : ExchangeHash)
    (entry : ExchangeHash * bytes) (hasSent : bool) (s : State) : Flow bool :=
  let '(t1Hash, t1) := entry in
  if bool_decide (t1Hash = myT1Hash) then Continue hasSent s
  else
    match repliedT1s (ex s) !! t1Hash with
    | Some _ => Continue hasSent s
    | None =>
        match DecodeT1Message t1 with
        | Err err => Return false (emit (EvError (LogErr err)) s)
        | Ok (alpha, _, _) =>
            match ProcessType1MessageAlpha (session (ex s)) alpha with
            | Err err => Return false (emit (EvError (LogErr err)) s)
            | Ok (t2, alphaPubKey) =>
                let s := upd_ex (λ e, set_receivedT1Alphas
                           (<[t1Hash := alphaPubKey]> (receivedT1Alphas e)) e) s in
                let t2HashAr := sha256 t2 in
                let s := upd_ex (λ e, set_sentT2Map
                           (<[t2HashAr := t2]> (sentT2Map e)) e) s in
                let t2Cmd :=
                  SendT2 (Epoch (session (ex s))) myT1Hash t1Hash t2 in
                let '(rawResponse, s) := query t2Cmd s in
                match rawResponse with
                | Err err => Return false (emit (EvError (LogErr err)) s)
                | Ok (MessageResponse ErrorCode) =>
                    if bool_decide (ErrorCode ≠ ResponseStatusOK) then
                      Return false (emit (EvError (LogStatusCode ErrorCode)) s)
                    else
                      Continue true
                        (upd_ex (λ e, set_repliedT1s
                           (<[t1Hash := t1]> (repliedT1s e)) e) s)
                | Ok _ => Return false (emit (EvError LogInvalidResponse) s)
                end
            end
        end
    end.

(** [sendT2Messages] *)
Definition sendT2Messages (s : State) : bool * State :=
  let hasSent := false in
  let myT1Hash := sha256 (sentT1 (ex s)) in
  let '(entries, s) := range (receivedT1s (ex s)) s in
  match rangeLoop (sendT2Messages_body myT1Hash) entries hasSent s with
  | Return r s => (r, s)
  | Continue hasSent s => (hasSent, s)
  end.

(** Body of the loop of [sendT3Messages], over [e.receivedT2s]. *)
Definition sendT3Messages_body (myT1Hash : ExchangeHash)
    (entry : ExchangeHash * bytes) (hasSentT3 : bool) (s : State) : Flow bool :=
  let '(srcT1Hash, t2) := entry in
  match receivedT1s (ex s) !! srcT1Hash with
  | None => Return false (emit (EvError (LogT1HashMissing srcT1Hash)) s)
  | Some t1 =>
      let t2HashAr := sha256 t2 in
      match repliedT2s (ex s) !! t2HashAr with
      | Some _ => Continue hasSentT3 s
      | None =>
          match receivedT1Alphas (ex s) !! srcT1Hash with
          | None => Return false s
          | Some alphaKey =>
              match GetCandidateKey (session (ex s)) t2 alphaKey with
              | Err err => Return false (emit (EvError (LogErr err)) s)
              | Ok candidateKey =>
                  match DecodeT1Message t1 with
                  | Err err => Return false (emit (EvError (LogErr err)) s)
                  | Ok (_, t1beta, _) =>
                      match DecryptT1Beta candidateKey t1beta with
                      | Err err => Continue hasSentT3 (emit (EvError (LogErr err)) s)
                      | Ok beta =>
                          match ComposeType3Message (session (ex s)) beta with
                          | Err err => Return false (emit (EvError (LogErr err)) s)
                          | Ok t3 =>
                              let sendT3Cmd :=
                                SendT3 (Epoch (session (ex s))) myT1Hash srcT1Hash t3 in
                              let '(rawResponse, s) := query sendT3Cmd s in
                              match rawResponse with
                              | Err err => Return false (emit (EvError (LogErr err)) s)
                              | Ok (MessageResponse ErrorCode) =>
                                  if bool_decide (ErrorCode ≠ ResponseStatusOK) then
                                    Return false
                                      (emit (EvError (LogStatusCode ErrorCode)) s)
                                  else
                                    let s := upd_ex (λ e, set_decryptedT1Betas
                                               (<[srcT1Hash := beta]> (decryptedT1Betas e)) e) s in
                                    let s := upd_ex (λ e, set_repliedT2s
                                               (<[t2HashAr := t2]> (repliedT2s e)) e) s in
                                    Continue true s
                              | Ok _ =>
                                  Return false (emit (EvError LogInvalidResponse) s)
                              end
                          end
                      end
                  end
              end
          end
      end
  end.

(** [sendT3Messages] *)
Definition sendT3Messages (s : State) : bool * State :=
  let hasSentT3 := false in
  let myT1Hash := sha256 (sentT1 (ex s)) in
  let '(entries, s) := range (receivedT2s (ex s)) s in
  match rangeLoop (sendT3Messages_body myT1Hash) entries hasSentT3 s with
  | Return r s => (r, s)
  | Continue hasSentT3 s => (hasSentT3, s)
  end.

(** Body of the loop of [processT3Messages], over [e.receivedT3s]. *)
Definition processT3Messages_body (entry : ExchangeHash * bytes)
    (processed : bool) (s : State) : Flow bool :=
  let '(srcT1Hash, t3) := entry in
  match decryptedT1Betas (ex s) !! srcT1Hash with
  | None => Continue processed s
  | Some beta =>
      match receivedT1s (ex s) !! srcT1Hash with
      | None => Return false (emit (EvError LogT1Missing) s)
      | Some t1 =>
          match DecodeT1Message t1 with
          | Err err =>
              Return false
                (emit (EvError (LogErr err)) (emit (EvDebug LogDecodeT1Failure) s))
          | Ok (_, _, gamma) =>
              match ProcessType3Message (session (ex s)) t3 gamma beta with
              | Err err => Return false (emit (EvError (LogProcessT3Failure err)) s)
              | Ok plaintext =>
                  Continue true
                    (emit (EvUpdate {| ContactID := contactID (ex s);
                                       Error := None;
                                       Serialized := None;
                                       Result := Some plaintext |}) s)
              end
          end
      end
  end.

(** [processT3Messages] *)
Definition processT3Messages (s : State) : bool * State :=
  let processed := false in
  let '(entries, s) := range (receivedT3s (ex s)) s in
  match rangeLoop processT3Messages_body entries processed s with
  | Return r s => (r, s)
  | Continue processed s => (processed, s)
  end.

(** ** Run *)

(** A run of the driver either returns or is still in its [for] loop
    when the fuel (a bound on the number of iterations) is used up. *)
Inductive Outcome : Type :=
| Returned (s : State)
| Running (s : State).

Definition outcome_state (o : Outcome) : State :=
  match o with Returned s => s | Running s => s end.

Definition returned (o : Outcome) : bool :=
  match o with Returned _ => true | Running _ => false end.

(** One iteration of the [for] loop of the [t1MessageSentState] case:
    [inl s] when the iteration leaves [Run] (by [return] or [break]),
    [inr s] when the loop goes round again. *)
Definition Run_iteration (s : State) : State + State :=
  let '(err, s) := fetchState s in
  match err with
  | Some err => inl (emit (EvError (LogErr err)) s)
  | None =>
      let '(_, s) := sendT2Messages s in
      let '(ok, s) := sentUpdateOK s in
      if negb ok then inl s
      else
        let '(stop, s) := shouldStop s in
        if stop then inl (emit (EvError (LogErr ErrShutdown)) s)
        else
          let '(_, s) := sendT3Messages s in
          let '(ok, s) := sentUpdateOK s in
          if negb ok then inl s
          else
            let '(stop, s) := shouldStop s in
            if stop then inl (emit (EvError (LogErr ErrShutdown)) s)
            else
              let '(processed, s) := processT3Messages s in
              if processed then inl s else inr s
  end.

Fixpoint Run_loop (fuel : nat) (s : State) : Outcome :=
  match fuel with
  | O => Running s
  | S fuel =>
      match Run_iteration s with
      | inl s => Returned s
      | inr s => Run_loop fuel s
      end
  end.

(** The [switch] of [Run], without the deferred log line. *)
Definition Run_switch (fuel : nat) (s : State) : Outcome :=
  if bool_decide (status (ex s) = initialState) then
    let '(ok, s) := sendT1 s in
    if negb ok then Returned s
    else
      let s := upd_ex (set_status t1MessageSentState) s in
      let '(ok, s) := sentUpdateOK s in
      if negb ok then Returned s
      else
        let '(stop, s) := shouldStop s in
        if stop then Returned (emit (EvError (LogErr ErrShutdown)) s)
        else Run_loop fuel s
  else if bool_decide (status (ex s) = t1MessageSentState) then
    Run_loop fuel s
  else
    Returned (emit (EvUpdate {| ContactID := contactID (ex s);
                                Error := Some ErrUnknownState;
                                Serialized := None;
                                Result := None |}) s).

(** [Run]: [defer e.log.Debug("Run was halted.")] fires on every return. *)
Definition Run (fuel : nat) (s : State) : Outcome :=
  match Run_switch fuel s with
  | Returned s => Returned (emit (EvDebug LogRunHalted) s)
  | Running s => Running s
  end.

(** The updates sent on [updateChan], in order. *)
Definition updates (t : list Event) : list ReunionUpdate :=
  omap (λ ev, match ev with EvUpdate u => Some u | _ => None end) t.

End Exchange.

(** * Properties *)

Arguments State {_} W.
Arguments Flow {_} W R.
Arguments Outcome {_} W.
Arguments Continue {_ _ _} acc s.
Arguments Return {_ _ _} r s.

(** * The snapshot format *)

(** A type with a binary form: [put] writes a value, [get] reads one
    from the front of the input and hands back what is left. *)
Class Wire (A : Type) : Type := {
  put : A → bytes;
  get : bytes → option (A * bytes);
  get_put : ∀ a rest, get (put a ++ rest) = Some (a, rest);
}.
#[global] Hint Mode Wire ! : typeclass_instances.

Definition byte_of_N (n : N) : byte := default x00 (Byte.of_N n).

Lemma to_N_byte_of_N (n : N) : (n < 256)%N → Byte.to_N (byte_of_N n) = n.
Proof.
  intros Hn. unfold byte_of_N.
  destruct (Byte.of_N n) as [b|] eqn:Hb; simpl.
  - by apply Byte.to_of_N.
  - apply Byte.of_N_None_iff in Hb. lia.
Qed.

(** Unsigned integers, seven bits to a byte, least significant first;
    the top bit of a byte says that more follow. *)
Fixpoint put_uint (fuel : nat) (n : N) : bytes :=
  match fuel with
  | O => [byte_of_N (n `mod` 128)]
  | S fuel =>
      if (n <? 128)%N then [byte_of_N n]
      else byte_of_N (128 + n `mod` 128) :: put_uint fuel (n `div` 128)
  end.

Fixpoint get_uint (l : bytes) : option (N * bytes) :=
  match l with
  | [] => None
  | b :: l =>
      let v := Byte.to_N b in
      if (v <? 128)%N then Some (v, l)
      else
        match get_uint l with
        | Some (hi, rest) => Some ((v - 128) + 128 * hi, rest)%N
        | None => None
        end
  end.

Lemma get_put_uint (fuel : nat) (n : N) (rest : bytes) :
  (n < 2 ^ N.of_nat (7 + fuel))%N →
  get_uint (put_uint fuel n ++ rest) = Some (n, rest).
Proof.
  revert n. induction fuel as [|fuel IH]; intros n Hn; simpl.
  - change (2 ^ N.of_nat (7 + 0))%N with 128%N in Hn.
    rewrite N.mod_small by done. rewrite to_N_byte_of_N by lia.
    by rewrite (proj2 (N.ltb_lt _ _) Hn).
  - destruct (N.ltb_spec n 128) as [Hlt|Hge]; simpl.
    + rewrite to_N_byte_of_N by lia. by rewrite (proj2 (N.ltb_lt _ _) Hlt).
    + pose proof (N.mod_lt n 128 ltac:(done)) as Hmod.
      pose proof (N.div_mod n 128 ltac:(done)) as Hdiv.
      set (lo := (n `mod` 128)%N) in *. set (hi := (n `div` 128)%N) in *.
      rewrite to_N_byte_of_N by lia.
      rewrite (proj2 (N.ltb_ge _ _)) by lia.
      rewrite IH.
      * do 2 f_equal. lia.
      * apply N.Div0.div_lt_upper_bound.
        replace (N.of_nat (7 + S fuel)) with (N.succ (N.of_nat (7 + fuel)))
          in Hn by lia.
        rewrite N.pow_succ_r' in Hn. lia.
Qed.

Lemma size_nat_bound (n : N) : (n < 2 ^ N.of_nat (N.size_nat n))%N.
Proof.
  destruct n as [|p]; [done|]. simpl.
  induction p as [p IH|p IH|]; simpl Pos.size_nat;
    rewrite ?Nat2N.inj_succ, ?N.pow_succ_r'; lia.
Qed.

#[global, refine] Instance wire_N : Wire N := {|
  put n := x00 :: put_uint (N.size_nat n) n;
  get l := match l with
           | x00 :: l => get_uint l
           | _ => None
           end;
|}.
Proof.
  intros n rest. simpl. apply get_put_uint.
  pose proof (size_nat_bound n) as Hn.
  eapply N.lt_le_trans; [done|]. apply N.pow_le_mono_r; lia.
Defined.

(** Signed integers: a tag for the sign, then the magnitude. *)
#[global, refine] Instance wire_Z : Wire Z := {|
  put z := (if (z <? 0)%Z then x21 else x20)
             :: put_uint (N.size_nat (Z.abs_N z)) (Z.abs_N z);
  get l := match l with
           | x20 :: l =>
               match get_uint l with
               | Some (n, rest) => Some (Z.of_N n, rest)
               | None => None
               end
           | x21 :: l =>
               match get_uint l with
               | Some (n, rest) => Some (- Z.of_N n, rest)%Z
               | None => None
               end
           | _ => None
           end;
|}.
Proof.
  intros z rest.
  assert (get_uint (put_uint (N.size_nat (Z.abs_N z)) (Z.abs_N z) ++ rest)
          = Some (Z.abs_N z, rest)) as Hget.
  { apply get_put_uint. pose proof (size_nat_bound (Z.abs_N z)) as Hn.
    eapply N.lt_le_trans; [done|]. apply N.pow_le_mono_r; lia. }
  destruct (Z.ltb_spec z 0); simpl; rewrite Hget; do 2 f_equal; lia.
Defined.

(** Byte strings: a tag, the length, the bytes. *)
#[global, refine] Instance wire_bytes : Wire bytes := {|
  put l := x40 :: put_uint (N.size_nat (N.of_nat (length l)))
                           (N.of_nat (length l)) ++ l;
  get l := match l with
           | x40 :: l =>
               match get_uint l with
               | Some (n, rest) =>
                   if bool_decide (N.to_nat n ≤ length rest)
                   then Some (take (N.to_nat n) rest, drop (N.to_nat n) rest)
                   else None
               | None => None
               end
           | _ => None
           end;
|}.
Proof.
  intros l rest. simpl. rewrite <-app_assoc, get_put_uint.
  - rewrite Nat2N.id, bool_decide_eq_true_2 by (rewrite length_app; lia).
    by rewrite take_app_length, drop_app_length.
  - pose proof (size_nat_bound (N.of_nat (length l))) as Hn.
    eapply N.lt_le_trans; [done|]. apply N.pow_le_mono_r; lia.
Defined.

(** Hashes: the 32 bytes. *)
#[global, refine] Instance wire_hash : Wire ExchangeHash := {|
  put hash := vec_to_list hash;
  get l := match hash_of_list (take 32 l) with
           | Some hash => Some (hash, drop 32 l)
           | None => None
           end;
|}.
Proof.
  intros hash rest.
  rewrite take_app_length' by (by rewrite length_vec_to_list).
  rewrite drop_app_length' by (by rewrite length_vec_to_list).
  by rewrite hash_of_list_to_list.
Defined.

(** Pairs: one after the other. *)
#[global, refine] Instance wire_pair {A B} `{!Wire A, !Wire B}
    : Wire (A * B) := {|
  put p := put p.1 ++ put p.2;
  get l := match get (A := A) l with
           | Some (a, rest) =>
               match get (A := B) rest with
               | Some (b, rest) => Some ((a, b), rest)
               | None => None
               end
           | None => None
           end;
|}.
Proof.
  intros [a b] rest. simpl. by rewrite <-app_assoc, !get_put.
Defined.

(** Sequences: a tag, the number of items, the items. *)
Fixpoint get_items {A} `{!Wire A} (n : nat) (l : bytes)
    : option (list A * bytes) :=
  match n with
  | O => Some ([], l)
  | S n =>
      match get l with
      | Some (a, rest) =>
          match get_items n rest with
          | Some (items, rest) => Some (a :: items, rest)
          | None => None
          end
      | None => None
      end
  end.

Definition put_items {A} `{!Wire A} (items : list A) : bytes :=
  concat (put <$> items).

Lemma get_put_items {A} `{!Wire A} (items : list A) (rest : bytes) :
  get_items (length items) (put_items items ++ rest) = Some (items, rest).
Proof.
  induction items as [|a items IH]; [done|].
  change (put_items (a :: items)) with (put a ++ put_items items).
  cbn [length get_items]. by rewrite <-app_assoc, get_put, IH.
Qed.

#[global, refine] Instance wire_list {A} `{!Wire A} : Wire (list A) := {|
  put items := x80 :: put_uint (N.size_nat (N.of_nat (length items)))
                               (N.of_nat (length items)) ++ put_items items;
  get l := match l with
           | x80 :: l =>
               match get_uint l with
               | Some (n, rest) => get_items (N.to_nat n) rest
               | None => None
               end
           | _ => None
           end;
|}.
Proof.
  intros items rest. simpl. rewrite <-app_assoc, get_put_uint.
  - by rewrite Nat2N.id, get_put_items.
  - pose proof (size_nat_bound (N.of_nat (length items))) as Hn.
    eapply N.lt_le_trans; [done|]. apply N.pow_le_mono_r; lia.
Defined.

(** Maps: the sequence of their entries. *)
#[global, refine] Instance wire_map {V} `{!Wire V}
    : Wire (gmap ExchangeHash V) := {|
  put m := put (map_to_list m);
  get l := match get (A := list (ExchangeHash * V)) l with
           | Some (entries, rest) =>
               Some (list_to_map entries : gmap ExchangeHash V, rest)
           | None => None
           end;
|}.
Proof.
  intros m rest. by rewrite get_put, list_to_map_to_list.
Defined.


(** A type that is another one in disguise is written as that one. *)
Definition wire_iso {A B} `{!Wire B} (f : A → B) (g : B → A)
    (Hgf : ∀ a, g (f a) = a) : Wire A.
Proof.
  refine {| put a := put (f a);
            get l := match get (A := B) l with
                     | Some (b, rest) => Some (g b, rest)
                     | None => None
                     end |}.
  intros a rest. by rewrite get_put, Hgf.
Defined.

Section SnapshotFormat.
Context `{!ReunionLib} `{!Wire Session} `{!Wire PublicKey}.

Definition fields_of (state : serializableExchange) :=
  (ser_ContactID state, (ser_Status state, (ser_Session state,
   (ser_SentT1 state, (ser_SentT2Map state, (ser_ReceivedT1s state,
    (ser_ReceivedT2s state, (ser_ReceivedT3s state, (ser_RepliedT1s state,
     (ser_RepliedT2s state, (ser_ReceivedT1Alphas state,
      ser_DecryptedT1Betas state))))))))))).

Definition of_fields
    (fields : N * (Z * (Session * (bytes * (gmap ExchangeHash bytes *
              (gmap ExchangeHash bytes * (gmap ExchangeHash bytes *
              (gmap ExchangeHash bytes * (gmap ExchangeHash bytes *
              (gmap ExchangeHash bytes * (gmap ExchangeHash PublicKey *
               gmap ExchangeHash PublicKey)))))))))))
    : serializableExchange :=
  let '(contactID, (status, (session, (sentT1, (sentT2Map, (receivedT1s,
       (receivedT2s, (receivedT3s, (repliedT1s, (repliedT2s,
       (receivedT1Alphas, decryptedT1Betas))))))))))) := fields in
  {| ser_ContactID := contactID; ser_Status := status;
     ser_Session := session; ser_SentT1 := sentT1;
     ser_SentT2Map := sentT2Map; ser_ReceivedT1s := receivedT1s;
     ser_ReceivedT2s := receivedT2s; ser_ReceivedT3s := receivedT3s;
     ser_RepliedT1s := repliedT1s; ser_RepliedT2s := repliedT2s;
     ser_ReceivedT1Alphas := receivedT1Alphas;
     ser_DecryptedT1Betas := decryptedT1Betas |}.

Lemma of_fields_of (state : serializableExchange) :
  of_fields (fields_of state) = state.
Proof. by destruct state. Qed.

#[global] Instance wire_serializableExchange : Wire serializableExchange :=
  wire_iso fields_of of_fields of_fields_of.

(** Modelled from the spec: the snapshot codec, that is the methods
    [Marshal] and [Unmarshal] of [serializableExchange], which are not
    among the sources.  The spec asks for a self-describing binary
    encoding of the tuple of the twelve persistent fields, in the order
    [contact_id, status, session, sent_t1, sent_t2_map, received_t1s,
    received_t2s, received_t3s, replied_t1s, replied_t2s,
    received_t1_alphas, decrypted_t1_betas], that rejects unknown
    trailing bytes.  How a session and a public key are written is left
    to their package. *)
Definition snapshot_codec : SnapshotCodec := {|
  ser_Marshal state := Ok (put state);
  ser_Unmarshal data :=
    match get data with
    | Some (state, []) => Ok state
    | Some (_, _ :: _) => Err (ErrExternal "snapshot: trailing bytes")
    | None => Err (ErrExternal "snapshot: malformed")
    end;
|}.

End SnapshotFormat.


(** * A small concrete instance

    A world whose database answers from a script, whose shutdown channel
    is read from a script, and whose maps are enumerated forwards or
    backwards as a third script says; and collaborators simple enough to
    follow by hand.  The hash of a message is 32 copies of its first
    byte; a T1 is three bytes, alpha, beta and gamma. *)
Module Toy.

Definition h (b : byte) : ExchangeHash := vreplicate 32 b.

Definition hash (msg : bytes) : ExchangeHash := h (hd x00 msg).

Definition fail (msg : string) {A} : Res A := Err (ErrExternal msg).

(** The boards a [StateResponse] payload can stand for: payload [[i]]
    is the [i]-th board of the list. *)
Definition boards : list RequestedReunionState := [
  (* 0: nothing posted *)
  {| T1Map := ∅; Messages := [] |};
  (* 1: peers a1 and b2 have posted well-formed T1s and have answered
        ours with a T2 and a T3 each *)
  {| T1Map := <[h xa1 := [xa1; x11; x21]]> (<[h xb2 := [xb2; x12; x22]]> ∅);
     Messages := [
       {| SrcT1Hash := h xa1; T2Payload := [xa1; x02]; T3Payload := [] |};
       {| SrcT1Hash := h xb2; T2Payload := [xb2; x02]; T3Payload := [] |};
       {| SrcT1Hash := h xa1; T2Payload := []; T3Payload := [x03; xa1] |};
       {| SrcT1Hash := h xb2; T2Payload := []; T3Payload := [x03; xb2] |} ] |};
  (* 2: peer a1 has posted a well-formed T1, peer b2 a T1 that is too
        short to decode; both have sent us a T2 *)
  {| T1Map := <[h xa1 := [xa1; x11; x21]]> (<[h xb2 := [xb2]]> ∅);
     Messages := [
       {| SrcT1Hash := h xa1; T2Payload := [xa1; x02]; T3Payload := [] |};
       {| SrcT1Hash := h xb2; T2Payload := [xb2; x02]; T3Payload := [] |} ] |};
  (* 3: peer a1 alone has posted a T1 *)
  {| T1Map := <[h xa1 := [xa1; x11; x21]]> ∅; Messages := [] |}
].

#[global] Instance lib : ReunionLib := {|
  Session := N;
  PublicKey := bytes;
  sha256 := hash;
  NewSession := λ passphrase sharedRandomValue epoch, Ok epoch;
  Epoch := λ session, session;
  GenerateType1Message := λ session payload,
    match payload with
    | [] => ([], Some (ErrExternal "no payload"))
    | _ => (xee :: payload, None)
    end;
  DecodeT1Message := λ t1,
    match t1 with
    | [alpha; beta; gamma] => Ok ([alpha], [beta], [gamma])
    | _ => fail "t1 decode"
    end;
  ProcessType1MessageAlpha := λ session alpha,
    match alpha with
    | [xff] => fail "alpha"
    | _ => Ok (alpha ++ [x02], alpha)
    end;
  GetCandidateKey := λ session t2 alphaKey,
    match t2 with
    | [] => fail "candidate key"
    | _ => Ok alphaKey
    end;
  DecryptT1Beta := λ candidateKey t1beta,
    match t1beta with
    | [x00] => fail "aead"
    | _ => Ok t1beta
    end;
  ComposeType3Message := λ session beta, Ok (x03 :: beta);
  ProcessType3Message := λ session t3 gamma beta,
    match t3 with
    | x03 :: _ => Ok (x99 :: gamma)
    | _ => fail "t3"
    end;
  RequestedReunionState_Unmarshal := λ payload,
    match payload with
    | [i] => match boards !! N.to_nat (Byte.to_N i) with
             | Some board => Ok board
             | None => fail "no such board"
             end
    | _ => fail "state decode"
    end;
|}.

Record World : Type := {
  responses : list (Res Command);
  stops : list bool;
  backwards : list bool;
}.

Definition toyQuery (w : World) (cmd : Command) : World * Res Command :=
  match responses w with
  | [] => (w, fail "connection closed")
  | r :: rs =>
      ({| responses := rs; stops := stops w; backwards := backwards w |}, r)
  end.

Definition toyShutdownRequested (w : World) : World * bool :=
  match stops w with
  | [] => (w, false)
  | b :: bs =>
      ({| responses := responses w; stops := bs; backwards := backwards w |}, b)
  end.

Definition toyMapRange (w : World) (m : gmap ExchangeHash bytes)
    : World * list (ExchangeHash * bytes) :=
  match backwards w with
  | [] => (w, map_to_list m)
  | b :: bs =>
      ({| responses := responses w; stops := stops w; backwards := bs |},
       if b then reverse (map_to_list m) else map_to_list m)
  end.

Lemma toyMapRange_perm w m : (toyMapRange w m).2 ≡ₚ map_to_list m.
Proof.
  unfold toyMapRange. destruct (backwards w) as [|[] bs]; simpl; try done.
  apply reverse_Permutation.
Qed.

#[global] Instance env : Env World := {|
  Query := toyQuery;
  shutdownRequested := toyShutdownRequested;
  mapRange := toyMapRange;
  mapRange_perm := toyMapRange_perm;
|}.

(** Sessions are written as numbers and public keys as byte strings. *)
#[global] Instance codec : SnapshotCodec :=
  @snapshot_codec lib wire_N wire_bytes.

Definition OK : Res Command := Ok (MessageResponse ResponseStatusOK).

Definition board (i : byte) : Res Command :=
  Ok (StateResponse ResponseStatusOK false [i]).

(** The fresh Exchange for contact 7 with payload "AAA" in epoch 1. *)
Definition freshExchange : Exchange :=
  {| status := initialState; contactID := 7; session := 1%N;
     payload := [x41; x41; x41]; sentT1 := []; sentT2Map := ∅;
     repliedT1s := ∅; repliedT2s := ∅; receivedT1s := ∅;
     receivedT2s := ∅; receivedT3s := ∅;
     receivedT1Alphas := ∅; decryptedT1Betas := ∅ |}.

Definition fresh (w : World) : State World :=
  {| ex := freshExchange; world := w; trace := [] |}.

Definition script (rs : list (Res Command)) (st bw : list bool) : World :=
  {| responses := rs; stops := st; backwards := bw |}.

(** The trace with the bytes of every snapshot left out. *)
Definition outline (t : list Event) : list Event :=
  (λ ev, match ev with
         | EvUpdate u =>
             EvUpdate {| ContactID := ContactID u; Error := Error u;
                         Serialized := (λ _, []) <$> Serialized u;
                         Result := Result u |}
         | _ => ev
         end) <$> t.

(** A snapshot update in an outline, and the hash of the own T1. *)
Definition snapshot : Event :=
  EvUpdate {| ContactID := 7; Error := None; Serialized := Some [];
              Result := None |}.

Definition result (plaintext : bytes) : Event :=
  EvUpdate {| ContactID := 7; Error := None; Serialized := None;
              Result := Some plaintext |}.

Definition me : ExchangeHash := h xee.

Definition myT1 : bytes := [xee; x41; x41; x41].

(** The state in which the fresh Exchange enters the loop of [Run],
    after its T1 has been accepted. *)
Definition loop_head (w : World) : State World :=
  outcome_state (Run 0 (fresh (script (OK :: responses w) (false :: stops w)
                                 (backwards w)))).

(** The worlds of the scenarios below. *)
Definition refused : World := script [fail "connection refused"] [] [].
Definition bad_status : World :=
  script [OK; Ok (StateResponse 1 false [])] [] [].
Definition truncated : World :=
  script [OK; Ok (StateResponse 0 true [x00])] [] [].
Definition fetch_timeout : World := script [OK; fail "timeout"] [] [].
Definition two_peers : World := script [board x01; OK; OK; OK; OK] [] [].
Definition bad_peer_first : World := script [board x02; OK; OK] [] [].
Definition bad_peer_last : World :=
  script [board x02; OK; OK] [] [false; true; false].
Definition bad_peer_last_good_first : World :=
  script [board x02; OK; OK] [] [false; true; true].
Definition t2_timeout : World := script [board x03; fail "timeout"] [] [].
Definition one_peer : World := script [board x03; OK] [] [].
Definition cancelled_early : World := script [board x03; OK] [true] [].
Definition cancelled_late : World := script [board x03; OK] [false; true] [].

End Toy.


Section Properties.
Context `{!ReunionLib} `{!SnapshotCodec} {W : Type} `{!Env W}.

(** ** Loops *)

(** A property of the state that every pass through the body keeps is
    kept by the whole loop, however it ends. *)
Lemma rangeLoop_inv {A R} (P : State W → Prop)
    (body : A → bool → State W → Flow W R) (l : list A) (acc : bool)
    (s : State W) :
  (∀ x acc s, x ∈ l → P s → P (flow_state (body x acc s))) →
  P s → P (flow_state (rangeLoop body l acc s)).
Proof.
  revert acc s. induction l as [|x l IH]; intros acc s Hbody Hs; [done|].
  simpl. pose proof (Hbody x acc s (list_elem_of_here _ _) Hs) as Hx.
  destruct (body x acc s) as [acc' s'|r s']; [|done].
  apply IH; [|done]. intros y acc0 s0 Hy. apply Hbody. by constructor.
Qed.

(** The entries a [range] loop visits are entries of the map. *)
Lemma range_elem_of (m : gmap ExchangeHash bytes) (s : State W) k v :
  (k, v) ∈ (range m s).1 → m !! k = Some v.
Proof.
  unfold range. pose proof (mapRange_perm (world s) m) as Hp.
  destruct (mapRange (world s) m) as [w l]. simpl in *.
  rewrite Hp. apply elem_of_map_to_list.
Qed.

Lemma range_ex (m : gmap ExchangeHash bytes) (s : State W) :
  ex (range m s).2 = ex s.
Proof. unfold range. by destruct (mapRange (world s) m). Qed.

Lemma range_trace (m : gmap ExchangeHash bytes) (s : State W) :
  trace (range m s).2 = trace s.
Proof. unfold range. by destruct (mapRange (world s) m). Qed.

Lemma query_ex (cmd : Command) (s : State W) : ex (query cmd s).2 = ex s.
Proof. unfold query. by destruct (Query (world s) cmd). Qed.

Lemma query_trace (cmd : Command) (s : State W) :
  trace (query cmd s).2 = trace s ++ [EvQuery cmd (query cmd s).1].
Proof. unfold query. by destruct (Query (world s) cmd). Qed.

(** ** processState *)

(** The three maps of received messages grow from [s] to [s']: every key
    of [s] is still there in [s'], with the value it had. *)
Definition received_grow (s s' : State W) : Prop :=
  receivedT1s (ex s) ⊆ receivedT1s (ex s') ∧
  receivedT2s (ex s) ⊆ receivedT2s (ex s') ∧
  receivedT3s (ex s) ⊆ receivedT3s (ex s').

(** A message that carries neither a T2 nor a T3 payload. *)
Definition invalidMessage (m : T2Message) : bool :=
  bool_decide (T2Payload m = [] ∧ T3Payload m = []).

Lemma received_grow_refl (s : State W) : received_grow s s.
Proof. by repeat split. Qed.

Lemma received_grow_trans (s1 s2 s3 : State W) :
  received_grow s1 s2 → received_grow s2 s3 → received_grow s1 s3.
Proof.
  intros (?&?&?) (?&?&?). repeat split; by etrans.
Qed.

Lemma processState_t1_grow entry hasNew (s : State W) :
  received_grow s (flow_state (processState_t1 entry hasNew s)).
Proof.
  destruct entry as [t1hash t1]. unfold processState_t1.
  destruct (receivedT1s (ex s) !! t1hash) eqn:Hl; simpl.
  - apply received_grow_refl.
  - repeat split; simpl; [|done..]. by apply insert_subseteq.
Qed.

Lemma processState_message_grow message hasNew (s : State W) :
  received_grow s (flow_state (processState_message message hasNew s)).
Proof.
  unfold processState_message.
  repeat case_bool_decide; repeat case_match; simpl;
    try apply received_grow_refl;
    repeat split; simpl; try done; by apply insert_subseteq.
Qed.

Lemma length_pos_nonempty {A} (l : list A) : 0 < length l ↔ l ≠ [].
Proof. destruct l; simpl; split; (done || lia). Qed.

Lemma processState_t1_loop entries hasNew (s : State W) :
  ∃ hasNew' s', rangeLoop processState_t1 entries hasNew s = Continue hasNew' s'.
Proof.
  revert hasNew s. induction entries as [|[k v] l IH]; intros hasNew s; simpl.
  - eauto.
  - destruct (receivedT1s (ex s) !! k); apply IH.
Qed.

Lemma processState_message_loop messages hasNew (s : State W) :
  if existsb invalidMessage messages
  then ∃ s', rangeLoop processState_message messages hasNew s
             = Return (false, Some ErrInvalidMessage) s'
  else ∃ hasNew' s', rangeLoop processState_message messages hasNew s
                     = Continue hasNew' s'.
Proof.
  revert hasNew s. induction messages as [|m l IH]; intros hasNew s; simpl.
  - eauto.
  - unfold processState_message at 1 3, invalidMessage at 1.
    destruct (T2Payload m) as [|b t2], (T3Payload m) as [|c t3]; simpl;
      repeat case_bool_decide; simpl in *;
      try lia; try naive_solver;
      (destruct (_ !! SrcT1Hash m); apply IH).
Qed.

Lemma processState_grow state (s : State W) : received_grow s (processState state s).2.
Proof.
  unfold processState.
  destruct (range (T1Map state) s) as [entries s1] eqn:Hr.
  assert (received_grow s s1) as H01.
  { pose proof (range_ex (T1Map state) s) as He. rewrite Hr in He.
    unfold received_grow. simpl in He. rewrite He. by repeat split. }
  pose proof (rangeLoop_inv (received_grow s) processState_t1 entries false s1)
    as H1.
  pose proof (λ s2 acc, rangeLoop_inv (received_grow s) processState_message
                (Messages state) acc s2) as H2.
  destruct (rangeLoop processState_t1 entries false s1) as [acc1 s2|r s2];
    simpl in *.
  - specialize (H2 s2 acc1).
    destruct (rangeLoop processState_message _ acc1 s2); simpl in *;
      apply H2; try (apply H1; try done);
      intros; (eapply received_grow_trans; [eassumption|]);
      auto using processState_t1_grow, processState_message_grow.
  - apply H1; [|done]. intros.
    eapply received_grow_trans; [eassumption|]. apply processState_t1_grow.
Qed.

Lemma processState_error state (s : State W) :
  (processState state s).1.2 =
  if existsb invalidMessage (Messages state) then Some ErrInvalidMessage
  else None.
Proof.
  unfold processState.
  destruct (range (T1Map state) s) as [entries s1].
  destruct (processState_t1_loop entries false s1) as (acc1 & s2 & ->).
  pose proof (processState_message_loop (Messages state) acc1 s2) as Hm.
  destruct (existsb invalidMessage (Messages state)).
  - by destruct Hm as (s' & ->).
  - by destruct Hm as (acc' & s' & ->).
Qed.


Lemma processState_t1_loop_frame entries hasNew (s : State W) :
  let s' := flow_state (rangeLoop processState_t1 entries hasNew s) in
  receivedT2s (ex s') = receivedT2s (ex s) ∧
  receivedT3s (ex s') = receivedT3s (ex s).
Proof.
  apply (rangeLoop_inv (λ s', receivedT2s (ex s') = receivedT2s (ex s) ∧
                              receivedT3s (ex s') = receivedT3s (ex s)));
    [|done].
  intros [k v] acc s0 _ [<- <-]. unfold processState_t1.
  by destruct (receivedT1s (ex s0) !! k).
Qed.

(** C10.  [processState] is first-write-wins: whatever state the board
    sends and however the call ends, every key already in [receivedT1s],
    [receivedT2s] or [receivedT3s] keeps its value ([received_grow]); the
    call fails with the invalid-message error exactly when some message
    has both payloads empty; and a message with both payloads non-empty
    is accepted and goes to [receivedT2s] under its source hash (unless
    that key is taken), never to [receivedT3s]. *)
Theorem processState_first_write_wins
    (state : RequestedReunionState) (s : State W) :
  let r := processState state s in
  received_grow s r.2 ∧
  r.1.2 = (if existsb invalidMessage (Messages state)
           then Some ErrInvalidMessage else None) ∧
  ∀ t1map src b t2 c t3,
    let m := {| SrcT1Hash := src; T2Payload := b :: t2;
                T3Payload := c :: t3 |} in
    let r1 := processState {| T1Map := t1map; Messages := [m] |} s in
    r1.1.2 = None ∧
    receivedT2s (ex r1.2) !! src
      = Some (default (b :: t2) (receivedT2s (ex s) !! src)) ∧
    receivedT3s (ex r1.2) = receivedT3s (ex s).
Proof.
  split; [apply processState_grow|]. split; [apply processState_error|].
  intros t1map src b t2 c t3 m r1. subst r1 m.
  split; [by rewrite processState_error|].
  unfold processState. cbn [T1Map Messages].
  destruct (range t1map s) as [entries s1] eqn:Hr.
  pose proof (range_ex t1map s) as He. rewrite Hr in He. simpl in He.
  pose proof (processState_t1_loop_frame entries false s1) as Hf.
  destruct (processState_t1_loop entries false s1) as (acc1 & s2 & Hl).
  rewrite Hl in Hf |- *. simpl in Hf. destruct Hf as [Hf2 Hf3].
  rewrite He in Hf2, Hf3. simpl. unfold processState_message. simpl.
  rewrite Hf2.
  destruct (receivedT2s (ex s) !! src) eqn:Hs; simpl.
  - by rewrite Hf2, Hs, Hf3.
  - by rewrite lookup_insert_eq, Hf3.
Qed.


(** ** What each operation leaves alone *)

Ltac destruct_query :=
  match goal with
  | |- context [query ?c ?s] =>
      let r := fresh "r" in
      let s' := fresh "s" in
      let Hq := fresh "Hq" in
      let Ht := fresh "Ht" in
      pose proof (query_ex c s) as Hq;
      pose proof (query_trace c s) as Ht;
      destruct (query c s) as [r s']; simpl in Hq, Ht
  end.

(** [fetchState] touches the three maps of received messages only. *)
Definition fetch_frame (s s' : State W) : Prop :=
  status (ex s') = status (ex s) ∧
  sentT1 (ex s') = sentT1 (ex s) ∧
  repliedT1s (ex s') = repliedT1s (ex s) ∧
  repliedT2s (ex s') = repliedT2s (ex s).

Lemma fetch_frame_refl (s : State W) : fetch_frame s s.
Proof. by repeat split. Qed.

Lemma fetch_frame_trans (s1 s2 s3 : State W) :
  fetch_frame s1 s2 → fetch_frame s2 s3 → fetch_frame s1 s3.
Proof.
  intros (?&?&?&?) (?&?&?&?). repeat split; by etrans.
Qed.

Lemma processState_frame state (s : State W) :
  fetch_frame s (processState state s).2.
Proof.
  unfold processState.
  pose proof (range_ex (T1Map state) s) as He.
  destruct (range (T1Map state) s) as [entries s1]. simpl in He.
  assert (fetch_frame s s1) as H01 by (unfold fetch_frame; by rewrite He).
  assert (∀ entry acc (s0 : State W),
            fetch_frame s0 (flow_state (processState_t1 entry acc s0))) as Hb1.
  { intros [k v] acc s0. unfold processState_t1.
    by destruct (receivedT1s (ex s0) !! k). }
  assert (∀ m acc (s0 : State W),
            fetch_frame s0 (flow_state (processState_message m acc s0))) as Hb2.
  { intros m acc s0. unfold processState_message.
    by repeat case_bool_decide; repeat case_match. }
  pose proof (rangeLoop_inv (fetch_frame s) processState_t1 entries false s1)
    as H1.
  pose proof (λ s2 acc, rangeLoop_inv (fetch_frame s) processState_message
                (Messages state) acc s2) as H2.
  destruct (rangeLoop processState_t1 entries false s1) as [acc1 s2|r s2];
    simpl in *.
  - specialize (H2 s2 acc1).
    destruct (rangeLoop processState_message _ acc1 s2); simpl in *;
      apply H2; try (apply H1; try done);
      intros; (eapply fetch_frame_trans; [eassumption|]); auto.
  - apply H1; [|done]. intros. eapply fetch_frame_trans; [eassumption|]. auto.
Qed.

Lemma fetchState_frame (s : State W) :
  fetch_frame s (fetchState s).2 ∧ received_grow s (fetchState s).2.
Proof.
  unfold fetchState. destruct_query.
  assert (fetch_frame s s0 ∧ received_grow s s0) as [Hf Hg].
  { unfold fetch_frame, received_grow. by rewrite Hq. }
  repeat case_match; simpl; try done; simplify_eq.
  match goal with
  | Hp : processState ?st s0 = _ |- _ =>
      pose proof (processState_frame st s0) as Hf';
      pose proof (processState_grow st s0) as Hg';
      rewrite Hp in Hf', Hg'; simpl in Hf', Hg'
  end.
  split; [by eapply fetch_frame_trans|by eapply received_grow_trans].
Qed.


(** [sendT2Messages] touches [receivedT1Alphas], [sentT2Map] and
    [repliedT1s]; the last one gains at most the entry being answered,
    which is foreign and was not answered before. *)
Lemma sendT2Messages_body_frame my t1Hash t1 hasSent (s : State W) :
  let s' := flow_state (sendT2Messages_body my (t1Hash, t1) hasSent s) in
  status (ex s') = status (ex s) ∧
  sentT1 (ex s') = sentT1 (ex s) ∧
  receivedT1s (ex s') = receivedT1s (ex s) ∧
  repliedT2s (ex s') = repliedT2s (ex s) ∧
  (repliedT1s (ex s') = repliedT1s (ex s) ∨
   t1Hash ≠ my ∧ repliedT1s (ex s) !! t1Hash = None ∧
   repliedT1s (ex s') = <[t1Hash := t1]> (repliedT1s (ex s))).
Proof.
  unfold sendT2Messages_body. case_bool_decide; [by auto 10|].
  destruct (repliedT1s (ex s) !! t1Hash) eqn:Hrep; [by auto 10|].
  destruct (DecodeT1Message t1) as [[[alpha ?] ?]|]; [|by auto 10].
  destruct (ProcessType1MessageAlpha _ alpha) as [[t2 alphaPubKey]|];
    [|by auto 10].
  cbv zeta. destruct_query.
  destruct r as [[]|]; try case_bool_decide; simpl; rewrite ?Hq; simpl;
    auto 10.
Qed.

(** What a whole pass of [sendT2Messages] keeps, from [s] to [s']. *)
Definition sendT2_frame (s s' : State W) : Prop :=
  status (ex s') = status (ex s) ∧
  sentT1 (ex s') = sentT1 (ex s) ∧
  receivedT1s (ex s') = receivedT1s (ex s) ∧
  repliedT2s (ex s') = repliedT2s (ex s) ∧
  repliedT1s (ex s) ⊆ repliedT1s (ex s') ∧
  repliedT1s (ex s') !! sha256 (sentT1 (ex s))
    = repliedT1s (ex s) !! sha256 (sentT1 (ex s)) ∧
  (repliedT1s (ex s) ⊆ receivedT1s (ex s) →
   repliedT1s (ex s') ⊆ receivedT1s (ex s')).

Lemma sendT2Messages_frame (s : State W) :
  sendT2_frame s (sendT2Messages s).2.
Proof.
  unfold sendT2Messages. cbv zeta.
  pose proof (range_ex (receivedT1s (ex s)) s) as He.
  pose proof (range_elem_of (receivedT1s (ex s)) s) as Hin.
  destruct (range (receivedT1s (ex s)) s) as [entries s1]. simpl in He, Hin.
  assert (sendT2_frame s s1) as H01.
  { unfold sendT2_frame. rewrite He. by repeat split. }
  pose proof (rangeLoop_inv (sendT2_frame s)
                (sendT2Messages_body (sha256 (sentT1 (ex s))))
                entries false s1) as Hloop.
  assert (sendT2_frame s
            (flow_state (rangeLoop
               (sendT2Messages_body (sha256 (sentT1 (ex s)))) entries false s1)))
    as Hres.
  { apply Hloop; [|done]. clear Hloop H01.
    intros [k v] acc s2 Hkv (Hst & Ht1 & Hrcv & Hr2 & Hsub & Hmy & Hinv).
    apply Hin in Hkv.
    destruct (sendT2Messages_body_frame (sha256 (sentT1 (ex s))) k v acc s2)
      as (Hst' & Ht1' & Hrcv' & Hr2' & Hr1').
    unfold sendT2_frame.
    rewrite Hst', Ht1', Hrcv', Hr2'. do 4 (split; [done|]).
    destruct Hr1' as [->|(Hne & Hnone & ->)]; [done|].
    split; [|split].
    - etrans; [done|]. by apply insert_subseteq.
    - by rewrite lookup_insert_ne.
    - intros Hs. rewrite Hrcv. apply insert_subseteq_l; [done|].
      rewrite <-Hrcv. by apply Hinv. }
  by destruct (rangeLoop _ entries false s1).
Qed.

(** [sendT3Messages] touches [decryptedT1Betas] and [repliedT2s]; the
    latter gains at most the hash of the T2 being answered, which was
    not among its keys. *)
Lemma sendT3Messages_body_frame my srcT1Hash t2 hasSentT3 (s : State W) :
  let s' := flow_state (sendT3Messages_body my (srcT1Hash, t2) hasSentT3 s) in
  status (ex s') = status (ex s) ∧
  sentT1 (ex s') = sentT1 (ex s) ∧
  receivedT1s (ex s') = receivedT1s (ex s) ∧
  repliedT1s (ex s') = repliedT1s (ex s) ∧
  (repliedT2s (ex s') = repliedT2s (ex s) ∨
   repliedT2s (ex s) !! sha256 t2 = None ∧
   repliedT2s (ex s') = <[sha256 t2 := t2]> (repliedT2s (ex s))).
Proof.
  unfold sendT3Messages_body.
  destruct (receivedT1s (ex s) !! srcT1Hash) as [t1|]; [|by auto 10].
  cbv zeta.
  destruct (repliedT2s (ex s) !! sha256 t2) eqn:Hrep; [by auto 10|].
  destruct (receivedT1Alphas (ex s) !! srcT1Hash) as [alphaKey|];
    [|by auto 10].
  destruct (GetCandidateKey _ t2 alphaKey) as [candidateKey|]; [|by auto 10].
  destruct (DecodeT1Message t1) as [[[? t1beta] ?]|]; [|by auto 10].
  destruct (DecryptT1Beta candidateKey t1beta) as [beta|]; [|by auto 10].
  destruct (ComposeType3Message _ beta) as [t3|]; [|by auto 10].
  destruct_query.
  destruct r as [[]|]; try case_bool_decide; simpl; rewrite ?Hq; simpl;
    auto 10.
Qed.

Definition sendT3_frame (s s' : State W) : Prop :=
  status (ex s') = status (ex s) ∧
  sentT1 (ex s') = sentT1 (ex s) ∧
  receivedT1s (ex s') = receivedT1s (ex s) ∧
  repliedT1s (ex s') = repliedT1s (ex s) ∧
  repliedT2s (ex s) ⊆ repliedT2s (ex s').

Lemma sendT3Messages_frame (s : State W) :
  sendT3_frame s (sendT3Messages s).2.
Proof.
  unfold sendT3Messages. cbv zeta.
  pose proof (range_ex (receivedT2s (ex s)) s) as He.
  destruct (range (receivedT2s (ex s)) s) as [entries s1]. simpl in He.
  assert (sendT3_frame s s1) as H01.
  { unfold sendT3_frame. rewrite He. by repeat split. }
  pose proof (rangeLoop_inv (sendT3_frame s)
                (sendT3Messages_body (sha256 (sentT1 (ex s))))
                entries false s1) as Hloop.
  assert (sendT3_frame s
            (flow_state (rangeLoop
               (sendT3Messages_body (sha256 (sentT1 (ex s)))) entries false s1)))
    as Hres.
  { apply Hloop; [|done]. clear Hloop H01.
    intros [k v] acc s2 _ (Hst & Ht1 & Hrcv & Hr1 & Hsub).
    destruct (sendT3Messages_body_frame (sha256 (sentT1 (ex s))) k v acc s2)
      as (Hst' & Ht1' & Hrcv' & Hr1' & Hr2').
    unfold sendT3_frame.
    rewrite Hst', Ht1', Hrcv', Hr1'. do 4 (split; [done|]).
    destruct Hr2' as [->|(Hnone & ->)]; [done|].
    etrans; [done|]. by apply insert_subseteq. }
  by destruct (rangeLoop _ entries false s1).
Qed.

(** [processT3Messages] never writes to the Exchange. *)
Lemma processT3Messages_body_ex entry processed (s : State W) :
  ex (flow_state (processT3Messages_body entry processed s)) = ex s.
Proof.
  destruct entry as [srcT1Hash t3]. unfold processT3Messages_body.
  by repeat case_match.
Qed.

Lemma processT3Messages_ex (s : State W) : ex (processT3Messages s).2 = ex s.
Proof.
  unfold processT3Messages. cbv zeta.
  pose proof (range_ex (receivedT3s (ex s)) s) as He.
  destruct (range (receivedT3s (ex s)) s) as [entries s1]. simpl in He.
  pose proof (rangeLoop_inv (λ s', ex s' = ex s) processT3Messages_body
                entries false s1) as Hloop.
  assert (ex (flow_state (rangeLoop processT3Messages_body entries false s1))
          = ex s) as Hres.
  { apply Hloop; [|done]. intros entry acc s2 _ <-.
    apply processT3Messages_body_ex. }
  by destruct (rangeLoop _ entries false s1).
Qed.

(** [sendT1] writes [sentT1] and nothing else. *)
Lemma sendT1_frame (s : State W) :
  status (ex (sendT1 s).2) = status (ex s) ∧
  repliedT1s (ex (sendT1 s).2) = repliedT1s (ex s) ∧
  repliedT2s (ex (sendT1 s).2) = repliedT2s (ex s) ∧
  receivedT1s (ex (sendT1 s).2) = receivedT1s (ex s).
Proof.
  unfold sendT1.
  destruct (GenerateType1Message _ _) as [t1 [err|]]; [done|].
  cbv zeta. destruct_query.
  destruct r as [[]|]; try case_bool_decide; simpl; by rewrite ?Hq.
Qed.


(** ** Reply monotonicity *)

(** The four operations of one iteration of the driver loop. *)
Inductive Operation : Type :=
| OpFetchState
| OpSendT2Messages
| OpSendT3Messages
| OpProcessT3Messages.

Definition perform (op : Operation) (s : State W) : State W :=
  match op with
  | OpFetchState => (fetchState s).2
  | OpSendT2Messages => (sendT2Messages s).2
  | OpSendT3Messages => (sendT3Messages s).2
  | OpProcessT3Messages => (processT3Messages s).2
  end.

(** C9.  Across each of [fetchState], [sendT2Messages], [sendT3Messages]
    and [processT3Messages], whatever the world answers and however the
    operation ends, every entry of [repliedT1s] and of [repliedT2s] is
    still there afterwards with the same value, and if [repliedT1s] was
    included in [receivedT1s] before, it still is afterwards. *)
Theorem replied_maps_only_grow (op : Operation) (s : State W) :
  let s' := perform op s in
  (∀ k v, repliedT1s (ex s) !! k = Some v → repliedT1s (ex s') !! k = Some v) ∧
  (∀ k v, repliedT2s (ex s) !! k = Some v → repliedT2s (ex s') !! k = Some v) ∧
  ((∀ k v, repliedT1s (ex s) !! k = Some v → receivedT1s (ex s) !! k = Some v) →
   ∀ k v, repliedT1s (ex s') !! k = Some v → receivedT1s (ex s') !! k = Some v).
Proof.
  cbv zeta. rewrite <-!map_subseteq_spec. destruct op; simpl.
  - destruct (fetchState_frame s) as [(_ & _ & -> & ->) (Hg & _)].
    repeat split; [done..|]. intros Hs. by etrans.
  - destruct (sendT2Messages_frame s) as (_ & _ & _ & -> & Hsub & _ & Hinv).
    by repeat split.
  - destruct (sendT3Messages_frame s) as (_ & _ & -> & -> & Hsub).
    by repeat split.
  - rewrite processT3Messages_ex. by repeat split.
Qed.

(** ** No self-reply *)

(** The states the driver can be in: a fresh Exchange, then [sendT1]
    while the status is initial, the transition to [t1MessageSentState]
    once [sendT1] has succeeded, and the four operations of the loop in
    that state.  The world and the trace are anything at any time, and
    the driver may be stopped and resumed from a snapshot, which gives
    an Exchange with the same persistent fields. *)
Inductive reachable : State W → Prop :=
| reach_NewExchange payload contactID passphrase sharedRandomValue epoch e w :
    NewExchange payload contactID passphrase sharedRandomValue epoch = Ok e →
    reachable {| ex := e; world := w; trace := [] |}
| reach_world s w t :
    reachable s → reachable {| ex := ex s; world := w; trace := t |}
| reach_resumed s e w t :
    reachable s → same_persistent (ex s) e →
    reachable {| ex := e; world := w; trace := t |}
| reach_sendT1 s :
    reachable s → status (ex s) = initialState → reachable (sendT1 s).2
| reach_t1MessageSent s :
    reachable s → status (ex s) = initialState → (sendT1 s).1 = true →
    reachable (upd_ex (set_status t1MessageSentState) (sendT1 s).2)
| reach_perform op s :
    reachable s → status (ex s) = t1MessageSentState →
    reachable (perform op s).

(** In the initial state nothing has been answered yet; afterwards the
    hash of the own T1 is not among the answered ones. *)
Definition no_self_reply (e : Exchange) : Prop :=
  (status e = initialState ∧ repliedT1s e = ∅) ∨
  (status e = t1MessageSentState ∧ repliedT1s e !! sha256 (sentT1 e) = None).

Lemma perform_no_self_reply op (s : State W) :
  status (ex s) = t1MessageSentState →
  no_self_reply (ex s) → no_self_reply (ex (perform op s)).
Proof.
  intros Hst [[Hini _]|[_ Hno]]; [by rewrite Hst in Hini|].
  right. destruct op; simpl.
  - destruct (fetchState_frame s) as [(-> & -> & -> & _) _]. done.
  - destruct (sendT2Messages_frame s) as (-> & -> & _ & _ & _ & Hmy & _).
    by rewrite Hmy.
  - destruct (sendT3Messages_frame s) as (-> & -> & _ & -> & _). done.
  - by rewrite processT3Messages_ex.
Qed.

Lemma reachable_no_self_reply (s : State W) :
  reachable s → no_self_reply (ex s).
Proof.
  induction 1 as [payload cid pass srv epoch e w Hnew|s w t _ IH
                  |s e w t _ IH Hsame|s _ IH Hst|s _ IH Hst Hok|op s _ IH Hst].
  - left. unfold NewExchange in Hnew.
    destruct (NewSession pass srv epoch); by simplify_eq.
  - done.
  - destruct Hsame as (_ & Hst & _ & Ht1 & _ & _ & _ & _ & Hrep & _).
    unfold no_self_reply in *. simpl. by rewrite Hst, Ht1, Hrep.
  - destruct IH as [[_ Hrep]|[Hst' _]]; [|by rewrite Hst in Hst'].
    destruct (sendT1_frame s) as (Hs & Hr & _). left. by rewrite Hs, Hr.
  - destruct IH as [[_ Hrep]|[Hst' _]]; [|by rewrite Hst in Hst'].
    destruct (sendT1_frame s) as (Hs & Hr & _). right. simpl.
    split; [done|]. by rewrite Hr, Hrep.
  - by apply perform_no_self_reply.
Qed.

(** C8.  In every reachable state of the Exchange the SHA-256 hash of
    [sentT1], compared as a 32-byte array, is not a key of [repliedT1s]. *)
Theorem no_self_reply_reachable (s : State W) :
  reachable s → repliedT1s (ex s) !! sha256 (sentT1 (ex s)) = None.
Proof.
  intros Hs. destruct (reachable_no_self_reply s Hs) as [[_ ->]|[_ ?]];
    [apply lookup_empty|done].
Qed.


(** Every state [Run] goes through is reachable in the sense above. *)
Lemma reachable_same_ex (s s' : State W) :
  reachable s → ex s' = ex s → reachable s'.
Proof.
  intros Hs He. destruct s' as [e' w' t']. simpl in He. subst e'.
  by apply reach_world.
Qed.

Lemma perform_status op (s : State W) :
  status (ex (perform op s)) = status (ex s).
Proof.
  destruct op; simpl.
  - by destruct (fetchState_frame s) as [(-> & _) _].
  - by destruct (sendT2Messages_frame s) as (-> & _).
  - by destruct (sendT3Messages_frame s) as (-> & _).
  - by rewrite processT3Messages_ex.
Qed.

Lemma sentUpdateOK_ex (s : State W) : ex (sentUpdateOK s).2 = ex s.
Proof. unfold sentUpdateOK. by destruct (Marshal (ex s)). Qed.

Lemma shouldStop_ex (s : State W) : ex (shouldStop s).2 = ex s.
Proof. unfold shouldStop. by destruct (shutdownRequested (world s)). Qed.

Lemma Run_iteration_reachable (s : State W) :
  reachable s → status (ex s) = t1MessageSentState →
  match Run_iteration s with
  | inl s' => reachable s'
  | inr s' => reachable s' ∧ status (ex s') = t1MessageSentState
  end.
Proof.
  intros Hs Hst. unfold Run_iteration.
  pose proof (reach_perform OpFetchState s Hs Hst) as H1.
  pose proof (perform_status OpFetchState s) as Hst1. simpl in H1, Hst1.
  destruct (fetchState s) as [[err|] s1]; simpl in *.
  { by eapply reachable_same_ex. }
  rewrite Hst in Hst1.
  pose proof (reach_perform OpSendT2Messages s1 H1 Hst1) as H2.
  pose proof (perform_status OpSendT2Messages s1) as Hst2. simpl in H2, Hst2.
  destruct (sendT2Messages s1) as [b2 s2]; simpl in *. rewrite Hst1 in Hst2.
  pose proof (sentUpdateOK_ex s2) as He3.
  destruct (sentUpdateOK s2) as [[] s3]; simpl in *;
    [|by eapply reachable_same_ex].
  pose proof (shouldStop_ex s3) as He4.
  destruct (shouldStop s3) as [[] s4]; simpl in *.
  { eapply reachable_same_ex; [done|]. simpl. congruence. }
  assert (reachable s4) as H4 by (eapply reachable_same_ex; [done|congruence]).
  assert (status (ex s4) = t1MessageSentState) as Hst4 by congruence.
  pose proof (reach_perform OpSendT3Messages s4 H4 Hst4) as H5.
  pose proof (perform_status OpSendT3Messages s4) as Hst5. simpl in H5, Hst5.
  destruct (sendT3Messages s4) as [b5 s5]; simpl in *. rewrite Hst4 in Hst5.
  pose proof (sentUpdateOK_ex s5) as He6.
  destruct (sentUpdateOK s5) as [[] s6]; simpl in *;
    [|by eapply reachable_same_ex].
  pose proof (shouldStop_ex s6) as He7.
  destruct (shouldStop s6) as [[] s7]; simpl in *.
  { eapply reachable_same_ex; [done|]. simpl. congruence. }
  assert (reachable s7) as H7 by (eapply reachable_same_ex; [done|congruence]).
  assert (status (ex s7) = t1MessageSentState) as Hst7 by congruence.
  pose proof (reach_perform OpProcessT3Messages s7 H7 Hst7) as H8.
  pose proof (perform_status OpProcessT3Messages s7) as Hst8.
  simpl in H8, Hst8.
  destruct (processT3Messages s7) as [[] s8]; simpl in *; [done|].
  split; [done|congruence].
Qed.

Lemma Run_loop_reachable fuel (s : State W) :
  reachable s → status (ex s) = t1MessageSentState →
  reachable (outcome_state (Run_loop fuel s)).
Proof.
  revert s. induction fuel as [|fuel IH]; intros s Hs Hst; [done|].
  simpl. pose proof (Run_iteration_reachable s Hs Hst) as Hit.
  destruct (Run_iteration s) as [s'|s']; [done|].
  destruct Hit. by apply IH.
Qed.

Lemma Run_reachable fuel (s : State W) :
  reachable s → reachable (outcome_state (Run fuel s)).
Proof.
  intros Hs.
  assert (reachable (outcome_state (Run_switch fuel s))) as Hsw.
  { unfold Run_switch. case_bool_decide as Hini.
    - pose proof (reach_sendT1 s Hs Hini) as H1.
      pose proof (reach_t1MessageSent s Hs Hini) as H1'.
      destruct (sendT1 s) as [[] s1]; simpl in *; [|done].
      specialize (H1' eq_refl). set (s2 := upd_ex _ s1) in *.
      pose proof (sentUpdateOK_ex s2) as He3.
      destruct (sentUpdateOK s2) as [[] s3]; simpl in *;
        [|by eapply reachable_same_ex].
      pose proof (shouldStop_ex s3) as He4.
      destruct (shouldStop s3) as [[] s4]; simpl in *.
      { eapply reachable_same_ex; [done|]. simpl. congruence. }
      apply Run_loop_reachable.
      + apply (reachable_same_ex s2); [done|]. by rewrite He4, He3.
      + by rewrite He4, He3.
    - case_bool_decide; [by apply Run_loop_reachable|].
      by eapply reachable_same_ex. }
  unfold Run. destruct (Run_switch fuel s); simpl in *; [|done].
  by eapply reachable_same_ex.
Qed.


(** ** The shape of one iteration *)

(** [s'] continues the trace of [s] by events that all satisfy [Q]. *)
Definition extends (Q : Event → Prop) (s s' : State W) : Prop :=
  ∃ evs, trace s' = trace s ++ evs ∧ Forall Q evs.

Lemma extends_refl Q (s : State W) : extends Q s s.
Proof. exists []. by rewrite app_nil_r. Qed.

Lemma extends_trans Q (s1 s2 s3 : State W) :
  extends Q s1 s2 → extends Q s2 s3 → extends Q s1 s3.
Proof.
  intros (evs1 & H1 & Hq1) (evs2 & H2 & Hq2). exists (evs1 ++ evs2).
  split; [by rewrite H2, H1, app_assoc|by apply Forall_app].
Qed.

Lemma extends_same_trace Q (s s' : State W) :
  trace s' = trace s → extends Q s s'.
Proof. intros Ht. exists []. by rewrite app_nil_r. Qed.

Lemma extends_emit Q ev (s s' : State W) :
  Q ev → extends Q s s' → extends Q s (emit ev s').
Proof.
  intros Hev (evs & Ht & Hq). exists (evs ++ [ev]). simpl.
  split; [by rewrite Ht, app_assoc|]. apply Forall_app. auto.
Qed.

Lemma extends_upd_ex Q f (s s' : State W) :
  extends Q s s' → extends Q s (upd_ex f s').
Proof. done. Qed.

Lemma extends_query Q cmd (s s' : State W) :
  (∀ r, Q (EvQuery cmd r)) → extends Q s s' → extends Q s (query cmd s').2.
Proof.
  intros Hq (evs & Ht & Hevs). exists (evs ++ [EvQuery cmd (query cmd s').1]).
  rewrite query_trace, Ht, app_assoc. split; [done|].
  apply Forall_app. auto.
Qed.

Lemma extends_range Q m (s s' : State W) :
  extends Q s s' → extends Q s (range m s').2.
Proof. intros (evs & Ht & Hq). exists evs. by rewrite range_trace. Qed.

Lemma extends_rangeLoop {A R} Q (body : A → bool → State W → Flow W R)
    (l : list A) (acc : bool) (s : State W) :
  (∀ x acc s', extends Q s' (flow_state (body x acc s'))) →
  extends Q s (flow_state (rangeLoop body l acc s)).
Proof.
  intros Hbody. apply (rangeLoop_inv (extends Q s)); [|apply extends_refl].
  intros x acc' s' _ Hs'. by eapply extends_trans.
Qed.

(** Log lines, queries and the session print: everything but updates
    and shutdown polls. *)
Definition quiet (ev : Event) : Prop :=
  match ev with
  | EvUpdate _ | EvShutdownPoll _ => False
  | _ => True
  end.

Lemma fetchState_quiet (s : State W) : extends quiet s (fetchState s).2.
Proof.
  unfold fetchState.
  set (s0 := emit _ s).
  assert (extends quiet s s0) as Hs0
    by (apply extends_emit; [done|apply extends_refl]).
  pose proof (extends_query quiet
    (FetchState (Epoch (session (ex s0))) (sha256 (sentT1 (ex s0)))) s s0
    (λ _, I) Hs0) as Hq1.
  destruct (query _ s0) as [r s1]. simpl in Hq1.
  destruct r as [[]|]; try done. case_bool_decide; [done|].
  destruct (RequestedReunionState_Unmarshal _) as [state|]; [|done].
  destruct Truncated; [done|].
  assert (extends quiet s1 (processState state s1).2) as Hp.
  { unfold processState. cbv zeta.
    pose proof (extends_range quiet (T1Map state) s1 s1 (extends_refl _ _))
      as Hr.
    destruct (range (T1Map state) s1) as [entries s2]. simpl in Hr.
    assert (∀ x acc (s' : State W),
              extends quiet s' (flow_state (processState_t1 x acc s'))) as Hb1.
    { intros [k v] acc s'. unfold processState_t1.
      by destruct (receivedT1s (ex s') !! k); apply extends_same_trace. }
    assert (∀ x acc (s' : State W),
              extends quiet s' (flow_state (processState_message x acc s')))
      as Hb2.
    { intros m acc s'. unfold processState_message.
      by repeat case_bool_decide; repeat case_match;
        apply extends_same_trace. }
    pose proof (extends_rangeLoop quiet processState_t1 entries false s2 Hb1)
      as Hl1.
    destruct (rangeLoop processState_t1 entries false s2) as [acc1 s3|r s3];
      simpl in Hl1; [|by eapply extends_trans].
    pose proof (extends_rangeLoop quiet processState_message (Messages state)
                  acc1 s3 Hb2) as Hl2.
    destruct (rangeLoop processState_message _ acc1 s3); simpl in *;
      eapply extends_trans; try eassumption; by eapply extends_trans. }
  destruct (processState state s1) as [[hasNew err] s2]. simpl in *.
  by eapply extends_trans.
Qed.

Lemma sendT2Messages_quiet (s : State W) :
  extends quiet s (sendT2Messages s).2.
Proof.
  unfold sendT2Messages. cbv zeta.
  pose proof (extends_range quiet (receivedT1s (ex s)) s s (extends_refl _ _))
    as Hr.
  destruct (range (receivedT1s (ex s)) s) as [entries s1]. simpl in Hr.
  pose proof (extends_rangeLoop quiet
    (sendT2Messages_body (sha256 (sentT1 (ex s)))) entries false s1) as Hl.
  assert (extends quiet s1 (flow_state (rangeLoop
            (sendT2Messages_body (sha256 (sentT1 (ex s)))) entries false s1)))
    as Hres.
  { apply Hl. intros [t1Hash t1] acc s'. unfold sendT2Messages_body.
    case_bool_decide; [apply extends_refl|].
    destruct (repliedT1s (ex s') !! t1Hash); [apply extends_refl|].
    destruct (DecodeT1Message t1) as [[[alpha ?] ?]|];
      [|by apply extends_emit; [|apply extends_refl]].
    destruct (ProcessType1MessageAlpha _ alpha) as [[t2 alphaPubKey]|];
      [|by apply extends_emit; [|apply extends_refl]].
    cbv zeta.
    match goal with
    | |- context [query ?c ?s0] =>
        pose proof (extends_query quiet c s' s0 (λ _, I) (extends_refl _ _))
          as Hq; destruct (query c s0) as [r s2]; simpl in Hq
    end.
    destruct r as [[]|]; try case_bool_decide; simpl;
      try (by apply extends_emit); done. }
  destruct (rangeLoop _ entries false s1); simpl in *; by eapply extends_trans.
Qed.

Lemma sendT3Messages_quiet (s : State W) :
  extends quiet s (sendT3Messages s).2.
Proof.
  unfold sendT3Messages. cbv zeta.
  pose proof (extends_range quiet (receivedT2s (ex s)) s s (extends_refl _ _))
    as Hr.
  destruct (range (receivedT2s (ex s)) s) as [entries s1]. simpl in Hr.
  pose proof (extends_rangeLoop quiet
    (sendT3Messages_body (sha256 (sentT1 (ex s)))) entries false s1) as Hl.
  assert (extends quiet s1 (flow_state (rangeLoop
            (sendT3Messages_body (sha256 (sentT1 (ex s)))) entries false s1)))
    as Hres.
  { apply Hl. intros [srcT1Hash t2] acc s'. unfold sendT3Messages_body.
    destruct (receivedT1s (ex s') !! srcT1Hash) as [t1|];
      [|by apply extends_emit; [|apply extends_refl]].
    cbv zeta.
    destruct (repliedT2s (ex s') !! sha256 t2); [apply extends_refl|].
    destruct (receivedT1Alphas (ex s') !! srcT1Hash) as [alphaKey|];
      [|apply extends_refl].
    destruct (GetCandidateKey _ t2 alphaKey) as [candidateKey|];
      [|by apply extends_emit; [|apply extends_refl]].
    destruct (DecodeT1Message t1) as [[[? t1beta] ?]|];
      [|by apply extends_emit; [|apply extends_refl]].
    destruct (DecryptT1Beta candidateKey t1beta) as [beta|];
      [|by apply extends_emit; [|apply extends_refl]].
    destruct (ComposeType3Message _ beta) as [t3|];
      [|by apply extends_emit; [|apply extends_refl]].
    match goal with
    | |- context [query ?c ?s0] =>
        pose proof (extends_query quiet c s' s0 (λ _, I) (extends_refl _ _))
          as Hq; destruct (query c s0) as [r s2]; simpl in Hq
    end.
    destruct r as [[]|]; try case_bool_decide; simpl;
      try (by apply extends_emit); done. }
  destruct (rangeLoop _ entries false s1); simpl in *; by eapply extends_trans.
Qed.


(** An update that carries a result and nothing else. *)
Definition result_bearing (u : ReunionUpdate) : Prop :=
  Result u ≠ None ∧ Error u = None ∧ Serialized u = None.

(** What [processT3Messages] may emit: result updates and log lines. *)
Definition p3_event (ev : Event) : Prop :=
  match ev with
  | EvUpdate u => result_bearing u
  | EvError _ | EvDebug _ => True
  | _ => False
  end.

Lemma updates_app (t1 t2 : list Event) :
  updates (t1 ++ t2) = updates t1 ++ updates t2.
Proof. apply omap_app. Qed.

Lemma updates_EvUpdate (us : list ReunionUpdate) :
  updates (EvUpdate <$> us) = us.
Proof. induction us as [|u us IH]; [done|]. simpl. by f_equal. Qed.

Lemma updates_quiet (evs : list Event) : Forall quiet evs → updates evs = [].
Proof.
  induction 1 as [|ev evs Hev _ IH]; [done|].
  destruct ev; simpl; try done.
Qed.

Lemma range_length (m : gmap ExchangeHash bytes) (s : State W) :
  length (range m s).1 = size m.
Proof.
  unfold range. pose proof (mapRange_perm (world s) m) as Hp.
  destruct (mapRange (world s) m) as [w l]. simpl in *.
  by rewrite Hp, length_map_to_list.
Qed.

(** One pass through the body of the loop of [processT3Messages]. *)
Lemma processT3Messages_body_trace entry processed (s : State W) :
  match processT3Messages_body entry processed s with
  | Continue processed' s' =>
      processed' = processed ∧ s' = s ∨
      processed' = true ∧ ∃ u, result_bearing u ∧ s' = emit (EvUpdate u) s
  | Return b s' =>
      b = false ∧
      ∃ evs, trace s' = trace s ++ evs ∧ Forall p3_event evs ∧ updates evs = []
  end.
Proof.
  destruct entry as [srcT1Hash t3]. unfold processT3Messages_body.
  destruct (decryptedT1Betas (ex s) !! srcT1Hash) as [beta|]; [|by left].
  destruct (receivedT1s (ex s) !! srcT1Hash) as [t1|].
  2:{ split; [done|]. eexists [_]. by repeat constructor. }
  destruct (DecodeT1Message t1) as [[[? ?] gamma]|err].
  2:{ split; [done|]. eexists [_; _]. simpl. rewrite <-app_assoc.
      by repeat constructor. }
  destruct (ProcessType3Message _ t3 gamma beta) as [plaintext|err].
  2:{ split; [done|]. eexists [_]. by repeat constructor. }
  right. split; [done|]. eexists. split; [|done]. by repeat split.
Qed.

(** The loop of [processT3Messages]: it emits result updates and log
    lines only, at most one result per entry visited; when it runs to
    its end, everything it has emitted is a result update and the
    accumulator says whether there was one. *)
Lemma processT3Messages_loop entries processed (s : State W) :
  let r := rangeLoop processT3Messages_body entries processed s in
  ∃ evs,
    trace (flow_state r) = trace s ++ evs ∧
    Forall p3_event evs ∧
    length (updates evs) ≤ length entries ∧
    match r with
    | Continue processed' _ =>
        evs = EvUpdate <$> updates evs ∧
        processed' = processed || bool_decide (evs ≠ [])
    | Return b _ => b = false
    end.
Proof.
  cbv zeta. revert processed s.
  induction entries as [|entry entries IH]; intros processed s.
  { exists []. simpl. rewrite app_nil_r, orb_false_r. by repeat split. }
  simpl. pose proof (processT3Messages_body_trace entry processed s) as Hb.
  destruct (processT3Messages_body entry processed s) as [processed1 s1|b s1].
  - destruct Hb as [[-> ->]|[-> (u & Hu & ->)]].
    + destruct (IH processed s) as (evs & ? & ? & ? & ?).
      exists evs. repeat split; try done. lia.
    + destruct (IH true (emit (EvUpdate u) s)) as (evs & Ht & Hq & Hlen & Hres).
      exists (EvUpdate u :: evs). simpl in *.
      rewrite Ht, <-app_assoc. split; [done|]. split; [by constructor|].
      split; [lia|].
      destruct (rangeLoop _ entries true _); [|done].
      destruct Hres as [Hevs ->]. split; [simpl; by f_equal|].
      by rewrite orb_true_r.
  - destruct Hb as [-> (evs & Ht & Hq & Hu)]. exists evs. simpl.
    rewrite Hu. repeat split; try done. simpl. lia.
Qed.

Lemma processT3Messages_trace (s : State W) :
  let r := processT3Messages s in
  ∃ evs,
    trace r.2 = trace s ++ evs ∧
    Forall p3_event evs ∧
    length (updates evs) ≤ size (receivedT3s (ex s)) ∧
    (r.1 = true → evs = EvUpdate <$> updates evs ∧ evs ≠ []).
Proof.
  unfold processT3Messages. cbv zeta.
  pose proof (range_trace (receivedT3s (ex s)) s) as Ht.
  pose proof (range_length (receivedT3s (ex s)) s) as Hlen.
  destruct (range (receivedT3s (ex s)) s) as [entries s1]. simpl in Ht, Hlen.
  destruct (processT3Messages_loop entries false s1)
    as (evs & Ht' & Hq & Hl & Hres).
  exists evs. rewrite <-Ht, <-Hlen.
  destruct (rangeLoop processT3Messages_body entries false s1); simpl in *.
  - destruct Hres as [Hevs ->]. do 3 (split; [done|]).
    by intros ?%bool_decide_eq_true.
  - subst. by do 3 (split; [done|]).
Qed.

(** The states along one iteration of the loop, when nothing stops it. *)
Definition after_fetchState (s : State W) : State W := (fetchState s).2.
Definition after_sendT2Messages (s : State W) : State W :=
  (sendT2Messages (after_fetchState s)).2.
Definition after_update1 (s : State W) : State W :=
  (sentUpdateOK (after_sendT2Messages s)).2.
Definition after_poll1 (s : State W) : State W :=
  (shouldStop (after_update1 s)).2.
Definition after_sendT3Messages (s : State W) : State W :=
  (sendT3Messages (after_poll1 s)).2.
Definition after_update2 (s : State W) : State W :=
  (sentUpdateOK (after_sendT3Messages s)).2.
Definition after_poll2 (s : State W) : State W :=
  (shouldStop (after_update2 s)).2.

(** The iteration that starts in [s] gets as far as [processT3Messages]:
    [fetchState] succeeds, both snapshots can be marshalled and neither
    poll of the shutdown channel finds it closed. *)
Definition reaches_processT3 (s : State W) : Prop :=
  (fetchState s).1 = None ∧
  (sentUpdateOK (after_sendT2Messages s)).1 = true ∧
  (shouldStop (after_update1 s)).1 = false ∧
  (sentUpdateOK (after_sendT3Messages s)).1 = true ∧
  (shouldStop (after_update2 s)).1 = false.

Lemma Run_iteration_reaches (s : State W) :
  reaches_processT3 s →
  Run_iteration s =
    if (processT3Messages (after_poll2 s)).1
    then inl (processT3Messages (after_poll2 s)).2
    else inr (processT3Messages (after_poll2 s)).2.
Proof.
  unfold reaches_processT3, after_poll2, after_update2, after_sendT3Messages,
    after_poll1, after_update1, after_sendT2Messages, after_fetchState,
    Run_iteration.
  destruct (fetchState s) as [err s1]. simpl.
  destruct (sendT2Messages s1) as [b2 s2]. simpl.
  destruct (sentUpdateOK s2) as [ok3 s3]. simpl.
  destruct (shouldStop s3) as [stop4 s4]. simpl.
  destruct (sendT3Messages s4) as [b5 s5]. simpl.
  destruct (sentUpdateOK s5) as [ok6 s6]. simpl.
  destruct (shouldStop s6) as [stop7 s7]. simpl.
  intros (-> & -> & -> & -> & ->). simpl.
  by destruct (processT3Messages s7) as [[] s8].
Qed.

(** The only ways out of the loop. *)
Lemma Run_iteration_exits (s s' : State W) :
  Run_iteration s = inl s' →
  (fetchState s).1 ≠ None ∨
  (sentUpdateOK (after_sendT2Messages s)).1 = false ∨
  (shouldStop (after_update1 s)).1 = true ∨
  (sentUpdateOK (after_sendT3Messages s)).1 = false ∨
  (shouldStop (after_update2 s)).1 = true ∨
  (processT3Messages (after_poll2 s)).1 = true.
Proof.
  unfold after_poll2, after_update2, after_sendT3Messages,
    after_poll1, after_update1, after_sendT2Messages, after_fetchState,
    Run_iteration.
  destruct (fetchState s) as [[err|] s1]; simpl; [by auto|].
  destruct (sendT2Messages s1) as [b2 s2]. simpl.
  destruct (sentUpdateOK s2) as [[] s3]; simpl; [|by auto].
  destruct (shouldStop s3) as [[] s4]; simpl; [by auto|].
  destruct (sendT3Messages s4) as [b5 s5]. simpl.
  destruct (sentUpdateOK s5) as [[] s6]; simpl; [|by auto 10].
  destruct (shouldStop s6) as [[] s7]; simpl; [by auto 10|].
  destruct (processT3Messages s7) as [[] s8]; simpl; [by auto 10|done].
Qed.


(** [u] is the snapshot update [sentUpdateOK] sends for [e] when the
    Exchange can be marshalled. *)
Definition snapshot_of (e : Exchange) (u : ReunionUpdate) : Prop :=
  ∃ serialized,
    Marshal e = Ok serialized ∧
    u = {| ContactID := contactID e; Error := None;
           Serialized := Some serialized; Result := None |}.

(** The serialized snapshots sent on the update channel, and the
    readings of the shutdown channel, in a stretch of the trace. *)
Definition snapshots (t : list Event) : list bytes :=
  omap (λ ev, match ev with EvUpdate u => Serialized u | _ => None end) t.

Definition polls (t : list Event) : list bool :=
  omap (λ ev, match ev with EvShutdownPoll b => Some b | _ => None end) t.

Lemma snapshots_quiet (evs : list Event) :
  Forall quiet evs → snapshots evs = [].
Proof. induction 1 as [|[] evs Hev _ IH]; try done. Qed.

Lemma polls_quiet (evs : list Event) : Forall quiet evs → polls evs = [].
Proof. induction 1 as [|[] evs Hev _ IH]; try done. Qed.

Lemma snapshots_p3 (evs : list Event) :
  Forall p3_event evs → snapshots evs = [].
Proof.
  induction 1 as [|[] evs Hev _ IH]; try done.
  simpl. destruct Hev as (_ & _ & ->). done.
Qed.

Lemma polls_p3 (evs : list Event) : Forall p3_event evs → polls evs = [].
Proof. induction 1 as [|[] evs Hev _ IH]; try done. Qed.

Lemma sentUpdateOK_true (s : State W) :
  (sentUpdateOK s).1 = true →
  ∃ u, snapshot_of (ex s) u ∧ (sentUpdateOK s).2 = emit (EvUpdate u) s.
Proof.
  unfold sentUpdateOK, snapshot_of.
  destruct (Marshal (ex s)) as [serialized|err]; [|done]. simpl. eauto.
Qed.

Lemma shouldStop_trace (s : State W) :
  trace (shouldStop s).2 = trace s ++ [EvShutdownPoll (shouldStop s).1].
Proof. unfold shouldStop. by destruct (shutdownRequested (world s)). Qed.

Lemma iteration_shape (s : State W) :
  reaches_processT3 s →
  ∃ evs_fetch evs_t2 evs_t3 snap1 snap2,
    trace (after_poll2 s) =
      trace s ++ evs_fetch ++ evs_t2
        ++ [EvUpdate snap1; EvShutdownPoll false]
        ++ evs_t3 ++ [EvUpdate snap2; EvShutdownPoll false] ∧
    trace (after_fetchState s) = trace s ++ evs_fetch ∧
    trace (after_sendT2Messages s) = trace (after_fetchState s) ++ evs_t2 ∧
    trace (after_sendT3Messages s) = trace (after_poll1 s) ++ evs_t3 ∧
    Forall quiet evs_fetch ∧ Forall quiet evs_t2 ∧ Forall quiet evs_t3 ∧
    snapshot_of (ex (after_sendT2Messages s)) snap1 ∧
    snapshot_of (ex (after_sendT3Messages s)) snap2.
Proof.
  intros (_ & Hok1 & Hstop1 & Hok2 & Hstop2).
  destruct (fetchState_quiet s) as (evs_fetch & Ht1 & Hq1).
  destruct (sendT2Messages_quiet (after_fetchState s)) as (evs_t2 & Ht2 & Hq2).
  destruct (sentUpdateOK_true _ Hok1) as (snap1 & Hsnap1 & Hu1).
  pose proof (shouldStop_trace (after_update1 s)) as Ht4. rewrite Hstop1 in Ht4.
  destruct (sendT3Messages_quiet (after_poll1 s)) as (evs_t3 & Ht5 & Hq5).
  destruct (sentUpdateOK_true _ Hok2) as (snap2 & Hsnap2 & Hu2).
  pose proof (shouldStop_trace (after_update2 s)) as Ht7. rewrite Hstop2 in Ht7.
  exists evs_fetch, evs_t2, evs_t3, snap1, snap2.
  split; [|done].
  unfold after_poll2 at 1. rewrite Ht7.
  unfold after_update2 at 1. rewrite Hu2. simpl.
  unfold after_sendT3Messages at 1. rewrite Ht5.
  unfold after_poll1 at 1. rewrite Ht4.
  unfold after_update1 at 1. rewrite Hu1. simpl.
  unfold after_sendT2Messages at 1. rewrite Ht2.
  unfold after_fetchState at 1. rewrite Ht1.
  by rewrite <-!app_assoc.
Qed.


Lemma snapshots_app (t1 t2 : list Event) :
  snapshots (t1 ++ t2) = snapshots t1 ++ snapshots t2.
Proof. apply omap_app. Qed.

Lemma polls_app (t1 t2 : list Event) : polls (t1 ++ t2) = polls t1 ++ polls t2.
Proof. apply omap_app. Qed.

(** An iteration goes round again only when nothing has cut it short. *)
Lemma Run_iteration_continues (s s' : State W) :
  Run_iteration s = inr s' → reaches_processT3 s.
Proof.
  unfold reaches_processT3, after_update2, after_sendT3Messages,
    after_poll1, after_update1, after_sendT2Messages, after_fetchState,
    Run_iteration.
  destruct (fetchState s) as [[err|] s1]; simpl; [done|].
  destruct (sendT2Messages s1) as [b2 s2]. simpl.
  destruct (sentUpdateOK s2) as [[] s3]; simpl; [|done].
  destruct (shouldStop s3) as [[] s4]; simpl; [done|].
  destruct (sendT3Messages s4) as [b5 s5]. simpl.
  destruct (sentUpdateOK s5) as [[] s6]; simpl; [|done].
  destruct (shouldStop s6) as [[] s7]; simpl; [done|].
  by destruct (processT3Messages s7) as [[] s8].
Qed.

(** A poll that finds the shutdown channel closed ends the iteration. *)
Lemma Run_iteration_cancelled1 (s : State W) :
  (fetchState s).1 = None →
  (sentUpdateOK (after_sendT2Messages s)).1 = true →
  (shouldStop (after_update1 s)).1 = true →
  Run_iteration s = inl (emit (EvError (LogErr ErrShutdown)) (after_poll1 s)).
Proof.
  unfold after_poll1, after_update1, after_sendT2Messages, after_fetchState,
    Run_iteration.
  destruct (fetchState s) as [err s1]. simpl.
  destruct (sendT2Messages s1) as [b2 s2]. simpl.
  destruct (sentUpdateOK s2) as [ok3 s3]. simpl.
  destruct (shouldStop s3) as [stop4 s4]. simpl.
  by intros -> -> ->.
Qed.

Lemma Run_iteration_cancelled2 (s : State W) :
  (fetchState s).1 = None →
  (sentUpdateOK (after_sendT2Messages s)).1 = true →
  (shouldStop (after_update1 s)).1 = false →
  (sentUpdateOK (after_sendT3Messages s)).1 = true →
  (shouldStop (after_update2 s)).1 = true →
  Run_iteration s = inl (emit (EvError (LogErr ErrShutdown)) (after_poll2 s)).
Proof.
  unfold after_poll2, after_update2, after_sendT3Messages, after_poll1,
    after_update1, after_sendT2Messages, after_fetchState, Run_iteration.
  destruct (fetchState s) as [err s1]. simpl.
  destruct (sendT2Messages s1) as [b2 s2]. simpl.
  destruct (sentUpdateOK s2) as [ok3 s3]. simpl.
  destruct (shouldStop s3) as [stop4 s4]. simpl.
  destruct (sendT3Messages s4) as [b5 s5]. simpl.
  destruct (sentUpdateOK s5) as [ok6 s6]. simpl.
  destruct (shouldStop s6) as [stop7 s7]. simpl.
  by intros -> -> -> -> ->.
Qed.

(** The status stays as it is along an iteration. *)
Lemma after_poll1_status (s : State W) :
  status (ex (after_poll1 s)) = status (ex s).
Proof.
  unfold after_poll1, after_update1. rewrite shouldStop_ex, sentUpdateOK_ex.
  etrans; [apply (perform_status OpSendT2Messages)|].
  apply (perform_status OpFetchState).
Qed.

Lemma after_poll2_status (s : State W) :
  status (ex (after_poll2 s)) = status (ex s).
Proof.
  unfold after_poll2, after_update2. rewrite shouldStop_ex, sentUpdateOK_ex.
  etrans; [apply (perform_status OpSendT3Messages)|].
  apply after_poll1_status.
Qed.

(** [Run] in [t1MessageSentState], one iteration at a time: it returns,
    with the deferred log line, when the iteration leaves the loop, and
    goes on as [Run] does from the state the iteration ends in when the
    loop goes round. *)
Lemma Run_step (fuel : nat) (s : State W) :
  status (ex s) = t1MessageSentState →
  Run (S fuel) s
  = match Run_iteration s with
    | inl s' => Returned (emit (EvDebug LogRunHalted) s')
    | inr s' => Run fuel s'
    end.
Proof.
  intros Hst. unfold Run at 1, Run_switch.
  rewrite bool_decide_eq_false_2 by (by rewrite Hst).
  rewrite bool_decide_eq_true_2 by done. cbn [Run_loop].
  destruct (Run_iteration s) as [s'|s'] eqn:Hit; [done|].
  assert (status (ex s') = t1MessageSentState) as Hst'.
  { pose proof (Run_iteration_reaches s (Run_iteration_continues s s' Hit))
      as Hr.
    rewrite Hit in Hr.
    pose proof (processT3Messages_ex (after_poll2 s)) as He.
    destruct (processT3Messages (after_poll2 s)) as [[] s8]; simpl in *;
      [done|].
    injection Hr as ->. by rewrite He, after_poll2_status. }
  unfold Run, Run_switch.
  rewrite bool_decide_eq_false_2 by (by rewrite Hst').
  by rewrite bool_decide_eq_true_2.
Qed.

(** The two halves of an iteration, up to the poll that ends each. *)
Lemma first_half_shape (s : State W) (stop : bool) :
  (sentUpdateOK (after_sendT2Messages s)).1 = true →
  (shouldStop (after_update1 s)).1 = stop →
  ∃ evs_fetch evs_t2 snap1,
    trace (after_poll1 s)
      = trace s ++ evs_fetch ++ evs_t2
          ++ [EvUpdate snap1; EvShutdownPoll stop] ∧
    trace (after_fetchState s) = trace s ++ evs_fetch ∧
    trace (after_sendT2Messages s) = trace (after_fetchState s) ++ evs_t2 ∧
    Forall quiet evs_fetch ∧ Forall quiet evs_t2 ∧
    snapshot_of (ex (after_sendT2Messages s)) snap1.
Proof.
  intros Hok1 Hstop1.
  destruct (fetchState_quiet s) as (evs_fetch & Ht1 & Hq1).
  destruct (sendT2Messages_quiet (after_fetchState s)) as (evs_t2 & Ht2 & Hq2).
  destruct (sentUpdateOK_true _ Hok1) as (snap1 & Hsnap1 & Hu1).
  pose proof (shouldStop_trace (after_update1 s)) as Ht4. rewrite Hstop1 in Ht4.
  exists evs_fetch, evs_t2, snap1. split; [|done].
  unfold after_poll1 at 1. rewrite Ht4.
  unfold after_update1 at 1. rewrite Hu1. simpl.
  unfold after_sendT2Messages at 1. rewrite Ht2.
  unfold after_fetchState at 1. rewrite Ht1.
  by rewrite <-!app_assoc.
Qed.

Lemma second_half_shape (s : State W) (stop : bool) :
  (sentUpdateOK (after_sendT3Messages s)).1 = true →
  (shouldStop (after_update2 s)).1 = stop →
  ∃ evs_t3 snap2,
    trace (after_poll2 s)
      = trace (after_poll1 s) ++ evs_t3
          ++ [EvUpdate snap2; EvShutdownPoll stop] ∧
    trace (after_sendT3Messages s) = trace (after_poll1 s) ++ evs_t3 ∧
    Forall quiet evs_t3 ∧
    snapshot_of (ex (after_sendT3Messages s)) snap2.
Proof.
  intros Hok2 Hstop2.
  destruct (sendT3Messages_quiet (after_poll1 s)) as (evs_t3 & Ht5 & Hq5).
  destruct (sentUpdateOK_true _ Hok2) as (snap2 & Hsnap2 & Hu2).
  pose proof (shouldStop_trace (after_update2 s)) as Ht7. rewrite Hstop2 in Ht7.
  exists evs_t3, snap2. split; [|done].
  unfold after_poll2 at 1. rewrite Ht7.
  unfold after_update2 at 1. rewrite Hu2. simpl.
  unfold after_sendT3Messages at 1. rewrite Ht5.
  by rewrite <-!app_assoc.
Qed.

(** C6, as the code has it.  In [t1MessageSentState], an iteration of
    the loop of [Run] that is not cut short is: the events of
    [fetchState], directly followed by those of [sendT2Messages], then a
    snapshot of the state and a poll of the shutdown channel, then the
    events of [sendT3Messages], a second snapshot and a second poll,
    then the events of [processT3Messages]; that is the trace of the
    state in which [Run_iteration] ends, and [Run] returns from it or
    goes on from it, as [processT3Messages] says.  None of the four
    operations sends a snapshot or polls, so the iteration has two
    snapshots and two polls, none of them between [fetchState] and
    [sendT2Messages].  An iteration after which the loop goes round has
    not been cut short.  And a poll that finds the shutdown channel
    closed ends the iteration and [Run]: after the first snapshot or
    after the second one, [Run] logs the shutdown error and the
    deferred line and returns. *)
Theorem two_snapshots_two_polls (fuel : nat) (s : State W) :
  status (ex s) = t1MessageSentState →
  (reaches_processT3 s →
   ∃ evs_fetch evs_t2 evs_t3 evs_p3 snap1 snap2,
     let evs := evs_fetch ++ evs_t2
                  ++ [EvUpdate snap1; EvShutdownPoll false]
                  ++ evs_t3 ++ [EvUpdate snap2; EvShutdownPoll false]
                  ++ evs_p3 in
     let processed := (processT3Messages (after_poll2 s)).1 in
     let s' := (processT3Messages (after_poll2 s)).2 in
     Run_iteration s = (if processed then inl s' else inr s') ∧
     Run (S fuel) s
       = (if processed then Returned (emit (EvDebug LogRunHalted) s')
          else Run fuel s') ∧
     trace s' = trace s ++ evs ∧
     trace (after_fetchState s) = trace s ++ evs_fetch ∧
     trace (after_sendT2Messages s) = trace (after_fetchState s) ++ evs_t2 ∧
     trace (after_sendT3Messages s) = trace (after_poll1 s) ++ evs_t3 ∧
     Forall quiet evs_fetch ∧ Forall quiet evs_t2 ∧ Forall quiet evs_t3 ∧
     Forall p3_event evs_p3 ∧
     snapshot_of (ex (after_sendT2Messages s)) snap1 ∧
     snapshot_of (ex (after_sendT3Messages s)) snap2 ∧
     length (snapshots evs) = 2 ∧ length (polls evs) = 2) ∧
  (∀ s', Run_iteration s = inr s' → reaches_processT3 s) ∧
  ((fetchState s).1 = None →
   (sentUpdateOK (after_sendT2Messages s)).1 = true →
   (shouldStop (after_update1 s)).1 = true →
   ∃ evs_fetch evs_t2 snap1,
     let s' := emit (EvError (LogErr ErrShutdown)) (after_poll1 s) in
     Run_iteration s = inl s' ∧
     Run (S fuel) s = Returned (emit (EvDebug LogRunHalted) s') ∧
     trace s' = trace s ++ evs_fetch ++ evs_t2
                  ++ [EvUpdate snap1; EvShutdownPoll true;
                      EvError (LogErr ErrShutdown)] ∧
     Forall quiet evs_fetch ∧ Forall quiet evs_t2 ∧
     snapshot_of (ex (after_sendT2Messages s)) snap1) ∧
  ((fetchState s).1 = None →
   (sentUpdateOK (after_sendT2Messages s)).1 = true →
   (shouldStop (after_update1 s)).1 = false →
   (sentUpdateOK (after_sendT3Messages s)).1 = true →
   (shouldStop (after_update2 s)).1 = true →
   ∃ evs_fetch evs_t2 evs_t3 snap1 snap2,
     let s' := emit (EvError (LogErr ErrShutdown)) (after_poll2 s) in
     Run_iteration s = inl s' ∧
     Run (S fuel) s = Returned (emit (EvDebug LogRunHalted) s') ∧
     trace s' = trace s ++ evs_fetch ++ evs_t2
                  ++ [EvUpdate snap1; EvShutdownPoll false]
                  ++ evs_t3
                  ++ [EvUpdate snap2; EvShutdownPoll true;
                      EvError (LogErr ErrShutdown)] ∧
     Forall quiet evs_fetch ∧ Forall quiet evs_t2 ∧ Forall quiet evs_t3 ∧
     snapshot_of (ex (after_sendT2Messages s)) snap1 ∧
     snapshot_of (ex (after_sendT3Messages s)) snap2).
Proof.
  intros Hst. pose proof (Run_step fuel s Hst) as HRun.
  split; [|split; [|split]].
  - intros Hreach.
    pose proof (Run_iteration_reaches s Hreach) as Hit.
    destruct Hreach as (_ & Hok1 & Hstop1 & Hok2 & Hstop2).
    destruct (first_half_shape s false Hok1 Hstop1)
      as (evs_fetch & evs_t2 & snap1 & Ht1 & Hf & Ht2 & Hq1 & Hq2 & Hs1).
    destruct (second_half_shape s false Hok2 Hstop2)
      as (evs_t3 & snap2 & Ht3 & Ht3' & Hq3 & Hs2).
    destruct (processT3Messages_trace (after_poll2 s))
      as (evs_p3 & Htp & Hqp & _).
    exists evs_fetch, evs_t2, evs_t3, evs_p3, snap1, snap2. cbv zeta.
    split; [exact Hit|]. split.
    { rewrite HRun, Hit. by destruct (processT3Messages (after_poll2 s)).1. }
    split. { rewrite Htp, Ht3, Ht1. by rewrite <-!app_assoc. }
    do 9 (split; [done|]).
    destruct Hs1 as (b1 & _ & ->), Hs2 as (b2 & _ & ->).
    rewrite !snapshots_app, !polls_app.
    rewrite (snapshots_quiet evs_fetch), (snapshots_quiet evs_t2),
      (snapshots_quiet evs_t3), (snapshots_p3 evs_p3) by done.
    rewrite (polls_quiet evs_fetch), (polls_quiet evs_t2),
      (polls_quiet evs_t3), (polls_p3 evs_p3) by done.
    done.
  - apply Run_iteration_continues.
  - intros Hf Hok1 Hstop1.
    pose proof (Run_iteration_cancelled1 s Hf Hok1 Hstop1) as Hit.
    destruct (first_half_shape s true Hok1 Hstop1)
      as (evs_fetch & evs_t2 & snap1 & Ht1 & _ & _ & Hq1 & Hq2 & Hs1).
    exists evs_fetch, evs_t2, snap1. cbv zeta.
    split; [exact Hit|]. split; [by rewrite HRun, Hit|].
    split; [|done]. simpl. rewrite Ht1. by rewrite <-!app_assoc.
  - intros Hf Hok1 Hstop1 Hok2 Hstop2.
    pose proof (Run_iteration_cancelled2 s Hf Hok1 Hstop1 Hok2 Hstop2) as Hit.
    destruct (first_half_shape s false Hok1 Hstop1)
      as (evs_fetch & evs_t2 & snap1 & Ht1 & _ & _ & Hq1 & Hq2 & Hs1).
    destruct (second_half_shape s true Hok2 Hstop2)
      as (evs_t3 & snap2 & Ht3 & _ & Hq3 & Hs2).
    exists evs_fetch, evs_t2, evs_t3, snap1, snap2. cbv zeta.
    split; [exact Hit|]. split; [by rewrite HRun, Hit|].
    split; [|done]. simpl. rewrite Ht3, Ht1. by rewrite <-!app_assoc.
Qed.

(** C2, as the code has it.  Result-bearing updates come from
    [processT3Messages] only: the updates sent earlier in the iteration
    carry no result.  A pass that returns true has emitted nothing but
    result updates, at least one and at most one for each entry of
    [receivedT3s], and [Run] returns right after them: nothing follows
    on the update channel. *)
Theorem results_end_the_run (fuel : nat) (s : State W) :
  status (ex s) = t1MessageSentState →
  reaches_processT3 s →
  (processT3Messages (after_poll2 s)).1 = true →
  ∃ results,
    results ≠ [] ∧
    Forall result_bearing results ∧
    length results ≤ size (receivedT3s (ex (after_poll2 s))) ∧
    Forall (λ u, Result u = None)
      (updates (drop (length (trace s)) (trace (after_poll2 s)))) ∧
    trace (processT3Messages (after_poll2 s)).2
      = trace (after_poll2 s) ++ (EvUpdate <$> results) ∧
    Run (S fuel) s
      = Returned (emit (EvDebug LogRunHalted)
                    (processT3Messages (after_poll2 s)).2).
Proof.
  intros Hst Hreach Hp.
  destruct (processT3Messages_trace (after_poll2 s))
    as (evs & Ht & Hq & Hlen & Hres).
  destruct (Hres Hp) as [Hevs Hne].
  exists (updates evs). split; [|split; [|split; [|split; [|split]]]].
  - intros Hnil. rewrite Hnil in Hevs. done.
  - rewrite Hevs in Hq. clear -Hq.
    induction (updates evs) as [|u us IH]; [done|].
    inversion_clear Hq. constructor; auto.
  - done.
  - destruct (iteration_shape s Hreach)
      as (evs_fetch & evs_t2 & evs_t3 & snap1 & snap2 & Hsh & _ & _ & _
          & Hq1 & Hq2 & Hq3 & Hs1 & Hs2).
    rewrite Hsh, drop_app_length, !updates_app.
    rewrite (updates_quiet evs_fetch), (updates_quiet evs_t2),
      (updates_quiet evs_t3) by done. simpl.
    destruct Hs1 as (b1 & _ & ->), Hs2 as (b2 & _ & ->).
    by repeat constructor.
  - by rewrite <-Hevs.
  - unfold Run, Run_switch.
    rewrite bool_decide_eq_false_2 by (by rewrite Hst).
    rewrite bool_decide_eq_true_2 by done.
    simpl. rewrite (Run_iteration_reaches s Hreach), Hp. done.
Qed.


(** ** What a pass does with one peer's message *)

(** The database accepted a message. *)
Definition accepted (r : Res Command) : bool :=
  match r with
  | Ok (MessageResponse ErrorCode) => bool_decide (ErrorCode = ResponseStatusOK)
  | _ => false
  end.

(** C5, as the code has it.  When [sendT2Messages] answers a foreign T1
    that it has not answered before, it records the decoded alpha key
    under the T1 hash and the T2 under its own hash before it sends the
    T2, whatever becomes of the query; the entry of [repliedT1s] is
    added only when the database has answered the SendT2 with a
    [MessageResponse] of status OK. *)
Theorem sendT2_bookkeeping my t1Hash t1 hasSent (s : State W)
    alpha beta gamma t2 alphaPubKey :
  t1Hash ≠ my →
  repliedT1s (ex s) !! t1Hash = None →
  DecodeT1Message t1 = Ok (alpha, beta, gamma) →
  ProcessType1MessageAlpha (session (ex s)) alpha = Ok (t2, alphaPubKey) →
  let t2Cmd := SendT2 (Epoch (session (ex s))) my t1Hash t2 in
  let rawResponse := (Query (world s) t2Cmd).2 in
  let s' := flow_state (sendT2Messages_body my (t1Hash, t1) hasSent s) in
  sentT2Map (ex s') = <[sha256 t2 := t2]> (sentT2Map (ex s)) ∧
  receivedT1Alphas (ex s')
    = <[t1Hash := alphaPubKey]> (receivedT1Alphas (ex s)) ∧
  repliedT1s (ex s')
    = (if accepted rawResponse then <[t1Hash := t1]> (repliedT1s (ex s))
       else repliedT1s (ex s)) ∧
  EvQuery t2Cmd rawResponse ∈ trace s'.
Proof.
  intros Hne Hrep Hdec Halpha. cbv zeta. unfold sendT2Messages_body.
  rewrite bool_decide_eq_false_2 by done. rewrite Hrep, Hdec, Halpha.
  unfold query. simpl.
  destruct (Query (world s) _) as [w [[]|err]]; simpl;
    try case_bool_decide; simpl;
    try rewrite bool_decide_eq_true_2 by done;
    try rewrite bool_decide_eq_false_2 by done;
    repeat split; try done; set_solver.
Qed.

(** A missing alpha key.  When [sendT3Messages] comes to a T2 whose
    source has a T1 on file, that has not been answered, and for whose
    source no alpha key is stored, the pass ends there: it returns false
    without a log line, without a query and without touching the
    Exchange, and the entries after it are not visited in this pass. *)
Theorem missing_alpha_ends_pass my srcT1Hash t2 t1 rest hasSentT3
    (s : State W) :
  receivedT1s (ex s) !! srcT1Hash = Some t1 →
  repliedT2s (ex s) !! sha256 t2 = None →
  receivedT1Alphas (ex s) !! srcT1Hash = None →
  rangeLoop (sendT3Messages_body my) ((srcT1Hash, t2) :: rest) hasSentT3 s
    = Return false s ∧
  ((range (receivedT2s (ex s)) s).1 = (srcT1Hash, t2) :: rest →
   sendT3Messages s = (false, (range (receivedT2s (ex s)) s).2)).
Proof.
  intros Ht1 Hrep Halpha.
  assert (∀ my' acc (s' : State W), ex s' = ex s →
            rangeLoop (sendT3Messages_body my') ((srcT1Hash, t2) :: rest)
              acc s' = Return false s') as Hloop.
  { intros my' acc s' He. simpl. unfold sendT3Messages_body.
    by rewrite He, Ht1, Hrep, Halpha. }
  split; [by apply Hloop|].
  unfold sendT3Messages. cbv zeta.
  pose proof (range_ex (receivedT2s (ex s)) s) as He.
  destruct (range (receivedT2s (ex s)) s) as [entries s1]. simpl in He.
  cbn [fst snd]. intros ->. by rewrite (Hloop _ _ s1 He).
Qed.


(** What a cryptographic failure on one peer's message does, site by
    site.  Only a [DecryptT1Beta] failure in [sendT3Messages] skips
    that message and lets the pass go on with the remaining
    entries; a T1 that does not decode, or a failure of
    [ProcessType1MessageAlpha], [GetCandidateKey], [ComposeType3Message]
    or [ProcessType3Message], ends the pass there with result false, the
    remaining entries unvisited.  None of them ends the Exchange: [Run]
    leaves its loop only when [fetchState] fails, a snapshot cannot be
    marshalled, shutdown is requested, or [processT3Messages] returns
    true. *)
Theorem crypto_failure_effects :
  (∀ my t1Hash t1 rest hasSent (s : State W) err,
     t1Hash ≠ my →
     repliedT1s (ex s) !! t1Hash = None →
     (DecodeT1Message t1 = Err err ∨
      ∃ alpha beta gamma,
        DecodeT1Message t1 = Ok (alpha, beta, gamma) ∧
        ProcessType1MessageAlpha (session (ex s)) alpha = Err err) →
     rangeLoop (sendT2Messages_body my) ((t1Hash, t1) :: rest) hasSent s
       = Return false (emit (EvError (LogErr err)) s)) ∧
  (∀ my srcT1Hash t2 t1 alphaKey candidateKey alpha t1beta gamma rest
     hasSentT3 (s : State W) err,
     receivedT1s (ex s) !! srcT1Hash = Some t1 →
     repliedT2s (ex s) !! sha256 t2 = None →
     receivedT1Alphas (ex s) !! srcT1Hash = Some alphaKey →
     GetCandidateKey (session (ex s)) t2 alphaKey = Ok candidateKey →
     DecodeT1Message t1 = Ok (alpha, t1beta, gamma) →
     DecryptT1Beta candidateKey t1beta = Err err →
     rangeLoop (sendT3Messages_body my) ((srcT1Hash, t2) :: rest) hasSentT3 s
       = rangeLoop (sendT3Messages_body my) rest hasSentT3
           (emit (EvError (LogErr err)) s)) ∧
  (∀ my srcT1Hash t2 t1 alphaKey rest hasSentT3 (s : State W) err,
     receivedT1s (ex s) !! srcT1Hash = Some t1 →
     repliedT2s (ex s) !! sha256 t2 = None →
     receivedT1Alphas (ex s) !! srcT1Hash = Some alphaKey →
     (GetCandidateKey (session (ex s)) t2 alphaKey = Err err ∨
      ∃ candidateKey,
        GetCandidateKey (session (ex s)) t2 alphaKey = Ok candidateKey ∧
        (DecodeT1Message t1 = Err err ∨
         ∃ alpha t1beta gamma beta,
           DecodeT1Message t1 = Ok (alpha, t1beta, gamma) ∧
           DecryptT1Beta candidateKey t1beta = Ok beta ∧
           ComposeType3Message (session (ex s)) beta = Err err)) →
     rangeLoop (sendT3Messages_body my) ((srcT1Hash, t2) :: rest) hasSentT3 s
       = Return false (emit (EvError (LogErr err)) s)) ∧
  (∀ srcT1Hash t3 beta t1 rest processed (s : State W) err,
     decryptedT1Betas (ex s) !! srcT1Hash = Some beta →
     receivedT1s (ex s) !! srcT1Hash = Some t1 →
     (DecodeT1Message t1 = Err err ∨
      ∃ alpha t1beta gamma,
        DecodeT1Message t1 = Ok (alpha, t1beta, gamma) ∧
        ProcessType3Message (session (ex s)) t3 gamma beta = Err err) →
     ∃ s',
       rangeLoop processT3Messages_body ((srcT1Hash, t3) :: rest) processed s
         = Return false s' ∧
       ex s' = ex s ∧ updates (trace s') = updates (trace s)) ∧
  (∀ s s' : State W,
     Run_iteration s = inl s' →
     (fetchState s).1 ≠ None ∨
     (sentUpdateOK (after_sendT2Messages s)).1 = false ∨
     (shouldStop (after_update1 s)).1 = true ∨
     (sentUpdateOK (after_sendT3Messages s)).1 = false ∨
     (shouldStop (after_update2 s)).1 = true ∨
     (processT3Messages (after_poll2 s)).1 = true).
Proof.
  split; [|split; [|split; [|split]]].
  - intros my t1Hash t1 rest hasSent s err Hne Hrep Hfail.
    simpl. unfold sendT2Messages_body.
    rewrite bool_decide_eq_false_2 by done. rewrite Hrep.
    destruct Hfail as [->|(alpha & beta & gamma & -> & ->)]; done.
  - intros my srcT1Hash t2 t1 alphaKey candidateKey alpha t1beta gamma rest
      hasSentT3 s err Ht1 Hrep Halpha Hck Hdec Hbeta.
    simpl. unfold sendT3Messages_body at 1.
    by rewrite Ht1, Hrep, Halpha, Hck, Hdec, Hbeta.
  - intros my srcT1Hash t2 t1 alphaKey rest hasSentT3 s err Ht1 Hrep Halpha
      Hfail.
    simpl. unfold sendT3Messages_body. rewrite Ht1, Hrep, Halpha.
    destruct Hfail as [->|(candidateKey & -> & [->|Hfail])]; [done..|].
    destruct Hfail as (alpha & t1beta & gamma & beta & -> & -> & ->). done.
  - intros srcT1Hash t3 beta t1 rest processed s err Hbeta Ht1 Hfail.
    simpl. unfold processT3Messages_body. rewrite Hbeta, Ht1.
    destruct Hfail as [->|(alpha & t1beta & gamma & -> & ->)];
      eexists; (split; [done|]); simpl;
      by rewrite ?updates_app, ?app_nil_r.
  - apply Run_iteration_exits.
Qed.


(** ** Fatal failures *)

(** When [sendT1] fails, [Run] returns with what [sendT1] has logged and
    the deferred log line: nothing is sent on the update channel. *)
Lemma Run_sendT1_failure fuel (s : State W) :
  status (ex s) = initialState →
  (sendT1 s).1 = false →
  Run fuel s = Returned (emit (EvDebug LogRunHalted) (sendT1 s).2) ∧
  updates (trace (sendT1 s).2) = updates (trace s).
Proof.
  intros Hst Hfail. split.
  - unfold Run, Run_switch. rewrite bool_decide_eq_true_2 by done.
    destruct (sendT1 s) as [ok s1]. simpl in Hfail. by subst ok.
  - clear Hfail. unfold sendT1.
    destruct (GenerateType1Message _ _) as [t1 [err|]]; simpl.
    { by rewrite updates_app, app_nil_r. }
    destruct_query.
    destruct r as [[]|]; try case_bool_decide; simpl;
      rewrite ?updates_app, Ht, ?updates_app; simpl; by rewrite ?app_nil_r.
Qed.

(** When [fetchState] fails, [Run] logs the error and returns: nothing
    is sent on the update channel. *)
Lemma Run_fetchState_failure fuel (s : State W) err :
  status (ex s) = t1MessageSentState →
  (fetchState s).1 = Some err →
  Run (S fuel) s
    = Returned (emit (EvDebug LogRunHalted)
                  (emit (EvError (LogErr err)) (fetchState s).2)) ∧
  updates (trace (emit (EvDebug LogRunHalted)
                    (emit (EvError (LogErr err)) (fetchState s).2)))
    = updates (trace s).
Proof.
  intros Hst Hfail. split.
  - unfold Run, Run_switch.
    rewrite bool_decide_eq_false_2 by (by rewrite Hst).
    rewrite bool_decide_eq_true_2 by done. simpl. unfold Run_iteration.
    destruct (fetchState s) as [e s1]. simpl in Hfail. by subst e.
  - destruct (fetchState_quiet s) as (evs & Ht & Hq). simpl.
    rewrite Ht, !updates_app, (updates_quiet evs Hq). simpl.
    by rewrite !app_nil_r.
Qed.


End Properties.

(** * Snapshot round trip *)

Section SnapshotRoundTrip.
Context `{!ReunionLib} `{!Wire Session} `{!Wire PublicKey}.

#[local] Existing Instance snapshot_codec.

Lemma snapshot_codec_round_trip (state : serializableExchange) :
  ser_Unmarshal (put state) = Ok state.
Proof.
  unfold ser_Unmarshal, snapshot_codec.
  by rewrite <-(app_nil_r (put state)), get_put.
Qed.

(** C7.  Marshalling an Exchange succeeds, and unmarshalling the result
    into any Exchange succeeds and gives back each of the twelve
    persistent fields as it was ([same_persistent]: [contactID],
    [status], [session], [sentT1], [sentT2Map], [receivedT1s],
    [receivedT2s], [receivedT3s], [repliedT1s], [repliedT2s],
    [receivedT1Alphas], [decryptedT1Betas]); the payload of the
    receiver, which is not part of a snapshot, stays. *)
Theorem snapshot_round_trip (e e0 : Exchange) :
  ∃ data,
    Marshal e = Ok data ∧
    (Unmarshal e0 data).1 = None ∧
    same_persistent e (Unmarshal e0 data).2 ∧
    payload (Unmarshal e0 data).2 = payload e0.
Proof.
  eexists. split; [reflexivity|].
  unfold Unmarshal. rewrite snapshot_codec_round_trip. by repeat split.
Qed.

(** So an Exchange resumed from the snapshot of a reachable state is in
    a reachable state. *)
Lemma resumed_reachable {W} `{!Env W} (s : State W) (e0 : Exchange)
    (w : W) (t : list Event) (data : bytes) :
  reachable s →
  Marshal (ex s) = Ok data →
  reachable {| ex := (Unmarshal e0 data).2; world := w; trace := t |}.
Proof.
  intros Hs Hdata. apply (reach_resumed s); [done|].
  change (Marshal (ex s)) with (Ok (A := bytes) (put (
    {| ser_ContactID := contactID (ex s); ser_Status := status (ex s);
       ser_Session := session (ex s); ser_SentT1 := sentT1 (ex s);
       ser_SentT2Map := sentT2Map (ex s);
       ser_ReceivedT1s := receivedT1s (ex s);
       ser_ReceivedT2s := receivedT2s (ex s);
       ser_ReceivedT3s := receivedT3s (ex s);
       ser_RepliedT1s := repliedT1s (ex s);
       ser_RepliedT2s := repliedT2s (ex s);
       ser_ReceivedT1Alphas := receivedT1Alphas (ex s);
       ser_DecryptedT1Betas := decryptedT1Betas (ex s) |}))) in Hdata.
  apply (f_equal (λ r, match r with Ok l => l | Err _ => [] end)) in Hdata.
  subst data. unfold Unmarshal. rewrite snapshot_codec_round_trip. by repeat split.
Qed.

End SnapshotRoundTrip.

(** * The operations one by one *)

Section Operations.
Context `{!ReunionLib} `{!SnapshotCodec} {W : Type} `{!Env W}.

(** ** Loops with an accumulator *)

(** A property of the accumulator and the state that every pass through
    the body keeps holds when the loop runs to its end; [Q] is what a
    pass that returns establishes. *)
Lemma rangeLoop_flow_inv {A R} (P : bool → State W → Prop)
    (Q : R → State W → Prop) (body : A → bool → State W → Flow W R)
    (l : list A) (acc : bool) (s : State W) :
  (∀ x acc s, x ∈ l → P acc s →
     match body x acc s with
     | Continue acc' s' => P acc' s'
     | Return r s' => Q r s'
     end) →
  P acc s →
  match rangeLoop body l acc s with
  | Continue acc' s' => P acc' s'
  | Return r s' => Q r s'
  end.
Proof.
  revert acc s. induction l as [|x l IH]; intros acc s Hbody Hs; [done|].
  simpl. pose proof (Hbody x acc s (list_elem_of_here _ _) Hs) as Hx.
  destruct (body x acc s) as [acc' s'|r s']; [|done].
  apply IH; [|done]. intros y acc0 s0 Hy. apply Hbody. by constructor.
Qed.

(** ** processState as a merge *)

(** The messages [processState] gets to: those before the first one
    that carries neither payload. *)
Fixpoint accepted_messages (messages : list T2Message) : list T2Message :=
  match messages with
  | [] => []
  | m :: messages =>
      if invalidMessage m then [] else m :: accepted_messages messages
  end.

(** The T2s and the T3s among them, by source; a message that carries
    both payloads counts as a T2. *)
Definition t2_entries (messages : list T2Message)
    : list (ExchangeHash * bytes) :=
  omap (λ m, if bool_decide (0 < length (T2Payload m))
             then Some (SrcT1Hash m, T2Payload m) else None) messages.

Definition t3_entries (messages : list T2Message)
    : list (ExchangeHash * bytes) :=
  omap (λ m, if bool_decide (0 < length (T2Payload m)) then None
             else if bool_decide (0 < length (T3Payload m))
             then Some (SrcT1Hash m, T3Payload m) else None) messages.

(** What the board says is added to what the Exchange has; where both
    have an entry the Exchange's stays, and of two messages from one
    source the earlier one counts. *)
Definition merge_state (state : RequestedReunionState) (e : Exchange)
    : Exchange :=
  let messages := accepted_messages (Messages state) in
  set_receivedT3s (receivedT3s e ∪ list_to_map (t3_entries messages))
    (set_receivedT2s (receivedT2s e ∪ list_to_map (t2_entries messages))
       (set_receivedT1s (receivedT1s e ∪ T1Map state) e)).

Lemma insert_absent_union {V} (m : gmap ExchangeHash V) k v rest :
  m !! k = None → <[k := v]> m ∪ rest = m ∪ <[k := v]> rest.
Proof.
  intros Hk. rewrite !insert_union_singleton_l.
  rewrite (map_union_comm {[k := v]} m), (assoc_L (∪)); [done|].
  by apply map_disjoint_singleton_l_2.
Qed.

Lemma present_union {V} (m : gmap ExchangeHash V) k v rest :
  is_Some (m !! k) → m ∪ rest = m ∪ <[k := v]> rest.
Proof.
  intros [v' Hk]. apply map_eq. intros i. rewrite !lookup_union.
  destruct (decide (i = k)) as [->|Hne].
  - rewrite Hk, lookup_insert_eq. by destruct (rest !! k).
  - by rewrite lookup_insert_ne.
Qed.

Lemma set_received_id (e : Exchange) :
  set_receivedT3s (receivedT3s e)
    (set_receivedT2s (receivedT2s e) (set_receivedT1s (receivedT1s e) e)) = e.
Proof. by destruct e. Qed.

(** The first loop, in closed form. *)
Lemma processState_t1_merge entries hasNew (s : State W) :
  ex (flow_state (rangeLoop processState_t1 entries hasNew s))
  = set_receivedT1s (receivedT1s (ex s) ∪ list_to_map entries) (ex s).
Proof.
  revert hasNew s. induction entries as [|[k v] l IH]; intros hasNew s.
  - simpl. rewrite (right_id_L ∅ (∪)). by destruct (ex s).
  - simpl. destruct (receivedT1s (ex s) !! k) eqn:Hk; rewrite IH;
      unfold set_receivedT1s; simpl; f_equal.
    + by apply present_union.
    + by apply insert_absent_union.
Qed.

(** One pass through the body of the second loop. *)
Lemma processState_message_step m hasNew (s : State W) :
  match processState_message m hasNew s with
  | Continue _ s' =>
      invalidMessage m = false ∧
      ex s' = set_receivedT3s
                (receivedT3s (ex s) ∪ list_to_map (t3_entries [m]))
                (set_receivedT2s
                   (receivedT2s (ex s) ∪ list_to_map (t2_entries [m]))
                   (ex s))
  | Return _ s' => invalidMessage m = true ∧ s' = s
  end.
Proof.
  unfold processState_message, invalidMessage, t2_entries, t3_entries.
  simpl.
  destruct (T2Payload m) as [|b t2], (T3Payload m) as [|c t3]; simpl;
    repeat case_bool_decide; simpl in *; try lia; try naive_solver.
  all: destruct (_ !! SrcT1Hash m) eqn:Hk; simpl; (split; [done|]).
  all: first [rewrite <-present_union by done
             |rewrite <-insert_absent_union by done].
  all: rewrite !(right_id_L ∅ (∪)).
  all: by destruct s as [[] ? ?].
Qed.

(** The second loop, in closed form. *)
Lemma processState_message_merge messages hasNew (s : State W) :
  ex (flow_state (rangeLoop processState_message messages hasNew s))
  = set_receivedT3s
      (receivedT3s (ex s)
         ∪ list_to_map (t3_entries (accepted_messages messages)))
      (set_receivedT2s
         (receivedT2s (ex s)
            ∪ list_to_map (t2_entries (accepted_messages messages)))
         (ex s)).
Proof.
  revert hasNew s. induction messages as [|m l IH]; intros hasNew s.
  - simpl. rewrite !(right_id_L ∅ (∪)). by destruct (ex s).
  - cbn [rangeLoop accepted_messages].
    pose proof (processState_message_step m hasNew s) as Hm.
    destruct (processState_message m hasNew s) as [acc1 s1|r s1];
      destruct Hm as [-> Hs1].
    + rewrite IH, Hs1.
      change (m :: accepted_messages l) with ([m] ++ accepted_messages l).
      unfold t2_entries, t3_entries. rewrite !omap_app, !list_to_map_app.
      unfold set_receivedT3s, set_receivedT2s. simpl.
      by rewrite !(assoc_L (∪)).
    + subst s1. simpl. rewrite !(right_id_L ∅ (∪)). by destruct (ex s).
Qed.

(** [processState] in closed form. *)
Lemma processState_ex (state : RequestedReunionState) (s : State W) :
  ex (processState state s).2 = merge_state state (ex s).
Proof.
  unfold processState, merge_state. cbv zeta.
  pose proof (range_ex (T1Map state) s) as He.
  pose proof (mapRange_perm (world s) (T1Map state)) as Hp.
  unfold range in *. destruct (mapRange (world s) (T1Map state)) as [w l].
  simpl in He, Hp.
  set (s1 := set_world w s) in *.
  pose proof (processState_t1_merge l false s1) as H1.
  destruct (processState_t1_loop l false s1) as (acc1 & s2 & Hl).
  rewrite Hl in H1 |- *. simpl in H1.
  assert (list_to_map l = T1Map state) as Hm.
  { rewrite <-(list_to_map_to_list (T1Map state)).
    apply list_to_map_proper; [|done].
    rewrite Hp. apply NoDup_fst_map_to_list. }
  rewrite Hm in H1.
  pose proof (processState_message_merge (Messages state) acc1 s2) as H2.
  assert (ex (match rangeLoop processState_message (Messages state) acc1 s2
              with
              | Continue hasNew s3 => (hasNew, None, s3)
              | Return r s3 => (r, s3)
              end).2
          = ex (flow_state
                  (rangeLoop processState_message (Messages state) acc1 s2)))
    as -> by (by destruct (rangeLoop _ _ acc1 s2)).
  rewrite H2, H1. done.
Qed.

(** ** What hasNew says *)

Lemma grown_differs {V} (m0 m : gmap ExchangeHash V) k v :
  m0 ⊆ m → m !! k = None → <[k := v]> m ≠ m0.
Proof.
  intros Hsub Hk Heq.
  pose proof (lookup_weaken_None _ _ _ Hk Hsub) as Hk0.
  by rewrite <-Heq, lookup_insert_eq in Hk0.
Qed.

(** The three maps of received messages. *)
Definition received (s : State W) :=
  (receivedT1s (ex s), receivedT2s (ex s), receivedT3s (ex s)).

(** The accumulator of the loops of [processState] is true exactly when
    something has been stored since [s0]. *)
Definition hasNew_inv (s0 : State W) (hasNew : bool) (s : State W) : Prop :=
  received_grow s0 s ∧ (hasNew = true ↔ received s ≠ received s0).

Lemma processState_t1_hasNew (s0 : State W) entry hasNew (s : State W) :
  hasNew_inv s0 hasNew s →
  match processState_t1 entry hasNew s with
  | Continue hasNew' s' => hasNew_inv s0 hasNew' s'
  | Return _ _ => True
  end.
Proof.
  intros [Hg Hn]. destruct entry as [k v]. unfold processState_t1.
  destruct (receivedT1s (ex s) !! k) eqn:Hk; [done|].
  split.
  - eapply received_grow_trans; [done|].
    repeat split; simpl; [|done..]. by apply insert_subseteq.
  - split; [|done]. intros _. unfold received. simpl. intros Heq.
    destruct Hg as (Hg1 & _). injection Heq as Heq _ _.
    by eapply grown_differs.
Qed.

Lemma processState_message_hasNew (s0 : State W) m hasNew (s : State W) :
  hasNew_inv s0 hasNew s →
  match processState_message m hasNew s with
  | Continue hasNew' s' => hasNew_inv s0 hasNew' s'
  | Return _ _ => True
  end.
Proof.
  intros [Hg Hn]. unfold processState_message.
  repeat case_bool_decide; [| |done];
    (destruct (_ !! SrcT1Hash m) eqn:Hk; [done|]);
    (split;
     [eapply received_grow_trans; [done|];
      repeat split; simpl; try done; by apply insert_subseteq|]);
    (split; [|done]); intros _; unfold received; simpl; intros Heq;
    destruct Hg as (Hg1 & Hg2 & Hg3); injection Heq as Heq1 Heq2 Heq3;
    first [exact (grown_differs _ _ _ _ Hg2 Hk Heq2)
          |exact (grown_differs _ _ _ _ Hg3 Hk Heq3)].
Qed.

(** X2.  [processState] reports new material exactly when it has
    stored something and every message was valid: on the invalid-message
    error it reports false even when it has stored T1s or earlier
    messages, and otherwise the flag is true precisely when the Exchange
    is no longer what it was. *)
Theorem processState_hasNew (state : RequestedReunionState) (s : State W) :
  (processState state s).1.1 = true ↔
  existsb invalidMessage (Messages state) = false ∧
  ex (processState state s).2 ≠ ex s.
Proof.
  assert (ex (processState state s).2 ≠ ex s
          ↔ received (processState state s).2 ≠ received s) as ->.
  { split; intros Hne Heq; apply Hne; [|unfold received; by rewrite Heq].
    unfold received in Heq. rewrite processState_ex in *.
    unfold merge_state in *. simpl in Heq. injection Heq as -> -> ->.
    apply set_received_id. }
  unfold processState. cbv zeta.
  pose proof (range_ex (T1Map state) s) as He.
  destruct (range (T1Map state) s) as [entries s1]. simpl in He.
  assert (hasNew_inv s false s1) as H01.
  { unfold hasNew_inv, received_grow, received. rewrite He.
    repeat split; try done. }
  pose proof (rangeLoop_flow_inv (hasNew_inv s) (λ _ _, True) processState_t1
                entries false s1
                (λ x acc s' _, processState_t1_hasNew s x acc s') H01) as Hi1.
  destruct (processState_t1_loop entries false s1) as (acc1 & s2 & Hl).
  rewrite Hl in Hi1 |- *.
  pose proof (rangeLoop_flow_inv (hasNew_inv s) (λ _ _, True)
                processState_message (Messages state) acc1 s2
                (λ x acc s' _, processState_message_hasNew s x acc s') Hi1)
    as Hi2.
  pose proof (processState_message_loop (Messages state) acc1 s2) as Hm.
  destruct (existsb invalidMessage (Messages state)).
  - destruct Hm as (s3 & ->). simpl. split; [done|by intros [? _]].
  - destruct Hm as (acc3 & s3 & Hm). rewrite Hm in Hi2 |- *. simpl.
    destruct Hi2 as [_ ->]. split; [done|by intros [_ ?]].
Qed.

(** ** fetchState *)

Lemma processState_trace state (s : State W) :
  trace (processState state s).2 = trace s.
Proof.
  unfold processState. cbv zeta.
  pose proof (range_trace (T1Map state) s) as Ht.
  destruct (range (T1Map state) s) as [entries s1]. simpl in Ht.
  pose proof (rangeLoop_inv (λ s', trace s' = trace s) processState_t1
                entries false s1) as Hl1.
  pose proof (λ acc s2, rangeLoop_inv (λ s' : State W, trace s' = trace s)
                processState_message (Messages state) acc s2) as Hl2.
  assert (∀ x acc (s0 : State W),
            trace (flow_state (processState_t1 x acc s0)) = trace s0) as Hb1.
  { intros [k v] acc s0. unfold processState_t1.
    by destruct (receivedT1s (ex s0) !! k). }
  assert (∀ x acc (s0 : State W),
            trace (flow_state (processState_message x acc s0)) = trace s0)
    as Hb2.
  { intros m acc s0. unfold processState_message.
    by repeat case_bool_decide; repeat case_match. }
  destruct (rangeLoop processState_t1 entries false s1) as [acc1 s2|r s2];
    simpl in Hl1.
  - specialize (Hl2 acc1 s2).
    destruct (rangeLoop processState_message _ acc1 s2); simpl in *;
      apply Hl2; try (apply Hl1; try done);
      intros x acc0 s4 _ <-; auto.
  - apply Hl1; [|done]. intros x acc0 s4 _ <-. auto.
Qed.

(** X1.  [processState] merges and does nothing else: afterwards the
    Exchange is [merge_state state] of what it was, in every world and
    for every order in which [state.T1Map] is enumerated, whether the
    call ends with the invalid-message error or not, and nothing has
    been sent or logged.  The messages behind the first invalid one are
    not looked at, the T1s and the messages in front of it are stored
    although the call fails. *)
Theorem processState_merges (state : RequestedReunionState) (s : State W) :
  ex (processState state s).2 = merge_state state (ex s) ∧
  trace (processState state s).2 = trace s.
Proof. split; [apply processState_ex|apply processState_trace]. Qed.

(** The state a response of the database stands for, if [fetchState]
    accepts it: the response is a [StateResponse] with status OK whose
    payload decodes and that is not truncated. *)
Definition complete_state (r : Res Command) : option RequestedReunionState :=
  match r with
  | Ok (StateResponse ErrorCode Truncated Payload) =>
      if bool_decide (ErrorCode = ResponseStatusOK) && negb Truncated
      then res_val (RequestedReunionState_Unmarshal Payload)
      else None
  | _ => None
  end.

(** ** sendT1 *)

(** X3.  [fetchState] prints the session and sends one query, a
    FetchState for the epoch of the session and the hash of the own T1,
    whatever comes of it.  If the answer is a complete state, the state
    is merged into the Exchange and the only possible error is the
    invalid-message one, which leaves the part of the state in front of
    the invalid message merged; any other answer (a transport error,
    another command, a status other than OK, a payload that does not
    decode, a truncated state) is an error and leaves the Exchange as it
    was. *)
Theorem fetchState_effect (s : State W) :
  let cmd := FetchState (Epoch (session (ex s))) (sha256 (sentT1 (ex s))) in
  let r := (Query (world s) cmd).2 in
  trace (fetchState s).2 = trace s ++ [EvPrintSession; EvQuery cmd r] ∧
  match complete_state r with
  | Some state =>
      ex (fetchState s).2 = merge_state state (ex s) ∧
      (fetchState s).1 = (if existsb invalidMessage (Messages state)
                          then Some ErrInvalidMessage else None)
  | None => ex (fetchState s).2 = ex s ∧ is_Some (fetchState s).1
  end.
Proof.
  cbv zeta. unfold fetchState, query. simpl.
  destruct (Query (world s) _) as [w [[]|err]]; simpl;
    rewrite <-?app_assoc; try (by eauto).
  unfold ResponseStatusOK in *. case_bool_decide as Hc; simpl.
  { rewrite bool_decide_eq_false_2 by done. simpl.
    rewrite <-app_assoc. eauto. }
  rewrite bool_decide_eq_true_2 by (by destruct (decide (ErrorCode = 0%N))).
  destruct (RequestedReunionState_Unmarshal Payload) as [state|err];
    destruct Truncated; simpl; rewrite <-?app_assoc; try (by eauto).
  match goal with
  | |- context [processState state ?s0] =>
      pose proof (processState_ex state s0) as Hm;
      pose proof (processState_trace state s0) as Ht;
      pose proof (processState_error state s0) as He;
      destruct (processState state s0) as [[hasNew err] s']
  end.
  simpl in *. rewrite Hm, Ht, He. by rewrite <-?app_assoc.
Qed.

(** What [sendT1] writes, and what it emits. *)
Lemma sendT1_ex (s : State W) :
  ex (sendT1 s).2
  = set_sentT1 (GenerateType1Message (session (ex s)) (payload (ex s))).1
      (ex s).
Proof.
  unfold sendT1.
  destruct (GenerateType1Message _ _) as [t1 [err|]]; simpl; [done|].
  unfold query. simpl.
  by destruct (Query (world s) _) as [w [[]|err]]; simpl;
    try case_bool_decide.
Qed.

Definition sendT1_event (e : Exchange) (ev : Event) : Prop :=
  match ev with
  | EvQuery (SendT1 epoch t1) _ => epoch = Epoch (session e) ∧ t1 = sentT1 e
  | EvError _ => True
  | _ => False
  end.

Lemma sendT1_trace (s : State W) :
  ∃ evs, trace (sendT1 s).2 = trace s ++ evs ∧
         Forall (sendT1_event (ex (sendT1 s).2)) evs.
Proof.
  rewrite sendT1_ex. unfold sendT1.
  destruct (GenerateType1Message _ _) as [t1 [err|]]; simpl.
  { eexists [_]. split; [done|]. by apply Forall_singleton. }
  unfold query. simpl.
  destruct (Query (world s) _) as [w [[]|err]]; simpl;
    try case_bool_decide; simpl; rewrite <-?app_assoc;
    (eexists; split; [done|]);
    repeat (apply Forall_cons_2; [by simpl|]); apply Forall_nil_2.
Qed.

(** X4.  [sendT1] stores the generated T1 in [sentT1] first, also when
    the generation reports an error, and changes nothing else of the
    Exchange.  After a generation error nothing is sent.  Otherwise one
    SendT1 with the epoch of the session and that T1 is sent, and the
    result is true exactly when the database accepted it; if it did
    not, one line is logged. *)
Theorem sendT1_effect (s : State W) :
  let g := GenerateType1Message (session (ex s)) (payload (ex s)) in
  let cmd := SendT1 (Epoch (session (ex s))) g.1 in
  let r := (Query (world s) cmd).2 in
  ex (sendT1 s).2 = set_sentT1 g.1 (ex s) ∧
  match g.2 with
  | Some err =>
      sendT1 s = (false, emit (EvError (LogErr err)) (upd_ex (set_sentT1 g.1) s))
  | None =>
      (sendT1 s).1 = accepted r ∧
      ∃ log,
        trace (sendT1 s).2 = trace s ++ EvQuery cmd r :: log ∧
        if accepted r then log = [] else ∃ m, log = [EvError m]
  end.
Proof.
  cbv zeta. unfold sendT1.
  destruct (GenerateType1Message _ _) as [t1 [err|]]; simpl; [done|].
  unfold query. simpl.
  destruct (Query (world s) _) as [w [[]|err]]; simpl;
    try case_bool_decide; simpl;
    rewrite ?bool_decide_eq_true_2 by done;
    rewrite ?bool_decide_eq_false_2 by done;
    rewrite <-?app_assoc; (split; [done|]); (split; [done|]); eauto.
Qed.

(** ** sendT2Messages *)

(** The Exchange after [sendT2Messages] has made out a T2 for the T1
    with hash [t1Hash]: the alpha key and the T2 are on file. *)
Definition noted_T2 (t1Hash : ExchangeHash) (alphaPubKey : PublicKey)
    (t2 : bytes) (e : Exchange) : Exchange :=
  set_sentT2Map (<[sha256 t2 := t2]> (sentT2Map e))
    (set_receivedT1Alphas (<[t1Hash := alphaPubKey]> (receivedT1Alphas e)) e).

(** One pass through the body of the loop of [sendT2Messages], in full:
    what becomes of the accumulator, the Exchange and the trace. *)
Lemma sendT2Messages_body_effect my t1Hash t1 hasSent (s : State W) :
  match sendT2Messages_body my (t1Hash, t1) hasSent s with
  | Continue hasSent' s' =>
      hasSent' = hasSent ∧ s' = s ∧
        (t1Hash = my ∨ is_Some (repliedT1s (ex s) !! t1Hash)) ∨
      hasSent' = true ∧ t1Hash ≠ my ∧ repliedT1s (ex s) !! t1Hash = None ∧
        ∃ t2 alphaPubKey r,
          accepted r = true ∧
          ex s' = set_repliedT1s (<[t1Hash := t1]> (repliedT1s (ex s)))
                    (noted_T2 t1Hash alphaPubKey t2 (ex s)) ∧
          trace s' = trace s ++
            [EvQuery (SendT2 (Epoch (session (ex s))) my t1Hash t2) r]
  | Return b s' =>
      b = false ∧ t1Hash ≠ my ∧ repliedT1s (ex s) !! t1Hash = None ∧
      ((∃ m, ex s' = ex s ∧ trace s' = trace s ++ [EvError m]) ∨
       ∃ t2 alphaPubKey r m,
         accepted r = false ∧
         ex s' = noted_T2 t1Hash alphaPubKey t2 (ex s) ∧
         trace s' = trace s ++
           [EvQuery (SendT2 (Epoch (session (ex s))) my t1Hash t2) r;
            EvError m])
  end.
Proof.
  unfold sendT2Messages_body. case_bool_decide as Hmy; [by auto|].
  destruct (repliedT1s (ex s) !! t1Hash) eqn:Hrep.
  { left. do 2 (split; [done|]). right. by eexists. }
  destruct (DecodeT1Message t1) as [[[alpha ?] ?]|].
  2:{ do 3 (split; [done|]). left. by eexists. }
  destruct (ProcessType1MessageAlpha _ alpha) as [[t2 alphaPubKey]|].
  2:{ do 3 (split; [done|]). left. by eexists. }
  cbv zeta. unfold query. simpl.
  destruct (Query (world s) _) as [w r]. simpl.
  destruct r as [[]|]; try case_bool_decide; simpl;
    try (do 3 (split; [done|]); right;
         eexists t2, alphaPubKey, _, _; rewrite <-app_assoc;
         split; [|done]; simpl; by rewrite ?bool_decide_eq_false_2 by done).
  right. do 3 (split; [done|]). eexists t2, alphaPubKey, _.
  split; [|done]. simpl. by rewrite bool_decide_eq_true_2 by done.
Qed.

(** When the loop runs to its end, every entry it has visited is the
    own T1 or has been answered, now or earlier. *)
Lemma sendT2Messages_loop_complete my entries hasSent (s : State W)
    hasSent' s' :
  rangeLoop (sendT2Messages_body my) entries hasSent s
    = Continue hasSent' s' →
  ∀ k v, (k, v) ∈ entries → k = my ∨ is_Some (repliedT1s (ex s') !! k).
Proof.
  revert hasSent s. induction entries as [|[k0 v0] l IH]; intros hasSent s Hl.
  { intros k v Hin. by apply elem_of_nil in Hin. }
  cbn [rangeLoop] in Hl.
  pose proof (sendT2Messages_body_effect my k0 v0 hasSent s) as Hb.
  destruct (sendT2Messages_body my (k0, v0) hasSent s) as [acc1 s1|];
    [|done].
  assert (repliedT1s (ex s1) ⊆ repliedT1s (ex s')) as Hsub.
  { pose proof (rangeLoop_inv
      (λ s2 : State W, repliedT1s (ex s1) ⊆ repliedT1s (ex s2))
      (sendT2Messages_body my) l acc1 s1) as Hinv.
    rewrite Hl in Hinv. apply Hinv; [|done].
    intros [k v] acc s2 _ Hs2.
    destruct (sendT2Messages_body_frame my k v acc s2)
      as (_ & _ & _ & _ & [->|(_ & Hnone & ->)]); [done|].
    etrans; [done|]. by apply insert_subseteq. }
  intros k v [[= -> ->]|Hin]%elem_of_cons; [|by eapply IH].
  destruct Hb as [(_ & -> & [->|Hs])|(_ & _ & _ & t2 & a & r & _ & He & _)].
  - by left.
  - right. destruct Hs as [t Hs]. exists t.
    by eapply lookup_weaken.
  - right. exists v0. eapply lookup_weaken; [|done].
    rewrite He. simpl. apply lookup_insert_eq.
Qed.

(** The accumulator is true only if some pass has answered a T1 that
    was not answered in [s0]. *)
Definition hasSent_inv (s0 : State W) (hasSent : bool) (s : State W) : Prop :=
  repliedT1s (ex s0) ⊆ repliedT1s (ex s) ∧
  (hasSent = true →
   ∃ k, repliedT1s (ex s0) !! k = None ∧ is_Some (repliedT1s (ex s) !! k)).

Lemma sendT2Messages_loop_new my entries (s0 : State W) hasSent (s : State W) :
  hasSent_inv s0 hasSent s →
  match rangeLoop (sendT2Messages_body my) entries hasSent s with
  | Continue hasSent' s' => hasSent_inv s0 hasSent' s'
  | Return b _ => b = false
  end.
Proof.
  apply (rangeLoop_flow_inv (hasSent_inv s0) (λ b _, b = false)).
  intros [k v] acc s1 _ [Hsub Hnew].
  pose proof (sendT2Messages_body_effect my k v acc s1) as Hb.
  destruct (sendT2Messages_body my (k, v) acc s1) as [acc2 s2|];
    [|by destruct Hb].
  destruct Hb as [(-> & -> & _)|(_ & _ & Hnone & t2 & a & r & _ & He & _)];
    [done|].
  unfold hasSent_inv. rewrite He. simpl. split.
  - etrans; [done|]. by apply insert_subseteq.
  - intros _. exists k. rewrite lookup_insert_eq.
    split; [|done]. by eapply lookup_weaken_None.
Qed.

(** A pass that returns true has answered everything. *)
Lemma sendT2Messages_all_answered (s : State W) :
  (sendT2Messages s).1 = true →
  ∀ k, is_Some (receivedT1s (ex s) !! k) →
       k ≠ sha256 (sentT1 (ex s)) →
       is_Some (repliedT1s (ex (sendT2Messages s).2) !! k).
Proof.
  unfold sendT2Messages. cbv zeta.
  pose proof (mapRange_perm (world s) (receivedT1s (ex s))) as Hp.
  unfold range in *.
  destruct (mapRange (world s) (receivedT1s (ex s))) as [w entries].
  simpl in Hp. set (s1 := set_world w s) in *.
  pose proof (sendT2Messages_loop_complete (sha256 (sentT1 (ex s))) entries
                false s1) as Hall.
  pose proof (sendT2Messages_loop_new (sha256 (sentT1 (ex s))) entries s
                false s1) as Hnew.
  assert (hasSent_inv s false s1) as H01 by (by split).
  specialize (Hnew H01).
  destruct (rangeLoop _ entries false s1) as [acc s2|b s2] eqn:Hl; simpl;
    intros ->; [|done].
  intros k [v Hk] Hne.
  destruct (Hall true s2 eq_refl k v) as [?|?]; [|done..].
  rewrite Hp. by apply elem_of_map_to_list.
Qed.

(** The loop passes over entries that are the own T1 or answered. *)
Lemma sendT2Messages_loop_idle my entries hasSent (s : State W) :
  (∀ k v, (k, v) ∈ entries →
          k = my ∨ is_Some (repliedT1s (ex s) !! k)) →
  rangeLoop (sendT2Messages_body my) entries hasSent s = Continue hasSent s.
Proof.
  induction entries as [|[k v] l IH]; intros Hall; [done|].
  cbn [rangeLoop].
  assert (sendT2Messages_body my (k, v) hasSent s = Continue hasSent s) as ->.
  { unfold sendT2Messages_body.
    destruct (Hall k v) as [->|[t ->]]; [by left| |].
    - by rewrite bool_decide_eq_true_2.
    - by case_bool_decide. }
  apply IH. intros k' v' Hk'. apply (Hall k' v'). by right.
Qed.

(** X5.  [sendT2Messages] returns true only after a pass through all of
    [receivedT1s] in which no step failed: then every T1 on file other
    than the own one is in [repliedT1s], and at least one of them was
    not before.  (False is returned both when a step failed and when
    there was nothing to answer.) *)
Theorem sendT2Messages_true (s : State W) :
  (sendT2Messages s).1 = true →
  let s' := (sendT2Messages s).2 in
  (∀ k, is_Some (receivedT1s (ex s) !! k) →
        k ≠ sha256 (sentT1 (ex s)) →
        is_Some (repliedT1s (ex s') !! k)) ∧
  ∃ k, repliedT1s (ex s) !! k = None ∧ is_Some (repliedT1s (ex s') !! k).
Proof.
  intros Htrue s'. split; [by apply sendT2Messages_all_answered|].
  revert Htrue. unfold s', sendT2Messages. cbv zeta.
  pose proof (range_ex (receivedT1s (ex s)) s) as He.
  destruct (range (receivedT1s (ex s)) s) as [entries s1]. simpl in He.
  pose proof (sendT2Messages_loop_new (sha256 (sentT1 (ex s))) entries s
                false s1) as Hnew.
  assert (hasSent_inv s false s1) as H01 by (by split; [rewrite He|]).
  specialize (Hnew H01).
  destruct (rangeLoop _ entries false s1) as [acc s2|b s2]; simpl;
    intros ->; [|done].
  by apply Hnew.
Qed.

(** X6.  When every T1 on file is the own one or has been answered,
    [sendT2Messages] has nothing to do: it returns false without a
    query or a log line, and the Exchange is as it was. *)
Theorem sendT2Messages_idle (s : State W) :
  (∀ k, is_Some (receivedT1s (ex s) !! k) →
        k = sha256 (sentT1 (ex s)) ∨ is_Some (repliedT1s (ex s) !! k)) →
  sendT2Messages s = (false, (range (receivedT1s (ex s)) s).2).
Proof.
  intros Hall. unfold sendT2Messages. cbv zeta.
  pose proof (range_ex (receivedT1s (ex s)) s) as He.
  pose proof (range_elem_of (receivedT1s (ex s)) s) as Hin.
  destruct (range (receivedT1s (ex s)) s) as [entries s1]. simpl in *.
  rewrite sendT2Messages_loop_idle; [done|].
  intros k v Hkv. rewrite He. apply Hall. exists v. by apply Hin.
Qed.

(** X7.  So a pass of [sendT2Messages] that follows one that returned
    true sends nothing: it returns false and leaves the Exchange and
    the trace as they are. *)
Theorem sendT2Messages_again (s : State W) :
  (sendT2Messages s).1 = true →
  let s' := (sendT2Messages s).2 in
  (sendT2Messages s').1 = false ∧
  ex (sendT2Messages s').2 = ex s' ∧
  trace (sendT2Messages s').2 = trace s'.
Proof.
  intros Htrue s'.
  pose proof (sendT2Messages_all_answered s Htrue) as Hall.
  destruct (sendT2Messages_frame s) as (_ & Ht1 & Hrcv & _).
  fold s' in Hall, Ht1, Hrcv.
  unfold sendT2Messages at 1 2 3. cbv zeta.
  pose proof (range_ex (receivedT1s (ex s')) s') as He.
  pose proof (range_trace (receivedT1s (ex s')) s') as Ht.
  pose proof (range_elem_of (receivedT1s (ex s')) s') as Hin.
  destruct (range (receivedT1s (ex s')) s') as [entries s1]. simpl in *.
  rewrite sendT2Messages_loop_idle; [done|].
  intros k v Hkv. rewrite He, Ht1.
  destruct (decide (k = sha256 (sentT1 (ex s)))) as [?|Hne]; [by left|].
  right. apply Hall; [|done]. rewrite <-Hrcv. exists v. by apply Hin.
Qed.

(** ** sendT3Messages *)

(** The Exchange after [sendT3Messages] has answered the T2 [t2] of
    the peer with T1 hash [srcT1Hash]. *)
Definition noted_T3 (srcT1Hash : ExchangeHash) (beta : PublicKey)
    (t2 : bytes) (e : Exchange) : Exchange :=
  set_repliedT2s (<[sha256 t2 := t2]> (repliedT2s e))
    (set_decryptedT1Betas (<[srcT1Hash := beta]> (decryptedT1Betas e)) e).

(** One pass through the body of the loop of [sendT3Messages], in full. *)
Lemma sendT3Messages_body_effect my srcT1Hash t2 hasSentT3 (s : State W) :
  match sendT3Messages_body my (srcT1Hash, t2) hasSentT3 s with
  | Continue hasSentT3' s' =>
      hasSentT3' = hasSentT3 ∧ ex s' = ex s ∧
        (trace s' = trace s ∨ ∃ m, trace s' = trace s ++ [EvError m]) ∨
      hasSentT3' = true ∧
        ∃ t1 alphaKey beta t3 r,
          receivedT1s (ex s) !! srcT1Hash = Some t1 ∧
          repliedT2s (ex s) !! sha256 t2 = None ∧
          receivedT1Alphas (ex s) !! srcT1Hash = Some alphaKey ∧
          accepted r = true ∧
          ex s' = noted_T3 srcT1Hash beta t2 (ex s) ∧
          trace s' = trace s ++
            [EvQuery (SendT3 (Epoch (session (ex s))) my srcT1Hash t3) r]
  | Return b s' =>
      b = false ∧ ex s' = ex s ∧
      (trace s' = trace s ∨
       (∃ m, trace s' = trace s ++ [EvError m]) ∨
       ∃ t1 alphaKey (beta : PublicKey) t3 r m,
         receivedT1s (ex s) !! srcT1Hash = Some t1 ∧
         repliedT2s (ex s) !! sha256 t2 = None ∧
         receivedT1Alphas (ex s) !! srcT1Hash = Some alphaKey ∧
         accepted r = false ∧
         trace s' = trace s ++
           [EvQuery (SendT3 (Epoch (session (ex s))) my srcT1Hash t3) r;
            EvError m])
  end.
Proof.
  unfold sendT3Messages_body.
  destruct (receivedT1s (ex s) !! srcT1Hash) as [t1|].
  2:{ do 2 (split; [done|]). right. left. by eexists. }
  cbv zeta.
  destruct (repliedT2s (ex s) !! sha256 t2) eqn:Hrep; [by auto|].
  destruct (receivedT1Alphas (ex s) !! srcT1Hash) as [alphaKey|];
    [|by auto].
  destruct (GetCandidateKey _ t2 alphaKey) as [candidateKey|].
  2:{ do 2 (split; [done|]). right. left. by eexists. }
  destruct (DecodeT1Message t1) as [[[? t1beta] ?]|].
  2:{ do 2 (split; [done|]). right. left. by eexists. }
  destruct (DecryptT1Beta candidateKey t1beta) as [beta|].
  2:{ left. do 2 (split; [done|]). right. by eexists. }
  destruct (ComposeType3Message _ beta) as [t3|].
  2:{ do 2 (split; [done|]). right. left. by eexists. }
  unfold query. simpl.
  destruct (Query (world s) _) as [w r]. simpl.
  destruct r as [[]|]; try case_bool_decide; simpl;
    try (do 2 (split; [done|]); right; right;
         eexists t1, alphaKey, beta, t3, _, _; rewrite <-app_assoc;
         do 3 (split; [done|]);
         split; [|done]; simpl; by rewrite ?bool_decide_eq_false_2 by done).
  right. split; [done|]. eexists t1, alphaKey, beta, t3, _.
  do 3 (split; [done|]). split; [|done]. simpl.
  by rewrite bool_decide_eq_true_2 by done.
Qed.

(** X8.  When [sendT3Messages] has made out a T3 for a peer's T2, it
    sends it, and only when the database has accepted the SendT3 does it
    record anything: the beta key under the peer's T1 hash and the T2
    under its own hash, both or neither.  (Unlike [sendT2Messages],
    which records before it sends.) *)
Theorem sendT3_bookkeeping my srcT1Hash t2 hasSentT3 (s : State W)
    t1 alphaKey candidateKey alpha t1beta gamma beta t3 :
  receivedT1s (ex s) !! srcT1Hash = Some t1 →
  repliedT2s (ex s) !! sha256 t2 = None →
  receivedT1Alphas (ex s) !! srcT1Hash = Some alphaKey →
  GetCandidateKey (session (ex s)) t2 alphaKey = Ok candidateKey →
  DecodeT1Message t1 = Ok (alpha, t1beta, gamma) →
  DecryptT1Beta candidateKey t1beta = Ok beta →
  ComposeType3Message (session (ex s)) beta = Ok t3 →
  let sendT3Cmd := SendT3 (Epoch (session (ex s))) my srcT1Hash t3 in
  let rawResponse := (Query (world s) sendT3Cmd).2 in
  let f := sendT3Messages_body my (srcT1Hash, t2) hasSentT3 s in
  ex (flow_state f)
    = (if accepted rawResponse then noted_T3 srcT1Hash beta t2 (ex s)
       else ex s) ∧
  f = (if accepted rawResponse then Continue true (flow_state f)
       else Return false (flow_state f)) ∧
  ∃ log,
    trace (flow_state f) = trace s ++ EvQuery sendT3Cmd rawResponse :: log ∧
    if accepted rawResponse then log = [] else ∃ m, log = [EvError m].
Proof.
  intros Ht1 Hrep Halpha Hck Hdec Hbeta Ht3. cbv zeta.
  unfold sendT3Messages_body.
  rewrite Ht1, Hrep, Halpha, Hck, Hdec, Hbeta, Ht3.
  unfold query. simpl.
  destruct (Query (world s) _) as [w [[]|err]]; simpl;
    try case_bool_decide; simpl;
    rewrite ?bool_decide_eq_true_2 by done;
    rewrite ?bool_decide_eq_false_2 by done;
    rewrite <-?app_assoc; (split; [done|]); (split; [done|]); eauto.
Qed.

End Operations.

(** * The loop of the driver, action by action *)

Section Actions.
Context `{!ReunionLib} `{!SnapshotCodec} {W : Type} `{!Env W}.

(** Log lines and the session print. *)
Definition silent (ev : Event) : Prop :=
  match ev with
  | EvError _ | EvDebug _ | EvPrintSession => True
  | _ => False
  end.

(** An update with exactly one of its three parts. *)
Definition single_part (u : ReunionUpdate) : Prop :=
  is_Some (Error u) ∧ Serialized u = None ∧ Result u = None ∨
  Error u = None ∧ is_Some (Serialized u) ∧ Result u = None ∨
  Error u = None ∧ Serialized u = None ∧ is_Some (Result u).

(** A serialized snapshot is one of an Exchange of the same contact
    that is in [t1MessageSentState]. *)
Definition snapshot_ok (u : ReunionUpdate) : Prop :=
  ∀ data, Serialized u = Some data →
    ∃ e, status e = t1MessageSentState ∧ contactID e = ContactID u ∧
         Marshal e = Ok data.

(** What the operations of the loop do to the Exchange and the trace,
    one write or one emission at a time, with what the code has checked
    when it gets there.  The world is left out: it changes at will. *)
Inductive action (s s' : State W) : Prop :=
| act_idle :
    ex s' = ex s → trace s' = trace s → action s s'
| act_log ev :
    silent ev → ex s' = ex s → trace s' = trace s ++ [ev] → action s s'
| act_poll stop :
    ex s' = ex s → trace s' = trace s ++ [EvShutdownPoll stop] → action s s'
| act_update u :
    ContactID u = contactID (ex s) → single_part u → snapshot_ok u →
    ex s' = ex s → trace s' = trace s ++ [EvUpdate u] → action s s'
| act_fetch r :
    ex s' = ex s →
    trace s' = trace s ++
      [EvQuery (FetchState (Epoch (session (ex s))) (sha256 (sentT1 (ex s))))
         r] →
    action s s'
| act_receive state :
    ex s' = merge_state state (ex s) → trace s' = trace s → action s s'
| act_noteT2 t1Hash t1 alphaPubKey t2 :
    t1Hash ≠ sha256 (sentT1 (ex s)) →
    receivedT1s (ex s) !! t1Hash = Some t1 →
    repliedT1s (ex s) !! t1Hash = None →
    ex s' = noted_T2 t1Hash alphaPubKey t2 (ex s) → trace s' = trace s →
    action s s'
| act_sendT2 t1Hash t1 t2 r :
    t1Hash ≠ sha256 (sentT1 (ex s)) →
    receivedT1s (ex s) !! t1Hash = Some t1 →
    repliedT1s (ex s) !! t1Hash = None →
    is_Some (receivedT1Alphas (ex s) !! t1Hash) →
    sentT2Map (ex s) !! sha256 t2 = Some t2 →
    ex s' = (if accepted r
             then set_repliedT1s (<[t1Hash := t1]> (repliedT1s (ex s))) (ex s)
             else ex s) →
    trace s' = trace s ++
      [EvQuery (SendT2 (Epoch (session (ex s))) (sha256 (sentT1 (ex s)))
                  t1Hash t2) r] →
    action s s'
| act_sendT3 srcT1Hash t1 t2 alphaKey beta t3 r :
    receivedT1s (ex s) !! srcT1Hash = Some t1 →
    receivedT2s (ex s) !! srcT1Hash = Some t2 →
    repliedT2s (ex s) !! sha256 t2 = None →
    receivedT1Alphas (ex s) !! srcT1Hash = Some alphaKey →
    ex s' = (if accepted r then noted_T3 srcT1Hash beta t2 (ex s) else ex s) →
    trace s' = trace s ++
      [EvQuery (SendT3 (Epoch (session (ex s))) (sha256 (sentT1 (ex s)))
                  srcT1Hash t3) r] →
    action s s'.

(** A run of actions. *)
Definition actions : State W → State W → Prop := rtc action.

Lemma actions_refl (s : State W) : actions s s.
Proof. apply rtc_refl. Qed.

Lemma actions_trans (s1 s2 s3 : State W) :
  actions s1 s2 → actions s2 s3 → actions s1 s3.
Proof. intros. by etrans. Qed.

Lemma actions_step (s1 s2 s3 : State W) :
  actions s1 s2 → action s2 s3 → actions s1 s3.
Proof. intros. by eapply rtc_r. Qed.

Lemma actions_same (s s' : State W) :
  ex s' = ex s → trace s' = trace s → actions s s'.
Proof. intros. apply rtc_once. by apply act_idle. Qed.

Lemma actions_emit_silent ev (s s' : State W) :
  silent ev → actions s s' → actions s (emit ev s').
Proof. intros Hev Hs. eapply actions_step; [done|]. by eapply act_log. Qed.

(** ** What never changes in the loop *)

Definition same_identity (e e' : Exchange) : Prop :=
  contactID e' = contactID e ∧ session e' = session e ∧
  payload e' = payload e ∧ status e' = status e ∧ sentT1 e' = sentT1 e.

Lemma same_identity_refl e : same_identity e e.
Proof. by repeat split. Qed.

Lemma same_identity_trans e1 e2 e3 :
  same_identity e1 e2 → same_identity e2 e3 → same_identity e1 e3.
Proof. intros (?&?&?&?&?) (?&?&?&?&?). repeat split; by etrans. Qed.

Lemma action_identity (s s' : State W) :
  action s s' → same_identity (ex s) (ex s').
Proof.
  intros [| | | | | | | |]; unfold same_identity;
    repeat match goal with
           | Hex : ex s' = _ |- _ => rewrite Hex; clear Hex
           end;
    try destruct (accepted r); done.
Qed.

Lemma actions_identity (s s' : State W) :
  actions s s' → same_identity (ex s) (ex s').
Proof.
  induction 1 as [|s1 s2 s3 Ha _ IH]; [apply same_identity_refl|].
  eapply same_identity_trans; [|done]. by apply action_identity.
Qed.

Lemma actions_status (s s' : State W) :
  actions s s' → status (ex s') = status (ex s).
Proof. by intros (_ & _ & _ & ? & _)%actions_identity. Qed.

(** ** The operations as runs of actions *)

Lemma processState_actions state (s : State W) :
  actions s (processState state s).2.
Proof.
  apply rtc_once. eapply act_receive;
    [apply processState_ex|apply processState_trace].
Qed.

Lemma fetchState_actions (s : State W) : actions s (fetchState s).2.
Proof.
  unfold fetchState.
  set (s0 := emit EvPrintSession s).
  assert (actions s s0) as H00
    by (apply rtc_once; by apply (act_log s s0 EvPrintSession)).
  set (cmd := FetchState _ _).
  pose proof (query_ex cmd s0) as He. pose proof (query_trace cmd s0) as Ht.
  destruct (query cmd s0) as [r s1]. simpl in He, Ht.
  assert (actions s s1) as H01.
  { eapply actions_step; [done|]. by apply (act_fetch s0 s1 r). }
  destruct r as [[]|]; try done. case_bool_decide; [done|].
  destruct (RequestedReunionState_Unmarshal _) as [state|]; [|done].
  destruct Truncated; [done|].
  pose proof (processState_actions state s1) as Hp.
  destruct (processState state s1) as [[hasNew err] s2]. simpl in *.
  by eapply actions_trans.
Qed.

Lemma sendT2Messages_body_actions my t1Hash t1 hasSent (s : State W) :
  my = sha256 (sentT1 (ex s)) →
  receivedT1s (ex s) !! t1Hash = Some t1 →
  actions s (flow_state (sendT2Messages_body my (t1Hash, t1) hasSent s)).
Proof.
  intros -> Hrcv.
  pose proof (sendT2Messages_body_effect (sha256 (sentT1 (ex s))) t1Hash t1
                hasSent s) as Hb.
  destruct (sendT2Messages_body _ (t1Hash, t1) hasSent s) as [acc s'|b s'];
    simpl.
  - destruct Hb as [(_ & -> & _)
                   |(_ & Hne & Hrep & t2 & a & r & Hacc & He & Ht)];
      [apply actions_refl|].
    set (s1 := upd_ex (noted_T2 t1Hash a t2) s).
    eapply actions_step;
      [apply rtc_once; by eapply (act_noteT2 s s1 t1Hash t1 a t2)|].
    eapply (act_sendT2 s1 s' t1Hash t1 t2 r); simpl; try done.
    + by rewrite lookup_insert_eq.
    + by rewrite lookup_insert_eq.
    + by rewrite Hacc.
  - destruct Hb as (_ & Hne & Hrep & [(m & He & Ht)
                                     |(t2 & a & r & m & Hacc & He & Ht)]).
    { apply rtc_once. by eapply (act_log s s' (EvError m)). }
    set (s1 := upd_ex (noted_T2 t1Hash a t2) s).
    set (s2 := emit (EvQuery (SendT2 (Epoch (session (ex s)))
                                (sha256 (sentT1 (ex s))) t1Hash t2) r) s1).
    eapply actions_step;
      [eapply actions_step;
         [apply rtc_once; by eapply (act_noteT2 s s1 t1Hash t1 a t2)|]|].
    + eapply (act_sendT2 s1 s2 t1Hash t1 t2 r); simpl; try done.
      * by rewrite lookup_insert_eq.
      * by rewrite lookup_insert_eq.
      * by rewrite Hacc.
    + eapply (act_log s2 s' (EvError m)); simpl; try done.
      rewrite Ht. by rewrite <-app_assoc.
Qed.

Lemma sendT2Messages_actions (s : State W) : actions s (sendT2Messages s).2.
Proof.
  unfold sendT2Messages. cbv zeta.
  pose proof (range_ex (receivedT1s (ex s)) s) as He.
  pose proof (range_trace (receivedT1s (ex s)) s) as Ht.
  pose proof (range_elem_of (receivedT1s (ex s)) s) as Hin.
  destruct (range (receivedT1s (ex s)) s) as [entries s1]. simpl in He, Ht, Hin.
  set (P := λ s' : State W,
         actions s s' ∧ receivedT1s (ex s') = receivedT1s (ex s) ∧
         sentT1 (ex s') = sentT1 (ex s)).
  assert (P (flow_state (rangeLoop
               (sendT2Messages_body (sha256 (sentT1 (ex s)))) entries false
               s1))) as Hres.
  { apply rangeLoop_inv.
    - intros [k v] acc s2 Hkv (Ha & Hrcv & Ht1).
      destruct (sendT2Messages_body_frame (sha256 (sentT1 (ex s))) k v acc s2)
        as (_ & Ht1' & Hrcv' & _).
      split; [|split; congruence].
      eapply actions_trans; [done|].
      apply sendT2Messages_body_actions; [by rewrite Ht1|].
      rewrite Hrcv. by apply Hin.
    - split; [by apply actions_same|]. by rewrite He. }
  destruct Hres as [Hres _]. by destruct (rangeLoop _ entries false s1).
Qed.

Lemma sendT3Messages_body_actions my srcT1Hash t2 hasSentT3 (s : State W) :
  my = sha256 (sentT1 (ex s)) →
  receivedT2s (ex s) !! srcT1Hash = Some t2 →
  actions s (flow_state (sendT3Messages_body my (srcT1Hash, t2) hasSentT3 s)).
Proof.
  intros -> Hrcv.
  pose proof (sendT3Messages_body_effect (sha256 (sentT1 (ex s))) srcT1Hash t2
                hasSentT3 s) as Hb.
  destruct (sendT3Messages_body _ (srcT1Hash, t2) hasSentT3 s)
    as [acc s'|b s']; simpl.
  - destruct Hb as [(_ & He & [Ht|[m Ht]])
                   |(_ & t1 & a & beta & t3 & r & Ht1 & Hrep & Ha & Hacc
                     & He & Ht)].
    + by apply actions_same.
    + apply rtc_once. by eapply (act_log s s' (EvError m)).
    + apply rtc_once.
      eapply (act_sendT3 s s' srcT1Hash t1 t2 a beta t3 r); try done.
      by rewrite Hacc.
  - destruct Hb as (_ & He & [Ht|[[m Ht]
                   |(t1 & a & beta & t3 & r & m & Ht1 & Hrep & Ha & Hacc
                     & Ht)]]).
    + by apply actions_same.
    + apply rtc_once. by eapply (act_log s s' (EvError m)).
    + set (s1 := emit (EvQuery (SendT3 (Epoch (session (ex s)))
                                  (sha256 (sentT1 (ex s))) srcT1Hash t3) r) s).
      eapply actions_step; [apply rtc_once|].
      * eapply (act_sendT3 s s1 srcT1Hash t1 t2 a beta t3 r); try done.
        by rewrite Hacc.
      * eapply (act_log s1 s' (EvError m)); simpl; try done.
        rewrite Ht. by rewrite <-app_assoc.
Qed.

Lemma sendT3Messages_actions (s : State W) : actions s (sendT3Messages s).2.
Proof.
  unfold sendT3Messages. cbv zeta.
  pose proof (range_ex (receivedT2s (ex s)) s) as He.
  pose proof (range_trace (receivedT2s (ex s)) s) as Ht.
  pose proof (range_elem_of (receivedT2s (ex s)) s) as Hin.
  destruct (range (receivedT2s (ex s)) s) as [entries s1]. simpl in He, Ht, Hin.
  set (P := λ s' : State W,
         actions s s' ∧ receivedT2s (ex s') = receivedT2s (ex s) ∧
         sentT1 (ex s') = sentT1 (ex s)).
  assert (P (flow_state (rangeLoop
               (sendT3Messages_body (sha256 (sentT1 (ex s)))) entries false
               s1))) as Hres.
  { apply rangeLoop_inv.
    - intros [k v] acc s2 Hkv (Ha & Hrcv & Ht1).
      destruct (sendT3Messages_body_frame (sha256 (sentT1 (ex s))) k v acc s2)
        as (_ & Ht1' & _).
      pose proof (sendT3Messages_body_effect (sha256 (sentT1 (ex s))) k v acc
                    s2) as Hb.
      split; [|split; [|congruence]].
      + eapply actions_trans; [done|].
        apply sendT3Messages_body_actions; [by rewrite Ht1|].
        rewrite Hrcv. by apply Hin.
      + rewrite <-Hrcv.
        destruct (sendT3Messages_body _ (k, v) acc s2) as [acc' s'|b s'];
          simpl in *.
        * destruct Hb as [(_ & -> & _)|(_ & ? & ? & ? & ? & ? & _ & _ & _ & _
                                        & -> & _)]; done.
        * by destruct Hb as (_ & -> & _).
    - split; [by apply actions_same|]. by rewrite He. }
  destruct Hres as [Hres _]. by destruct (rangeLoop _ entries false s1).
Qed.

(** One pass through the body of the loop of [processT3Messages], in
    full. *)
Lemma processT3Messages_body_effect entry processed (s : State W) :
  match processT3Messages_body entry processed s with
  | Continue processed' s' =>
      processed' = processed ∧ s' = s ∨
      processed' = true ∧
        ∃ plaintext,
          s' = emit (EvUpdate {| ContactID := contactID (ex s);
                                 Error := None; Serialized := None;
                                 Result := Some plaintext |}) s
  | Return b s' =>
      b = false ∧
      ((∃ m, s' = emit (EvError m) s) ∨
       ∃ err, s' = emit (EvError (LogErr err))
                     (emit (EvDebug LogDecodeT1Failure) s))
  end.
Proof.
  destruct entry as [srcT1Hash t3]. unfold processT3Messages_body.
  destruct (decryptedT1Betas (ex s) !! srcT1Hash) as [beta|]; [|by left].
  destruct (receivedT1s (ex s) !! srcT1Hash) as [t1|]; [|by eauto].
  destruct (DecodeT1Message t1) as [[[? ?] gamma]|err]; [|by eauto].
  destruct (ProcessType3Message _ t3 gamma beta) as [plaintext|err];
    [|by eauto].
  right. eauto.
Qed.

Lemma processT3Messages_actions (s : State W) :
  actions s (processT3Messages s).2.
Proof.
  unfold processT3Messages. cbv zeta.
  pose proof (range_ex (receivedT3s (ex s)) s) as He.
  pose proof (range_trace (receivedT3s (ex s)) s) as Ht.
  destruct (range (receivedT3s (ex s)) s) as [entries s1]. simpl in He, Ht.
  assert (actions s (flow_state (rangeLoop processT3Messages_body entries
                                   false s1))) as Hres.
  { apply rangeLoop_inv; [|by apply actions_same].
    intros entry acc s2 _ Ha. eapply actions_trans; [done|].
    pose proof (processT3Messages_body_effect entry acc s2) as Hb.
    destruct (processT3Messages_body entry acc s2) as [acc' s'|b s']; simpl.
    - destruct Hb as [[_ ->]|(_ & plaintext & ->)]; [apply actions_refl|].
      apply rtc_once.
      eapply act_update; [| | | |simpl; reflexivity]; simpl; try done.
      right. right. by eauto.
    - destruct Hb as (_ & [(m & ->)|(err & ->)]).
      + by apply actions_emit_silent; [|apply actions_refl].
      + by do 2 (apply actions_emit_silent; [done|]); apply actions_refl. }
  by destruct (rangeLoop _ entries false s1).
Qed.

Lemma sentUpdateOK_actions (s : State W) :
  status (ex s) = t1MessageSentState → actions s (sentUpdateOK s).2.
Proof.
  intros Hst. unfold sentUpdateOK. apply rtc_once.
  destruct (Marshal (ex s)) as [serialized|err] eqn:Hm; simpl;
    (eapply act_update; [| | | |simpl; reflexivity]); simpl; try done.
  - right. left. by eauto.
  - intros data [= <-]. by exists (ex s).
  - left. by eauto.
Qed.

Lemma shouldStop_actions (s : State W) : actions s (shouldStop s).2.
Proof.
  unfold shouldStop. destruct (shutdownRequested (world s)) as [w stop].
  simpl. apply rtc_once. by eapply act_poll.
Qed.

Lemma perform_actions op (s : State W) : actions s (perform op s).
Proof.
  destruct op; simpl;
    auto using fetchState_actions, sendT2Messages_actions,
      sendT3Messages_actions, processT3Messages_actions.
Qed.

Lemma Run_iteration_actions (s : State W) :
  status (ex s) = t1MessageSentState →
  actions s match Run_iteration s with inl s' => s' | inr s' => s' end.
Proof.
  intros Hst. unfold Run_iteration.
  pose proof (fetchState_actions s) as H1.
  destruct (fetchState s) as [[err|] s1]; simpl in *.
  { by apply actions_emit_silent. }
  pose proof (sendT2Messages_actions s1) as H2.
  destruct (sendT2Messages s1) as [b2 s2]; simpl in *.
  assert (actions s s2) as H02 by (by eapply actions_trans).
  pose proof (sentUpdateOK_actions s2) as H3.
  destruct (sentUpdateOK s2) as [ok3 s3]; simpl in *.
  assert (actions s s3) as H03.
  { eapply actions_trans; [done|]. apply H3.
    by rewrite (actions_status _ _ H02). }
  destruct ok3; simpl; [|done].
  pose proof (shouldStop_actions s3) as H4.
  destruct (shouldStop s3) as [stop4 s4]; simpl in *.
  assert (actions s s4) as H04 by (by eapply actions_trans).
  destruct stop4; simpl; [by apply actions_emit_silent|].
  pose proof (sendT3Messages_actions s4) as H5.
  destruct (sendT3Messages s4) as [b5 s5]; simpl in *.
  assert (actions s s5) as H05 by (by eapply actions_trans).
  pose proof (sentUpdateOK_actions s5) as H6.
  destruct (sentUpdateOK s5) as [ok6 s6]; simpl in *.
  assert (actions s s6) as H06.
  { eapply actions_trans; [done|]. apply H6.
    by rewrite (actions_status _ _ H05). }
  destruct ok6; simpl; [|done].
  pose proof (shouldStop_actions s6) as H7.
  destruct (shouldStop s6) as [stop7 s7]; simpl in *.
  assert (actions s s7) as H07 by (by eapply actions_trans).
  destruct stop7; simpl; [by apply actions_emit_silent|].
  pose proof (processT3Messages_actions s7) as H8.
  destruct (processT3Messages s7) as [[] s8]; simpl in *;
    by eapply actions_trans.
Qed.

Lemma Run_loop_actions fuel (s : State W) :
  status (ex s) = t1MessageSentState →
  actions s (outcome_state (Run_loop fuel s)).
Proof.
  revert s. induction fuel as [|fuel IH]; intros s Hst; [apply actions_refl|].
  simpl. pose proof (Run_iteration_actions s Hst) as Hit.
  destruct (Run_iteration s) as [s'|s']; [done|].
  eapply actions_trans; [done|]. apply IH.
  by rewrite (actions_status _ _ Hit).
Qed.

(** [Run] in three parts: [sendT1] when the status is initial, the
    transition to [t1MessageSentState] when that succeeded, and then
    actions of the loop. *)
Definition after_sendT1 (s : State W) : State W :=
  if bool_decide (status (ex s) = initialState) then
    if (sendT1 s).1
    then upd_ex (set_status t1MessageSentState) (sendT1 s).2
    else (sendT1 s).2
  else s.

Lemma Run_actions fuel (s : State W) :
  actions (after_sendT1 s) (outcome_state (Run fuel s)).
Proof.
  assert (actions (after_sendT1 s) (outcome_state (Run_switch fuel s))) as Hsw.
  { unfold after_sendT1, Run_switch. case_bool_decide as Hini.
    - destruct (sendT1 s) as [[] s1]; simpl; [|apply actions_refl].
      set (s2 := upd_ex _ s1).
      pose proof (sentUpdateOK_actions s2 eq_refl) as H3.
      pose proof (sentUpdateOK_ex s2) as He3.
      destruct (sentUpdateOK s2) as [[] s3]; simpl in *; [|done].
      pose proof (shouldStop_actions s3) as H4.
      pose proof (shouldStop_ex s3) as He4.
      destruct (shouldStop s3) as [[] s4]; simpl in *.
      + apply actions_emit_silent; [done|]. by eapply actions_trans.
      + do 2 (eapply actions_trans; [done|]). apply Run_loop_actions.
        by rewrite He4, He3.
    - case_bool_decide; [by apply Run_loop_actions|].
      apply rtc_once.
      eapply act_update; [| | | |simpl; reflexivity]; simpl; try done.
      left. by eauto. }
  unfold Run. destruct (Run_switch fuel s); simpl in *; [|done].
  by apply actions_emit_silent.
Qed.

End Actions.

(** * Invariants of the driver *)

Section Invariants.
Context `{!ReunionLib} `{!SnapshotCodec} {W : Type} `{!Env W}.

Unset Default Proof Using.

(** ** How the maps of the Exchange hang together *)

Record consistent (e : Exchange) : Prop := {
  sent_keys : ∀ k t2, sentT2Map e !! k = Some t2 → k = sha256 t2;
  replied_keys : ∀ k t2, repliedT2s e !! k = Some t2 → k = sha256 t2;
  replied_alpha : ∀ k,
    is_Some (repliedT1s e !! k) → is_Some (receivedT1Alphas e !! k);
  alpha_received : ∀ k,
    is_Some (receivedT1Alphas e !! k) → is_Some (receivedT1s e !! k);
  alpha_foreign : receivedT1Alphas e !! sha256 (sentT1 e) = None;
  alpha_initial : status e = initialState → receivedT1Alphas e = ∅;
  beta_alpha : ∀ k,
    is_Some (decryptedT1Betas e !! k) → is_Some (receivedT1Alphas e !! k);
  beta_replied : ∀ k,
    is_Some (decryptedT1Betas e !! k) →
    ∃ t2, receivedT2s e !! k = Some t2 ∧
          repliedT2s e !! sha256 t2 = Some t2;
  replied_beta : ∀ k t2,
    repliedT2s e !! k = Some t2 →
    ∃ src, receivedT2s e !! src = Some t2 ∧
           is_Some (decryptedT1Betas e !! src);
}.

Lemma is_Some_union_l {V} (m m' : gmap ExchangeHash V) k :
  is_Some (m !! k) → is_Some ((m ∪ m') !! k).
Proof. intros [v Hk]. exists v. by apply lookup_union_Some_l. Qed.

Lemma consistent_merge state e :
  consistent e → consistent (merge_state state e).
Proof.
  intros [Hsk Hrk Hra Har Haf Hai Hba Hbr Hrb].
  split; simpl; try done.
  - intros k Hk. by apply is_Some_union_l, Har.
  - intros k Hk. destruct (Hbr k Hk) as (t2 & Ht2 & Hr). exists t2.
    split; [|done]. by apply lookup_union_Some_l.
  - intros k t2 Hk. destruct (Hrb k t2 Hk) as (src & Ht2 & Hb). exists src.
    split; [|done]. by apply lookup_union_Some_l.
Qed.

Lemma is_Some_insert_weaken {V} (m : gmap ExchangeHash V) k k' v :
  is_Some (m !! k) → is_Some (<[k' := v]> m !! k).
Proof.
  intros Hk. destruct (decide (k = k')) as [->|Hne].
  - rewrite lookup_insert_eq. by eexists.
  - by rewrite lookup_insert_ne.
Qed.

Lemma consistent_noted_T2 t1Hash t1 alphaPubKey t2 e :
  status e = t1MessageSentState →
  t1Hash ≠ sha256 (sentT1 e) →
  receivedT1s e !! t1Hash = Some t1 →
  consistent e → consistent (noted_T2 t1Hash alphaPubKey t2 e).
Proof.
  intros Hst Hne Hrcv [Hsk Hrk Hra Har Haf Hai Hba Hbr Hrb].
  split; simpl; try done.
  - intros k t Hk. destruct (decide (k = sha256 t2)) as [->|Hk'].
    + rewrite lookup_insert_eq in Hk. by simplify_eq.
    + rewrite lookup_insert_ne in Hk by done. by apply Hsk.
  - intros k Hk. by apply is_Some_insert_weaken, Hra.
  - intros k Hk. destruct (decide (k = t1Hash)) as [->|Hk'].
    + by eexists.
    + rewrite lookup_insert_ne in Hk by done. by apply Har.
  - by rewrite lookup_insert_ne.
  - intros Hini. by rewrite Hst in Hini.
  - intros k Hk. by apply is_Some_insert_weaken, Hba.
Qed.

Lemma consistent_repliedT1 t1Hash t1 e :
  is_Some (receivedT1Alphas e !! t1Hash) →
  consistent e →
  consistent (set_repliedT1s (<[t1Hash := t1]> (repliedT1s e)) e).
Proof.
  intros Ha [Hsk Hrk Hra Har Haf Hai Hba Hbr Hrb].
  split; simpl; try done.
  intros k Hk. destruct (decide (k = t1Hash)) as [->|Hk']; [done|].
  rewrite lookup_insert_ne in Hk by done. by apply Hra.
Qed.

Lemma consistent_noted_T3 srcT1Hash t2 beta e :
  receivedT2s e !! srcT1Hash = Some t2 →
  repliedT2s e !! sha256 t2 = None →
  is_Some (receivedT1Alphas e !! srcT1Hash) →
  consistent e → consistent (noted_T3 srcT1Hash beta t2 e).
Proof.
  intros Hrcv Hrep Ha [Hsk Hrk Hra Har Haf Hai Hba Hbr Hrb].
  split; simpl; try done.
  - intros k t Hk. destruct (decide (k = sha256 t2)) as [->|Hk'].
    + rewrite lookup_insert_eq in Hk. by simplify_eq.
    + rewrite lookup_insert_ne in Hk by done. by apply Hrk.
  - intros k Hk. destruct (decide (k = srcT1Hash)) as [->|Hk']; [done|].
    rewrite lookup_insert_ne in Hk by done. by apply Hba.
  - intros k Hk. destruct (decide (k = srcT1Hash)) as [->|Hk'].
    + exists t2. by rewrite lookup_insert_eq.
    + rewrite lookup_insert_ne in Hk by done.
      destruct (Hbr k Hk) as (t & Ht & Hr). exists t. split; [done|].
      rewrite lookup_insert_ne; [done|]. intros Heq.
      by rewrite Heq, Hr in Hrep.
  - intros k t Hk. destruct (decide (k = sha256 t2)) as [->|Hk'].
    + rewrite lookup_insert_eq in Hk. simplify_eq. exists srcT1Hash.
      split; [done|]. rewrite lookup_insert_eq. by eexists.
    + rewrite lookup_insert_ne in Hk by done.
      destruct (Hrb k t Hk) as (src & Ht & Hb). exists src.
      split; [done|]. by apply is_Some_insert_weaken.
Qed.

Lemma action_consistent (s s' : State W) :
  action s s' → status (ex s) = t1MessageSentState →
  consistent (ex s) → consistent (ex s').
Proof.
  intros [He _|ev _ He _|stop He _|u _ _ _ He _|r He _|state He _
         |k t1 a t2 Hne Hrcv Hrep He _
         |k t1 t2 r Hne Hrcv Hrep Ha Hs He _
         |src t1 t2 a beta t3 r Ht1 Ht2 Hrep Ha He _] Hst Hc;
    rewrite He; try done.
  - by apply consistent_merge.
  - by eapply consistent_noted_T2.
  - destruct (accepted r); [|done]. by apply consistent_repliedT1.
  - destruct (accepted r); [|done]. by apply consistent_noted_T3.
Qed.

Lemma actions_consistent (s s' : State W) :
  actions s s' → status (ex s) = t1MessageSentState →
  consistent (ex s) → consistent (ex s').
Proof.
  induction 1 as [|s1 s2 s3 Ha _ IH]; [done|]. intros Hst Hc.
  destruct (action_identity _ _ Ha) as (_ & _ & _ & Hst' & _).
  apply IH; [congruence|]. by eapply action_consistent.
Qed.

Lemma consistent_persistent e e' :
  same_persistent e e' → consistent e → consistent e'.
Proof.
  intros (_ & Hst & _ & Ht1 & Hs2 & Hr1 & Hr2 & Hr3 & Hp1 & Hp2 & Ha & Hb)
         [Hsk Hrk Hra Har Haf Hai Hba Hbr Hrb].
  split; rewrite ?Hst, ?Ht1, ?Hs2, ?Hr1, ?Hr2, ?Hr3, ?Hp1, ?Hp2, ?Ha, ?Hb;
    done.
Qed.

Lemma reachable_consistent (s : State W) : reachable s → consistent (ex s).
Proof.
  induction 1 as [payload cid pass srv epoch e w Hnew|s w t _ IH
                  |s e w t _ IH Hsame|s _ IH Hst|s _ IH Hst Hok|op s _ IH Hst].
  - unfold NewExchange in Hnew.
    destruct (NewSession pass srv epoch); simplify_eq.
    split; simpl; try done; intros k; rewrite ?lookup_empty;
      try (by intros [? ?]); done.
  - done.
  - by eapply consistent_persistent.
  - rewrite sendT1_ex.
    destruct IH as [Hsk Hrk Hra Har Haf Hai Hba Hbr Hrb].
    split; simpl; try done. by rewrite Hai.
  - simpl. rewrite sendT1_ex.
    destruct IH as [Hsk Hrk Hra Har Haf Hai Hba Hbr Hrb].
    split; simpl; try done. by rewrite Hai.
  - by eapply actions_consistent; [apply perform_actions|..].
Qed.

(** X9.  In every reachable state the keys of [sentT2Map] and of
    [repliedT2s] are the SHA-256 hashes of the T2s stored under them. *)
Theorem reachable_hash_keys (s : State W) :
  reachable s →
  (∀ k t2, sentT2Map (ex s) !! k = Some t2 → k = sha256 t2) ∧
  (∀ k t2, repliedT2s (ex s) !! k = Some t2 → k = sha256 t2).
Proof. intros [Hsk Hrk _ _ _ _ _ _ _]%reachable_consistent. by split. Qed.

(** X10.  In every reachable state no alpha key is on file for the own
    T1, a peer whose T1 has been answered has its alpha key on file,
    and alpha keys are on file only for peers whose T1 is on file.  In
    the initial state no alpha key is on file at all. *)
Theorem reachable_alpha_keys (s : State W) :
  reachable s →
  receivedT1Alphas (ex s) !! sha256 (sentT1 (ex s)) = None ∧
  (∀ k, is_Some (repliedT1s (ex s) !! k) →
        is_Some (receivedT1Alphas (ex s) !! k)) ∧
  (∀ k, is_Some (receivedT1Alphas (ex s) !! k) →
        is_Some (receivedT1s (ex s) !! k)) ∧
  (status (ex s) = initialState → receivedT1Alphas (ex s) = ∅).
Proof. intros [_ _ Hra Har Haf Hai _ _ _]%reachable_consistent. done. Qed.

(** X11.  In every reachable state a beta key is on file only for a
    peer whose alpha key is on file and whose T2 is on file and marked
    as answered in [repliedT2s]; and every entry of [repliedT2s] is the
    T2 of a peer whose beta key is on file. *)
Theorem reachable_beta_keys (s : State W) :
  reachable s →
  (∀ k, is_Some (decryptedT1Betas (ex s) !! k) →
        is_Some (receivedT1Alphas (ex s) !! k) ∧
        ∃ t2, receivedT2s (ex s) !! k = Some t2 ∧
              repliedT2s (ex s) !! sha256 t2 = Some t2) ∧
  (∀ k t2, repliedT2s (ex s) !! k = Some t2 →
           ∃ src, receivedT2s (ex s) !! src = Some t2 ∧
                  is_Some (decryptedT1Betas (ex s) !! src)).
Proof.
  intros [_ _ _ _ _ _ Hba Hbr Hrb]%reachable_consistent.
  split; [|done]. intros k Hk. split; [by apply Hba|by apply Hbr].
Qed.

(** ** What is emitted *)

(** An update carries the contact of the Exchange and exactly one of
    an error, a snapshot and a result. *)
Definition update_ok (e : Exchange) (ev : Event) : Prop :=
  match ev with
  | EvUpdate u => ContactID u = contactID e ∧ single_part u
  | _ => True
  end.

(** A query is one of the four requests, for the epoch of the session;
    a SendT1 carries the own T1, the others name its hash as their
    source, and a T2 or T3 is never addressed to the own T1. *)
Definition command_ok (e : Exchange) (ev : Event) : Prop :=
  match ev with
  | EvQuery (FetchState epoch t1Hash) _ =>
      epoch = Epoch (session e) ∧ t1Hash = sha256 (sentT1 e)
  | EvQuery (SendT1 epoch t1) _ =>
      epoch = Epoch (session e) ∧ t1 = sentT1 e
  | EvQuery (SendT2 epoch src dst _) _
  | EvQuery (SendT3 epoch src dst _) _ =>
      epoch = Epoch (session e) ∧ src = sha256 (sentT1 e) ∧ dst ≠ src
  | EvQuery _ _ => False
  | _ => True
  end.

Lemma update_ok_identity e e' ev :
  same_identity e e' → update_ok e ev ↔ update_ok e' ev.
Proof. intros (Hc & _). destruct ev; simpl; by rewrite ?Hc. Qed.

Lemma command_ok_identity e e' ev :
  same_identity e e' → command_ok e ev ↔ command_ok e' ev.
Proof.
  intros (_ & Hs & _ & _ & Ht). destruct ev as [| | | |[] ?|]; simpl;
    by rewrite ?Hs, ?Ht.
Qed.

Lemma action_events (s s' : State W) :
  action s s' →
  ∃ evs, trace s' = trace s ++ evs ∧
         Forall (update_ok (ex s)) evs ∧
         (receivedT1Alphas (ex s) !! sha256 (sentT1 (ex s)) = None →
          Forall (command_ok (ex s)) evs).
Proof.
  intros [_ Ht|ev Hev _ Ht|stop _ Ht|u Hc Hu Hsn _ Ht|r _ Ht|state _ Ht
         |k t1 a t2 _ _ _ _ Ht
         |k t1 t2 r Hne _ _ _ _ _ Ht
         |src t1 t2 a beta t3 r _ _ _ Ha _ Ht];
    rewrite Ht; try (exists []; by rewrite app_nil_r);
    eexists [_]; (split; [done|]); rewrite !Forall_singleton; simpl;
    (split; [try done|intros Hown; try done]);
    try (by destruct ev).
  do 2 (split; [done|]). intros ->. by rewrite Hown in Ha.
Qed.

Lemma actions_updates (s s' : State W) :
  actions s s' →
  ∃ evs, trace s' = trace s ++ evs ∧ Forall (update_ok (ex s)) evs.
Proof.
  induction 1 as [s|s1 s2 s3 Ha _ (evs & Ht & Hu)].
  { exists []. by rewrite app_nil_r. }
  destruct (action_events _ _ Ha) as (evs1 & Ht1 & Hu1 & _).
  exists (evs1 ++ evs). rewrite Ht, Ht1, app_assoc. split; [done|].
  apply Forall_app. split; [done|].
  eapply Forall_impl; [done|]. intros ev.
  by apply update_ok_identity, action_identity.
Qed.

Lemma actions_commands (s s' : State W) :
  actions s s' → status (ex s) = t1MessageSentState → consistent (ex s) →
  ∃ evs, trace s' = trace s ++ evs ∧ Forall (command_ok (ex s)) evs.
Proof.
  induction 1 as [s|s1 s2 s3 Ha _ IH]; intros Hst Hc.
  { exists []. by rewrite app_nil_r. }
  destruct (action_events _ _ Ha) as (evs1 & Ht1 & _ & Hc1).
  pose proof (action_identity _ _ Ha) as Hid.
  destruct IH as (evs & Ht & Hcmd).
  { destruct Hid as (_ & _ & _ & -> & _). done. }
  { by eapply action_consistent. }
  exists (evs1 ++ evs). rewrite Ht, Ht1, app_assoc. split; [done|].
  apply Forall_app. split; [apply Hc1, Hc|].
  eapply Forall_impl; [done|]. intros ev. by apply command_ok_identity.
Qed.

(** What [sendT1] and the transition that follows it write and emit. *)
Lemma after_sendT1_effect (s : State W) :
  (∃ t1 st, ex (after_sendT1 s)
            = set_status st (set_sentT1 t1 (ex s)) ∧
            (status (ex s) ≠ initialState →
             st = status (ex s) ∧ t1 = sentT1 (ex s))) ∧
  ∃ evs, trace (after_sendT1 s) = trace s ++ evs ∧
         Forall (sendT1_event (ex (after_sendT1 s))) evs.
Proof.
  unfold after_sendT1. case_bool_decide as Hini.
  2:{ split.
      - exists (sentT1 (ex s)), (status (ex s)). split; [|done].
        by destruct (ex s).
      - exists []. by rewrite app_nil_r. }
  pose proof (sendT1_ex s) as He.
  destruct (sendT1_trace s) as (evs & Ht & Hevs).
  set (t1 := (GenerateType1Message _ _).1) in He.
  destruct (sendT1 s) as [[] s1]; simpl in *.
  - split; [by exists t1, t1MessageSentState; rewrite He|].
    exists evs. split; [done|].
    eapply Forall_impl; [done|]. by intros [| | | |[]|].
  - split; [|by exists evs].
    exists t1, (status (ex s)). rewrite He. split; [|done].
    by destruct (ex s).
Qed.

(** X12.  Every update [Run] sends carries the contact of the Exchange
    and exactly one of an error, a serialized snapshot and a result, in
    whatever state and world [Run] is started. *)
Theorem Run_updates_single_part (fuel : nat) (s : State W) :
  ∃ evs,
    trace (outcome_state (Run fuel s)) = trace s ++ evs ∧
    Forall (update_ok (ex s)) evs.
Proof.
  destruct (after_sendT1_effect s) as [(t1 & st & He & _) (evs0 & Ht0 & Hq0)].
  destruct (actions_updates _ _ (Run_actions fuel s)) as (evs & Ht & Hu).
  exists (evs0 ++ evs). rewrite Ht, Ht0, app_assoc. split; [done|].
  apply Forall_app. split.
  - eapply Forall_impl; [done|]. by intros [| | | |[]|].
  - eapply Forall_impl; [done|]. intros ev. rewrite He.
    by destruct ev.
Qed.

(** X13.  Every query [Run] sends from a reachable state is a
    FetchState, SendT1, SendT2 or SendT3 for the epoch of the session; a
    SendT1 carries the T1 the Exchange has in [sentT1], the others name
    the hash of that T1 as their source, and no SendT2 or SendT3 is
    addressed to the own T1. *)
Theorem Run_commands_own (fuel : nat) (s : State W) :
  reachable s →
  ∃ evs,
    trace (outcome_state (Run fuel s)) = trace s ++ evs ∧
    Forall (command_ok (ex (outcome_state (Run fuel s)))) evs.
Proof.
  intros Hs.
  destruct (after_sendT1_effect s) as [_ (evs0 & Ht0 & Hq0)].
  pose proof (Run_actions fuel s) as Hrun.
  pose proof (actions_identity _ _ Hrun) as Hid.
  assert (∃ evs, trace (outcome_state (Run fuel s))
                 = trace (after_sendT1 s) ++ evs ∧
                 Forall (command_ok (ex (after_sendT1 s))) evs)
    as (evs & Ht & Hc).
  { destruct (reachable_no_self_reply s Hs) as [[Hini _]|[Hsent _]].
    - destruct (sendT1 s) as [ok s1] eqn:Hs1. destruct ok.
      + apply actions_commands; [done|..].
        * unfold after_sendT1. rewrite bool_decide_eq_true_2 by done.
          by rewrite Hs1.
        * apply reachable_consistent. unfold after_sendT1.
          rewrite bool_decide_eq_true_2 by done.
          pose proof (reach_t1MessageSent s Hs Hini) as Hr.
          rewrite Hs1 in Hr |- *. by apply Hr.
      + destruct (Run_sendT1_failure fuel s Hini) as [-> _];
          [by rewrite Hs1|].
        unfold after_sendT1. rewrite bool_decide_eq_true_2 by done.
        rewrite Hs1. simpl. eexists [_]. split; [done|].
        by repeat constructor.
    - apply actions_commands; [done|..];
        unfold after_sendT1;
        rewrite bool_decide_eq_false_2 by (by rewrite Hsent); [done|].
      by apply reachable_consistent. }
  exists (evs0 ++ evs). rewrite Ht, Ht0, app_assoc. split; [done|].
  apply Forall_app. split.
  - eapply Forall_impl; [done|]. intros ev Hev.
    apply (command_ok_identity _ _ ev Hid). by destruct ev as [| | | |[] ?|].
  - eapply Forall_impl; [done|]. intros ev Hev.
    by apply (command_ok_identity _ _ ev Hid).
Qed.

(** X14.  [Run] never changes the contact, the session or the payload
    of the Exchange; the status stays as it is or goes from initial to
    [t1MessageSentState]; and unless [Run] starts in the initial state,
    [sentT1] stays as it is. *)
Theorem Run_identity (fuel : nat) (s : State W) :
  let e' := ex (outcome_state (Run fuel s)) in
  contactID e' = contactID (ex s) ∧
  session e' = session (ex s) ∧
  payload e' = payload (ex s) ∧
  (status e' = status (ex s) ∨
   status (ex s) = initialState ∧ status e' = t1MessageSentState) ∧
  (status (ex s) = initialState ∨ sentT1 e' = sentT1 (ex s)).
Proof.
  cbv zeta.
  destruct (actions_identity _ _ (Run_actions fuel s))
    as (-> & -> & -> & -> & ->).
  destruct (after_sendT1_effect s) as [(t1 & st & He & Hst) _].
  unfold after_sendT1 in *. case_bool_decide as Hini.
  - pose proof (sendT1_ex s) as He1.
    destruct (sendT1 s) as [[] s1]; simpl in *; rewrite He1; simpl; auto 10.
  - auto 10.
Qed.

(** ** The status *)

(** Nothing has been received, answered or decoded. *)
Definition nothing_on_file (e : Exchange) : Prop :=
  sentT2Map e = ∅ ∧ repliedT1s e = ∅ ∧ repliedT2s e = ∅ ∧
  receivedT1s e = ∅ ∧ receivedT2s e = ∅ ∧ receivedT3s e = ∅ ∧
  receivedT1Alphas e = ∅ ∧ decryptedT1Betas e = ∅.

(** X17.  A reachable Exchange is in the initial state or in
    [t1MessageSentState], never in a state for which [Run] takes the
    default case; and as long as it is in the initial state all its
    maps are empty. *)
Theorem reachable_status (s : State W) :
  reachable s →
  status (ex s) = initialState ∧ nothing_on_file (ex s) ∨
  status (ex s) = t1MessageSentState.
Proof.
  induction 1 as [payload cid pass srv epoch e w Hnew|s w t _ IH
                  |s e w t _ IH Hsame|s _ IH Hst|s _ IH Hst Hok|op s _ IH Hst].
  - left. unfold NewExchange in Hnew.
    destruct (NewSession pass srv epoch); simplify_eq. by repeat split.
  - done.
  - destruct Hsame as (_ & Hs & _ & _ & H1 & H2 & H3 & H4 & H5 & H6 & H7 & H8).
    unfold nothing_on_file in *. simpl.
    by rewrite Hs, H1, H2, H3, H4, H5, H6, H7, H8.
  - by rewrite sendT1_ex.
  - by right.
  - right. by rewrite perform_status.
Qed.

(** ** Snapshots *)

Definition snapshot_event (ev : Event) : Prop :=
  match ev with
  | EvUpdate u => snapshot_ok u
  | _ => True
  end.

Lemma action_snapshots (s s' : State W) :
  action s s' → ∃ evs, trace s' = trace s ++ evs ∧ Forall snapshot_event evs.
Proof.
  intros [_ Ht|ev Hev _ Ht|stop _ Ht|u Hc Hu Hsn _ Ht|r _ Ht|state _ Ht
         |k t1 a t2 _ _ _ _ Ht
         |k t1 t2 r Hne _ _ _ _ _ Ht
         |src t1 t2 a beta t3 r _ _ _ Ha _ Ht];
    rewrite Ht; try (exists []; by rewrite app_nil_r);
    eexists [_]; (split; [done|]); rewrite Forall_singleton; try done.
  by destruct ev.
Qed.

Lemma actions_snapshots (s s' : State W) :
  actions s s' → ∃ evs, trace s' = trace s ++ evs ∧ Forall snapshot_event evs.
Proof.
  induction 1 as [s|s1 s2 s3 Ha _ (evs & Ht & Hsn)].
  { exists []. by rewrite app_nil_r. }
  destruct (action_snapshots _ _ Ha) as (evs1 & Ht1 & Hsn1).
  exists (evs1 ++ evs). rewrite Ht, Ht1, app_assoc. split; [done|].
  by apply Forall_app.
Qed.

(** X18.  Every serialized snapshot [Run] sends, in whatever state and
    world it is started, is the serialization of an Exchange of the
    same contact whose status is [t1MessageSentState]: no snapshot is
    taken before the T1 has been accepted and the status advanced, and
    none in an unknown state. *)
Theorem Run_snapshots_after_T1 (fuel : nat) (s : State W) :
  ∃ evs,
    trace (outcome_state (Run fuel s)) = trace s ++ evs ∧
    Forall snapshot_event evs.
Proof.
  destruct (after_sendT1_effect s) as [_ (evs0 & Ht0 & Hq0)].
  destruct (actions_snapshots _ _ (Run_actions fuel s)) as (evs & Ht & Hsn).
  exists (evs0 ++ evs). rewrite Ht, Ht0, app_assoc. split; [done|].
  apply Forall_app. split; [|done].
  eapply Forall_impl; [done|]. by intros [| | | |[]|].
Qed.

(** ** At most one accepted reply to each peer *)

(** The peers to which the database has accepted a T2, and a T3, in the
    order of the trace. *)
Definition accepted_T2 (t : list Event) : list ExchangeHash :=
  omap (λ ev, match ev with
              | EvQuery (SendT2 _ _ dst _) r =>
                  if accepted r then Some dst else None
              | _ => None
              end) t.

Definition accepted_T3 (t : list Event) : list ExchangeHash :=
  omap (λ ev, match ev with
              | EvQuery (SendT3 _ _ dst _) r =>
                  if accepted r then Some dst else None
              | _ => None
              end) t.

(** No peer occurs twice, and the Exchange knows of each: the T1 of a
    peer whose T2 was accepted is in [repliedT1s], the T2 of a peer
    whose T3 was accepted is on file and its hash in [repliedT2s]. *)
Definition answered_once (s : State W) : Prop :=
  NoDup (accepted_T2 (trace s)) ∧
  ∀ dst, dst ∈ accepted_T2 (trace s) → is_Some (repliedT1s (ex s) !! dst).

Definition concluded_once (s : State W) : Prop :=
  NoDup (accepted_T3 (trace s)) ∧
  ∀ dst, dst ∈ accepted_T3 (trace s) →
    ∃ t2, receivedT2s (ex s) !! dst = Some t2 ∧
          is_Some (repliedT2s (ex s) !! sha256 t2).

Lemma answered_once_frame (s s' : State W) evs :
  trace s' = trace s ++ evs → accepted_T2 evs = [] →
  repliedT1s (ex s') = repliedT1s (ex s) →
  answered_once s → answered_once s'.
Proof.
  intros Ht Hevs Hr [Hnd Hin]. unfold answered_once, accepted_T2 in *.
  rewrite Ht, omap_app, Hevs, app_nil_r, Hr. done.
Qed.

Lemma concluded_once_frame (s s' : State W) evs :
  trace s' = trace s ++ evs → accepted_T3 evs = [] →
  receivedT2s (ex s) ⊆ receivedT2s (ex s') →
  repliedT2s (ex s') = repliedT2s (ex s) →
  concluded_once s → concluded_once s'.
Proof.
  intros Ht Hevs Hr2 Hr [Hnd Hin]. unfold concluded_once, accepted_T3 in *.
  rewrite Ht, omap_app, Hevs, app_nil_r, Hr. split; [done|].
  intros dst Hdst. destruct (Hin dst Hdst) as (t2 & Ht2 & Hrep).
  exists t2. split; [|done]. by eapply lookup_weaken.
Qed.

Lemma action_answered_once (s s' : State W) :
  action s s' → answered_once s → answered_once s'.
Proof.
  intros [He Ht|ev Hev He Ht|stop He Ht|u _ _ _ He Ht|r He Ht|state He Ht
         |k t1 a t2 _ _ _ He Ht
         |k t1 t2 r Hne _ Hrep _ _ He Ht
         |src t1 t2 a beta t3 r _ _ _ _ He Ht] Hs;
    try (eapply (answered_once_frame s s' []);
         [by rewrite app_nil_r|done|by rewrite He|done]);
    try (eapply answered_once_frame; [done| |by rewrite He|done]; done).
  - eapply answered_once_frame; [done| |by rewrite He|done]. by destruct ev.
  - destruct Hs as [Hnd Hin]. unfold answered_once, accepted_T2 in *.
    rewrite Ht, omap_app, He. simpl.
    destruct (accepted r); simpl; [|by rewrite app_nil_r].
    split.
    + apply NoDup_app. split; [done|]. split; [|apply NoDup_singleton].
      intros dst Hdst ->%list_elem_of_singleton.
      destruct (Hin _ Hdst) as [? Hk]. by rewrite Hk in Hrep.
    + intros dst [Hdst| ->%list_elem_of_singleton]%elem_of_app.
      * by apply is_Some_insert_weaken, Hin.
      * rewrite lookup_insert_eq. by eexists.
  - eapply answered_once_frame; [done|done| |done]. rewrite He.
    by destruct (accepted r).
Qed.

Lemma action_concluded_once (s s' : State W) :
  action s s' → concluded_once s → concluded_once s'.
Proof.
  intros [He Ht|ev Hev He Ht|stop He Ht|u _ _ _ He Ht|r He Ht|state He Ht
         |k t1 a t2 _ _ _ He Ht
         |k t1 t2 r _ _ _ _ _ He Ht
         |src t1 t2 a beta t3 r _ Ht2 Hrep _ He Ht] Hs;
    try (eapply (concluded_once_frame s s' []);
         [by rewrite app_nil_r|done|by rewrite He|by rewrite He|done]);
    try (eapply concluded_once_frame;
         [done| |by rewrite He|by rewrite He|done]; done).
  - eapply concluded_once_frame; [done| |by rewrite He|by rewrite He|done].
    by destruct ev.
  - eapply (concluded_once_frame s s' []);
      [by rewrite app_nil_r|done| |by rewrite He|done].
    rewrite He. simpl. apply map_union_subseteq_l.
  - eapply concluded_once_frame; [done|done| | |done]; rewrite He;
      by destruct (accepted r).
  - destruct Hs as [Hnd Hin]. unfold concluded_once, accepted_T3 in *.
    rewrite Ht, omap_app, He. simpl.
    destruct (accepted r); simpl; [|by rewrite app_nil_r].
    split.
    + apply NoDup_app. split; [done|]. split; [|apply NoDup_singleton].
      intros dst Hdst ->%list_elem_of_singleton.
      destruct (Hin _ Hdst) as (t & Ht' & [? Hk]). by simplify_eq.
    + intros dst [Hdst| ->%list_elem_of_singleton]%elem_of_app.
      * destruct (Hin _ Hdst) as (t & Ht' & Hk). exists t.
        split; [done|]. by apply is_Some_insert_weaken.
      * exists t2. split; [done|]. rewrite lookup_insert_eq. by eexists.
Qed.

Lemma after_sendT1_once (s : State W) :
  (answered_once s → answered_once (after_sendT1 s)) ∧
  (concluded_once s → concluded_once (after_sendT1 s)).
Proof.
  destruct (after_sendT1_effect s) as [(t1 & st & He & _) (evs & Ht & Hq)].
  assert (accepted_T2 evs = [] ∧ accepted_T3 evs = []) as [H2 H3].
  { clear Ht. induction Hq as [|ev evs Hev _ [IH2 IH3]]; [done|].
    by destruct ev as [| | | |[] ?|]. }
  split; intros Hs.
  - eapply answered_once_frame; [done..| |done]. by rewrite He.
  - eapply concluded_once_frame; [done..| | |done]; by rewrite He.
Qed.

(** X15.  In a run of [Run] the database accepts at most one SendT2
    for each peer: if so far no peer has had two accepted and the peers
    that have had one are in [repliedT1s], as is the case when nothing
    has been sent yet, the same holds when [Run] returns or is still
    going on. *)
Theorem SendT2_accepted_once (fuel : nat) (s : State W) :
  answered_once s → answered_once (outcome_state (Run fuel s)).
Proof.
  intros Hs%after_sendT1_once. revert Hs.
  induction (Run_actions fuel s) as [|s1 s2 s3 Ha _ IH]; [done|].
  intros Hs1. by apply IH, (action_answered_once s1).
Qed.

(** X16.  Likewise the database accepts at most one SendT3 for each
    peer: the peers that have had one have their T2 on file, with its
    hash in [repliedT2s]. *)
Theorem SendT3_accepted_once (fuel : nat) (s : State W) :
  concluded_once s → concluded_once (outcome_state (Run fuel s)).
Proof.
  intros Hs%after_sendT1_once. revert Hs.
  induction (Run_actions fuel s) as [|s1 s2 s3 Ha _ IH]; [done|].
  intros Hs1. by apply IH, (action_concluded_once s1).
Qed.

(** ** Results *)

(** [u] is the result update for a peer with whom the exchange of the
    Exchange [e] is complete: its T1, T2 and T3 are on file, so are the
    alpha and the beta key, its T2 has been answered, and the result is
    what [ProcessType3Message] makes of its T3 with the gamma of its T1
    and the beta key. *)
Definition handshake_result (e : Exchange) (u : ReunionUpdate) : Prop :=
  ∃ srcT1Hash t1 t2 t3 alpha t1beta gamma alphaKey beta plaintext,
    receivedT1s e !! srcT1Hash = Some t1 ∧
    receivedT2s e !! srcT1Hash = Some t2 ∧
    receivedT3s e !! srcT1Hash = Some t3 ∧
    receivedT1Alphas e !! srcT1Hash = Some alphaKey ∧
    decryptedT1Betas e !! srcT1Hash = Some beta ∧
    repliedT2s e !! sha256 t2 = Some t2 ∧
    DecodeT1Message t1 = Ok (alpha, t1beta, gamma) ∧
    ProcessType3Message (session e) t3 gamma beta = Ok plaintext ∧
    u = {| ContactID := contactID e; Error := None; Serialized := None;
           Result := Some plaintext |}.

Lemma processT3Messages_body_results srcT1Hash t3 processed (s : State W) :
  consistent (ex s) →
  receivedT3s (ex s) !! srcT1Hash = Some t3 →
  let s' := flow_state (processT3Messages_body (srcT1Hash, t3) processed s) in
  ex s' = ex s ∧
  ∃ evs, trace s' = trace s ++ evs ∧
         Forall (handshake_result (ex s)) (updates evs).
Proof.
  intros Hc Ht3. cbv zeta. unfold processT3Messages_body.
  destruct (decryptedT1Betas (ex s) !! srcT1Hash) as [beta|] eqn:Hbeta.
  2:{ split; [done|]. exists []. by rewrite app_nil_r. }
  destruct (receivedT1s (ex s) !! srcT1Hash) as [t1|] eqn:Ht1.
  2:{ split; [done|]. by eexists [_]. }
  destruct (DecodeT1Message t1) as [[[alpha t1beta] gamma]|err] eqn:Hdec.
  2:{ split; [done|]. eexists [_; _]. simpl. by rewrite <-app_assoc. }
  destruct (ProcessType3Message _ t3 gamma beta) as [plaintext|err] eqn:Hp.
  2:{ split; [done|]. by eexists [_]. }
  split; [done|]. eexists [_]. split; [done|]. simpl.
  apply Forall_singleton.
  destruct (beta_alpha _ Hc srcT1Hash) as [alphaKey Ha]; [by eexists|].
  destruct (beta_replied _ Hc srcT1Hash) as (t2 & Ht2 & Hrep); [by eexists|].
  by exists srcT1Hash, t1, t2, t3, alpha, t1beta, gamma, alphaKey, beta,
    plaintext.
Qed.

(** X19.  [processT3Messages] in a reachable state sends a result only
    for a peer with whom the exchange is complete: the peer's T1, T2
    and T3 are on file, the alpha key decoded from its T1 and the beta
    key decrypted with its T2 are on file, its T2 is marked as answered
    in [repliedT2s], and the result is what [ProcessType3Message] makes
    of its T3; the update carries the contact and nothing else. *)
Theorem results_need_handshake (s : State W) :
  reachable s →
  Forall (handshake_result (ex s))
    (updates (drop (length (trace s)) (trace (processT3Messages s).2))).
Proof.
  intros Hc%reachable_consistent.
  unfold processT3Messages. cbv zeta.
  pose proof (range_ex (receivedT3s (ex s)) s) as He.
  pose proof (range_trace (receivedT3s (ex s)) s) as Ht.
  pose proof (range_elem_of (receivedT3s (ex s)) s) as Hin.
  destruct (range (receivedT3s (ex s)) s) as [entries s1]. simpl in He, Ht, Hin.
  set (P := λ s' : State W,
         ex s' = ex s ∧
         ∃ evs, trace s' = trace s ++ evs ∧
                Forall (handshake_result (ex s)) (updates evs)).
  assert (P (flow_state (rangeLoop processT3Messages_body entries false s1)))
    as (_ & evs & Hevs & Hres).
  { apply rangeLoop_inv.
    - intros [k v] acc s2 Hkv (He2 & evs & Ht2 & Hres).
      destruct (processT3Messages_body_results k v acc s2)
        as (He3 & evs' & Ht3 & Hres');
        [by rewrite He2|rewrite He2; by apply Hin|].
      split; [congruence|]. exists (evs ++ evs').
      rewrite Ht3, Ht2, app_assoc. split; [done|].
      rewrite updates_app. apply Forall_app. split; [done|].
      by rewrite <-He2.
    - split; [done|]. exists []. by rewrite app_nil_r. }
  assert (trace (match rangeLoop processT3Messages_body entries false s1 with
                 | Continue processed s2 => (processed, s2)
                 | Return r s2 => (r, s2)
                 end).2 = trace s ++ evs) as ->
    by (by destruct (rangeLoop _ entries false s1)).
  by rewrite drop_app_length.
Qed.

End Invariants.

(** * Scenarios

    Runs of the driver in the small concrete instance. *)
Module Scenarios.
Import Toy.

Ltac split_ands := repeat match goal with |- _ ∧ _ => split end.
Ltac by_evaluation := vm_compute; reflexivity.
Ltac by_decision := apply (bool_decide_unpack _); vm_compute; exact I.

Example NewExchange_fresh :
  NewExchange [x41; x41; x41] 7 [x68; x69] [] 1 = Ok freshExchange.
Proof. reflexivity. Qed.

(** C1 on the code.  Four fatal failures: the database refuses the
    SendT1 of a fresh Exchange; [fetchState] gets a non-OK status, a
    truncated state, a transport error.  Each time [Run] returns after
    logging the error; the only update ever sent is the snapshot that
    follows a successful [sendT1], and no update carries an error. *)
Theorem fatal_failures_are_only_logged :
  let a := Run 1 (fresh refused) in
  let b := Run 1 (fresh bad_status) in
  let c := Run 1 (fresh truncated) in
  let d := Run 1 (fresh fetch_timeout) in
  returned a = true ∧
  outline (trace (outcome_state a)) =
    [EvQuery (SendT1 1 myT1) (fail "connection refused");
     EvError (LogErr (ErrExternal "connection refused"));
     EvDebug LogRunHalted] ∧
  returned b = true ∧
  outline (trace (outcome_state b)) =
    [EvQuery (SendT1 1 myT1) OK; snapshot; EvShutdownPoll false;
     EvPrintSession;
     EvQuery (FetchState 1 me) (Ok (StateResponse 1 false []));
     EvError (LogErr (ErrStatusCode 1));
     EvDebug LogRunHalted] ∧
  returned c = true ∧
  outline (trace (outcome_state c)) =
    [EvQuery (SendT1 1 myT1) OK; snapshot; EvShutdownPoll false;
     EvPrintSession;
     EvQuery (FetchState 1 me) (Ok (StateResponse 0 true [x00]));
     EvError (LogErr ErrTruncated);
     EvDebug LogRunHalted] ∧
  returned d = true ∧
  outline (trace (outcome_state d)) =
    [EvQuery (SendT1 1 myT1) OK; snapshot; EvShutdownPoll false;
     EvPrintSession;
     EvQuery (FetchState 1 me) (fail "timeout");
     EvError (LogErr (ErrExternal "timeout"));
     EvDebug LogRunHalted].
Proof. intros; split_ands; by_evaluation. Qed.

(** Counterexample to C2.  Two peers have each sent a T3 that can be processed: one
    pass of [processT3Messages] sends two result-bearing updates. *)
Lemma two_results_in_one_run :
  let t := trace (outcome_state (Run 1 (loop_head two_peers))) in
  drop (length (trace (loop_head two_peers))) (outline t) =
    [EvPrintSession;
     EvQuery (FetchState 1 me) (board x01);
     EvQuery (SendT2 1 me (h xb2) [xb2; x02]) OK;
     EvQuery (SendT2 1 me (h xa1) [xa1; x02]) OK;
     snapshot; EvShutdownPoll false;
     EvQuery (SendT3 1 me (h xb2) [x03; x12]) OK;
     EvQuery (SendT3 1 me (h xa1) [x03; x11]) OK;
     snapshot; EvShutdownPoll false;
     result [x99; x22]; result [x99; x21];
     EvDebug LogRunHalted] ∧
  ¬ length (filter (λ u, Result u ≠ None) (updates t)) ≤ 1.
Proof. intros; split_ands; [by_evaluation|by_decision]. Qed.

(** C3 on the code.  The board holds the T1 of peer b2, which does not
    decode, and the well-formed T1 of peer a1.  [sendT2Messages] meets
    b2 first: the pass logs the decoding error and is over, and a1,
    which was still to come, is not answered in this invocation.  Had
    the map been enumerated the other way round, a1 would have been. *)
Theorem decode_failure_ends_the_pass :
  let s := after_fetchState (loop_head bad_peer_first) in
  let s' := after_sendT2Messages (loop_head bad_peer_first) in
  let r := after_fetchState (loop_head bad_peer_last) in
  let r' := after_sendT2Messages (loop_head bad_peer_last) in
  (range (receivedT1s (ex s)) s).1
    = [(h xb2, [xb2]); (h xa1, [xa1; x11; x21])] ∧
  DecodeT1Message [xb2] = fail "t1 decode" ∧
  drop (length (trace s)) (trace s')
    = [EvError (LogErr (ErrExternal "t1 decode"))] ∧
  repliedT1s (ex s') !! h xa1 = None ∧
  receivedT1Alphas (ex s') !! h xa1 = None ∧
  drop (length (trace r)) (trace r')
    = [EvQuery (SendT2 1 me (h xa1) [xa1; x02]) OK;
       EvError (LogErr (ErrExternal "t1 decode"))] ∧
  repliedT1s (ex r') !! h xa1 = Some [xa1; x11; x21].
Proof. intros; split_ands; by_evaluation. Qed.

(** C4 on the code.  Peer b2's T1 never decodes, so no alpha key is stored for
    it, while peer a1 has been answered and its alpha key is stored.
    Both have sent a T2.  [sendT3Messages] meets b2's T2 first: it
    returns at once, and a1's T2, which was still to come, gets no T3 in
    this pass.  Had a1 come first, it would have got one. *)
Theorem missing_alpha_ends_the_pass :
  let s := after_poll1 (loop_head bad_peer_last) in
  let r := after_poll1 (loop_head bad_peer_last_good_first) in
  (range (receivedT2s (ex s)) s).1
    = [(h xb2, [xb2; x02]); (h xa1, [xa1; x02])] ∧
  receivedT1Alphas (ex s) !! h xb2 = None ∧
  receivedT1Alphas (ex s) !! h xa1 = Some [xa1] ∧
  (sendT3Messages s).1 = false ∧
  trace (sendT3Messages s).2 = trace s ∧
  repliedT2s (ex (sendT3Messages s).2) !! hash [xa1; x02] = None ∧
  drop (length (trace r)) (trace (sendT3Messages r).2)
    = [EvQuery (SendT3 1 me (h xa1) [x03; x11]) OK] ∧
  repliedT2s (ex (sendT3Messages r).2) !! hash [xa1; x02]
    = Some [xa1; x02].
Proof. intros; split_ands; by_evaluation. Qed.

(** Counterexample to C5.  The SendT2 that answers peer a1 times out: [repliedT1s]
    does not gain a1, but [sentT2Map] has gained the T2. *)
Lemma t2_recorded_though_not_sent :
  let s := after_fetchState (loop_head t2_timeout) in
  let s' := after_sendT2Messages (loop_head t2_timeout) in
  drop (length (trace s)) (trace s')
    = [EvQuery (SendT2 1 me (h xa1) [xa1; x02]) (fail "timeout");
       EvError (LogErr (ErrExternal "timeout"))] ∧
  repliedT1s (ex s') !! h xa1 = None ∧
  sentT2Map (ex s) !! hash [xa1; x02] = None ∧
  ¬ sentT2Map (ex s') !! hash [xa1; x02] = None.
Proof. intros; split_ands; [by_evaluation..|by_decision]. Qed.

(** Counterexample to C6.  A whole iteration of the loop: no snapshot and no poll
    between [fetchState] and [sendT2Messages], two snapshots and two
    polls in all.  And when the first poll finds the shutdown channel
    closed, [Run] logs it and returns without a further update. *)
Lemma no_snapshot_after_fetchState :
  let s := loop_head one_peer in
  let t := trace (outcome_state (Run 1 s)) in
  let c := loop_head cancelled_early in
  returned (Run 1 s) = false ∧
  drop (length (trace s)) (outline t)
    = [EvPrintSession;
       EvQuery (FetchState 1 me) (board x03);
       EvQuery (SendT2 1 me (h xa1) [xa1; x02]) OK;
       snapshot; EvShutdownPoll false;
       snapshot; EvShutdownPoll false] ∧
  ¬ length (snapshots (drop (length (trace s)) t)) = 3 ∧
  ¬ length (polls (drop (length (trace s)) t)) = 3 ∧
  drop (length (trace c)) (outline (trace (outcome_state (Run 1 c))))
    = [EvPrintSession;
       EvQuery (FetchState 1 me) (board x03);
       EvQuery (SendT2 1 me (h xa1) [xa1; x02]) OK;
       snapshot; EvShutdownPoll true;
       EvError (LogErr ErrShutdown);
       EvDebug LogRunHalted].
Proof.
  intros; split_ands;
    [by_evaluation|by_evaluation|by_decision|by_decision|by_evaluation].
Qed.


(** ** The theorems at work *)

(** The run with two peers ends by a pass of [processT3Messages] that
    returns true. *)
Lemma results_end_the_run_witness :
  let s := loop_head two_peers in
  status (ex s) = t1MessageSentState ∧
  reaches_processT3 s ∧
  (processT3Messages (after_poll2 s)).1 = true ∧
  ∃ results,
    results ≠ [] ∧
    Forall result_bearing results ∧
    length results ≤ size (receivedT3s (ex (after_poll2 s))) ∧
    Forall (λ u, Result u = None)
      (updates (drop (length (trace s)) (trace (after_poll2 s)))) ∧
    trace (processT3Messages (after_poll2 s)).2
      = trace (after_poll2 s) ++ (EvUpdate <$> results) ∧
    Run 1 s = Returned (emit (EvDebug LogRunHalted)
                          (processT3Messages (after_poll2 s)).2).
Proof.
  intros s.
  assert (status (ex s) = t1MessageSentState) as Hst by reflexivity.
  assert (reaches_processT3 s) as Hreach by (unfold reaches_processT3; split_ands; by_evaluation).
  assert ((processT3Messages (after_poll2 s)).1 = true) as Hp
    by by_evaluation.
  exact (conj Hst (conj Hreach (conj Hp
           (results_end_the_run 0 s Hst Hreach Hp)))).
Defined.

(** A state with three peers on file: a1 is well-formed and has been
    answered as far as the T3, b2 has a T1 that does not decode, c3 has
    a T1 whose beta does not decrypt. *)
Definition three_peers : State World :=
  upd_ex (λ e,
    set_decryptedT1Betas {[ h xa1 := [x11] ]}
      (set_receivedT1Alphas
         (<[h xa1 := [xa1]]> (<[h xb2 := [xb2]]> {[ h xc3 := [xc3] ]}))
         (set_receivedT1s
            (<[h xa1 := [xa1; x11; x21]]>
               (<[h xb2 := [xb2]]> {[ h xc3 := [xc3; x00; x23] ]})) e)))
    (loop_head one_peer).

Lemma crypto_failure_effects_witness :
  rangeLoop (sendT2Messages_body me)
      [(h xb2, [xb2]); (h xa1, [xa1; x11; x21])] false three_peers
    = Return false
        (emit (EvError (LogErr (ErrExternal "t1 decode"))) three_peers) ∧
  rangeLoop (sendT3Messages_body me)
      [(h xc3, [xc3; x02]); (h xa1, [xa1; x02])] false three_peers
    = rangeLoop (sendT3Messages_body me) [(h xa1, [xa1; x02])] false
        (emit (EvError (LogErr (ErrExternal "aead"))) three_peers) ∧
  rangeLoop (sendT3Messages_body me)
      [(h xb2, [xb2; x02]); (h xa1, [xa1; x02])] false three_peers
    = Return false
        (emit (EvError (LogErr (ErrExternal "t1 decode"))) three_peers) ∧
  (∃ s',
     rangeLoop processT3Messages_body
         [(h xa1, [x00]); (h xa1, [x03])] false three_peers
       = Return false s' ∧
     ex s' = ex three_peers ∧
     updates (trace s') = updates (trace three_peers)).
Proof.
  destruct (@crypto_failure_effects lib codec World env)
    as (Ht2 & Hskip & Ht3 & Hp3 & _).
  split; [|split; [|split]].
  - apply Ht2; [by_decision|by_evaluation|left; by_evaluation].
  - apply (Hskip me (h xc3) [xc3; x02] [xc3; x00; x23] [xc3] [xc3]
             [xc3] [x00] [x23]); by_evaluation.
  - apply (Ht3 me (h xb2) [xb2; x02] [xb2] [xb2]); try by_evaluation.
    right. exists [xb2]. split; [by_evaluation|]. left. by_evaluation.
  - apply (Hp3 (h xa1) [x00] [x11] [xa1; x11; x21] [(h xa1, [x03])] false
             three_peers (ErrExternal "t3")); try by_evaluation.
    right. exists [xa1], [x11], [x21]. split; by_evaluation.
Defined.

Lemma missing_alpha_ends_pass_witness :
  let s := after_poll1 (loop_head bad_peer_last) in
  receivedT1s (ex s) !! h xb2 = Some [xb2] ∧
  repliedT2s (ex s) !! sha256 [xb2; x02] = None ∧
  receivedT1Alphas (ex s) !! h xb2 = None ∧
  (range (receivedT2s (ex s)) s).1
    = [(h xb2, [xb2; x02]); (h xa1, [xa1; x02])] ∧
  rangeLoop (sendT3Messages_body me)
      [(h xb2, [xb2; x02]); (h xa1, [xa1; x02])] false s
    = Return false s ∧
  sendT3Messages s = (false, (range (receivedT2s (ex s)) s).2).
Proof.
  intros s.
  assert (receivedT1s (ex s) !! h xb2 = Some [xb2]) as Ht1 by by_evaluation.
  assert (repliedT2s (ex s) !! sha256 [xb2; x02] = None) as Hrep
    by by_evaluation.
  assert (receivedT1Alphas (ex s) !! h xb2 = None) as Halpha by by_evaluation.
  assert ((range (receivedT2s (ex s)) s).1
          = [(h xb2, [xb2; x02]); (h xa1, [xa1; x02])]) as Hrange
    by by_evaluation.
  destruct (missing_alpha_ends_pass me (h xb2) [xb2; x02] [xb2]
              [(h xa1, [xa1; x02])] false s Ht1 Hrep Halpha) as [Hloop Hpass].
  exact (conj Ht1 (conj Hrep (conj Halpha (conj Hrange
           (conj Hloop (Hpass Hrange)))))).
Defined.

Lemma sendT2_bookkeeping_witness :
  let s := after_fetchState (loop_head t2_timeout) in
  let s' := flow_state (sendT2Messages_body me (h xa1, [xa1; x11; x21])
                          false s) in
  h xa1 ≠ me ∧
  repliedT1s (ex s) !! h xa1 = None ∧
  DecodeT1Message [xa1; x11; x21] = Ok ([xa1], [x11], [x21]) ∧
  ProcessType1MessageAlpha (session (ex s)) [xa1] = Ok ([xa1; x02], [xa1]) ∧
  sentT2Map (ex s') = <[sha256 [xa1; x02] := [xa1; x02]]> (sentT2Map (ex s)) ∧
  receivedT1Alphas (ex s') = <[h xa1 := [xa1]]> (receivedT1Alphas (ex s)) ∧
  repliedT1s (ex s')
    = (if accepted (Query (world s)
                      (SendT2 (Epoch (session (ex s))) me (h xa1) [xa1; x02])).2
       then <[h xa1 := [xa1; x11; x21]]> (repliedT1s (ex s))
       else repliedT1s (ex s)) ∧
  EvQuery (SendT2 (Epoch (session (ex s))) me (h xa1) [xa1; x02])
    (Query (world s) (SendT2 (Epoch (session (ex s))) me (h xa1) [xa1; x02])).2
    ∈ trace s'.
Proof.
  intros s s'.
  assert (h xa1 ≠ me) as Hne by by_decision.
  assert (repliedT1s (ex s) !! h xa1 = None) as Hrep by by_evaluation.
  assert (DecodeT1Message [xa1; x11; x21] = Ok ([xa1], [x11], [x21])) as Hdec
    by by_evaluation.
  assert (ProcessType1MessageAlpha (session (ex s)) [xa1]
          = Ok ([xa1; x02], [xa1])) as Halpha by by_evaluation.
  exact (conj Hne (conj Hrep (conj Hdec (conj Halpha
           (sendT2_bookkeeping me (h xa1) [xa1; x11; x21] false s
              [xa1] [x11] [x21] [xa1; x02] [xa1] Hne Hrep Hdec Halpha))))).
Defined.

(** An iteration that runs to its end, one that the first poll cuts
    short and one that the second poll cuts short. *)
Lemma two_snapshots_two_polls_witness :
  let s := loop_head one_peer in
  let c := loop_head cancelled_early in
  let d := loop_head cancelled_late in
  status (ex s) = t1MessageSentState ∧
  reaches_processT3 s ∧
  (∃ evs_fetch evs_t2 evs_t3 evs_p3 snap1 snap2,
     let evs := evs_fetch ++ evs_t2
                  ++ [EvUpdate snap1; EvShutdownPoll false]
                  ++ evs_t3 ++ [EvUpdate snap2; EvShutdownPoll false]
                  ++ evs_p3 in
     let processed := (processT3Messages (after_poll2 s)).1 in
     let s' := (processT3Messages (after_poll2 s)).2 in
     Run_iteration s = (if processed then inl s' else inr s') ∧
     Run 1 s
       = (if processed then Returned (emit (EvDebug LogRunHalted) s')
          else Run 0 s') ∧
     trace s' = trace s ++ evs ∧
     trace (after_fetchState s) = trace s ++ evs_fetch ∧
     trace (after_sendT2Messages s) = trace (after_fetchState s) ++ evs_t2 ∧
     trace (after_sendT3Messages s) = trace (after_poll1 s) ++ evs_t3 ∧
     Forall quiet evs_fetch ∧ Forall quiet evs_t2 ∧ Forall quiet evs_t3 ∧
     Forall p3_event evs_p3 ∧
     snapshot_of (ex (after_sendT2Messages s)) snap1 ∧
     snapshot_of (ex (after_sendT3Messages s)) snap2 ∧
     length (snapshots evs) = 2 ∧ length (polls evs) = 2) ∧
  status (ex c) = t1MessageSentState ∧
  (fetchState c).1 = None ∧
  (sentUpdateOK (after_sendT2Messages c)).1 = true ∧
  (shouldStop (after_update1 c)).1 = true ∧
  (∃ evs_fetch evs_t2 snap1,
     let c' := emit (EvError (LogErr ErrShutdown)) (after_poll1 c) in
     Run_iteration c = inl c' ∧
     Run 1 c = Returned (emit (EvDebug LogRunHalted) c') ∧
     trace c' = trace c ++ evs_fetch ++ evs_t2
                  ++ [EvUpdate snap1; EvShutdownPoll true;
                      EvError (LogErr ErrShutdown)] ∧
     Forall quiet evs_fetch ∧ Forall quiet evs_t2 ∧
     snapshot_of (ex (after_sendT2Messages c)) snap1) ∧
  status (ex d) = t1MessageSentState ∧
  (fetchState d).1 = None ∧
  (sentUpdateOK (after_sendT2Messages d)).1 = true ∧
  (shouldStop (after_update1 d)).1 = false ∧
  (sentUpdateOK (after_sendT3Messages d)).1 = true ∧
  (shouldStop (after_update2 d)).1 = true ∧
  (∃ evs_fetch evs_t2 evs_t3 snap1 snap2,
     let d' := emit (EvError (LogErr ErrShutdown)) (after_poll2 d) in
     Run_iteration d = inl d' ∧
     Run 1 d = Returned (emit (EvDebug LogRunHalted) d') ∧
     trace d' = trace d ++ evs_fetch ++ evs_t2
                  ++ [EvUpdate snap1; EvShutdownPoll false]
                  ++ evs_t3
                  ++ [EvUpdate snap2; EvShutdownPoll true;
                      EvError (LogErr ErrShutdown)] ∧
     Forall quiet evs_fetch ∧ Forall quiet evs_t2 ∧ Forall quiet evs_t3 ∧
     snapshot_of (ex (after_sendT2Messages d)) snap1 ∧
     snapshot_of (ex (after_sendT3Messages d)) snap2).
Proof.
  intros s c d.
  assert (status (ex s) = t1MessageSentState) as Hs by by_evaluation.
  assert (reaches_processT3 s) as Hreach
    by (unfold reaches_processT3; split_ands; by_evaluation).
  assert (status (ex c) = t1MessageSentState) as Hc by by_evaluation.
  assert ((fetchState c).1 = None) as Hc1 by by_evaluation.
  assert ((sentUpdateOK (after_sendT2Messages c)).1 = true) as Hc2
    by by_evaluation.
  assert ((shouldStop (after_update1 c)).1 = true) as Hc3 by by_evaluation.
  assert (status (ex d) = t1MessageSentState) as Hd by by_evaluation.
  assert ((fetchState d).1 = None) as Hd1 by by_evaluation.
  assert ((sentUpdateOK (after_sendT2Messages d)).1 = true) as Hd2
    by by_evaluation.
  assert ((shouldStop (after_update1 d)).1 = false) as Hd3 by by_evaluation.
  assert ((sentUpdateOK (after_sendT3Messages d)).1 = true) as Hd4
    by by_evaluation.
  assert ((shouldStop (after_update2 d)).1 = true) as Hd5 by by_evaluation.
  exact (conj Hs (conj Hreach
    (conj (proj1 (two_snapshots_two_polls 0 s Hs) Hreach)
    (conj Hc (conj Hc1 (conj Hc2 (conj Hc3
    (conj (proj1 (proj2 (proj2 (two_snapshots_two_polls 0 c Hc)))
             Hc1 Hc2 Hc3)
    (conj Hd (conj Hd1 (conj Hd2 (conj Hd3 (conj Hd4 (conj Hd5
      (proj2 (proj2 (proj2 (two_snapshots_two_polls 0 d Hd)))
         Hd1 Hd2 Hd3 Hd4 Hd5))))))))))))))).
Defined.

(** The state in which the run with two peers ends is reachable, and
    the Exchange has answered both peers but not itself. *)
Lemma no_self_reply_reachable_witness :
  let s := outcome_state (Run 1 (loop_head two_peers)) in
  reachable s ∧
  size (repliedT1s (ex s)) = 2 ∧
  repliedT1s (ex s) !! sha256 (sentT1 (ex s)) = None.
Proof.
  intros s.
  assert (reachable s) as Hs.
  { apply Run_reachable, Run_reachable.
    exact (reach_NewExchange [x41; x41; x41] 7%N [x68; x69] [] 1%N
             freshExchange _ NewExchange_fresh). }
  assert (size (repliedT1s (ex s)) = 2) as Hsize by by_evaluation.
  exact (conj Hs (conj Hsize (no_self_reply_reachable s Hs))).
Defined.

(** After the run in which peer a1 has been answered, a further
    [fetchState] (which fails, the script being over) keeps the entry. *)
Lemma replied_maps_only_grow_witness :
  let s := outcome_state (Run 1 (loop_head bad_peer_last)) in
  let s' := perform OpFetchState s in
  repliedT1s (ex s) !! h xa1 = Some [xa1; x11; x21] ∧
  (∀ k v, repliedT1s (ex s) !! k = Some v → receivedT1s (ex s) !! k = Some v) ∧
  repliedT1s (ex s') !! h xa1 = Some [xa1; x11; x21] ∧
  (∀ k v, repliedT1s (ex s') !! k = Some v → receivedT1s (ex s') !! k = Some v).
Proof.
  intros s s'.
  assert (repliedT1s (ex s) !! h xa1 = Some [xa1; x11; x21]) as Ha
    by by_evaluation.
  assert (∀ k v, repliedT1s (ex s) !! k = Some v →
                 receivedT1s (ex s) !! k = Some v) as Hsub.
  { change (map_Forall (λ k v, receivedT1s (ex s) !! k = Some v)
              (repliedT1s (ex s))).
    by_decision. }
  destruct (replied_maps_only_grow OpFetchState s) as (Hr1 & _ & Hinv).
  exact (conj Ha (conj Hsub (conj (Hr1 _ _ Ha) (Hinv Hsub)))).
Defined.


(** ** The operations and the invariants at work *)

(** The Exchange has fetched the board with two peers and answers both
    T1s in one pass. *)
Lemma sendT2Messages_true_witness :
  let s := after_fetchState (loop_head two_peers) in
  let s' := (sendT2Messages s).2 in
  (sendT2Messages s).1 = true ∧
  (∀ k, is_Some (receivedT1s (ex s) !! k) →
        k ≠ sha256 (sentT1 (ex s)) →
        is_Some (repliedT1s (ex s') !! k)) ∧
  ∃ k, repliedT1s (ex s) !! k = None ∧ is_Some (repliedT1s (ex s') !! k).
Proof.
  intros s s'.
  assert ((sendT2Messages s).1 = true) as Htrue by by_evaluation.
  exact (conj Htrue (sendT2Messages_true s Htrue)).
Defined.

(** After that pass there is nothing left to answer. *)
Lemma sendT2Messages_idle_witness :
  let s := after_sendT2Messages (loop_head two_peers) in
  size (receivedT1s (ex s)) = 2 ∧
  (∀ k, is_Some (receivedT1s (ex s) !! k) →
        k = sha256 (sentT1 (ex s)) ∨ is_Some (repliedT1s (ex s) !! k)) ∧
  sendT2Messages s = (false, (range (receivedT1s (ex s)) s).2).
Proof.
  intros s.
  assert (size (receivedT1s (ex s)) = 2) as Hsize by by_evaluation.
  assert (∀ k, is_Some (receivedT1s (ex s) !! k) →
               k = sha256 (sentT1 (ex s)) ∨ is_Some (repliedT1s (ex s) !! k))
    as Hall.
  { assert (map_Forall (λ k _, k = sha256 (sentT1 (ex s))
                               ∨ is_Some (repliedT1s (ex s) !! k))
              (receivedT1s (ex s))) as Hm by by_decision.
    intros k [v Hk]. exact (Hm k v Hk). }
  exact (conj Hsize (conj Hall (sendT2Messages_idle s Hall))).
Defined.

Lemma sendT2Messages_again_witness :
  let s := after_fetchState (loop_head two_peers) in
  let s' := (sendT2Messages s).2 in
  (sendT2Messages s).1 = true ∧
  (sendT2Messages s').1 = false ∧
  ex (sendT2Messages s').2 = ex s' ∧
  trace (sendT2Messages s').2 = trace s'.
Proof.
  intros s s'.
  assert ((sendT2Messages s).1 = true) as Htrue by by_evaluation.
  exact (conj Htrue (sendT2Messages_again s Htrue)).
Defined.

(** Peer a1's T2 is about to be answered with a T3. *)
Lemma sendT3_bookkeeping_witness :
  let s := after_poll1 (loop_head two_peers) in
  let sendT3Cmd := SendT3 (Epoch (session (ex s))) me (h xa1) [x03; x11] in
  let rawResponse := (Query (world s) sendT3Cmd).2 in
  let f := sendT3Messages_body me (h xa1, [xa1; x02]) false s in
  receivedT1s (ex s) !! h xa1 = Some [xa1; x11; x21] ∧
  repliedT2s (ex s) !! sha256 [xa1; x02] = None ∧
  receivedT1Alphas (ex s) !! h xa1 = Some [xa1] ∧
  GetCandidateKey (session (ex s)) [xa1; x02] [xa1] = Ok [xa1] ∧
  DecodeT1Message [xa1; x11; x21] = Ok ([xa1], [x11], [x21]) ∧
  DecryptT1Beta [xa1] [x11] = Ok [x11] ∧
  ComposeType3Message (session (ex s)) [x11] = Ok [x03; x11] ∧
  accepted rawResponse = true ∧
  ex (flow_state f)
    = (if accepted rawResponse then noted_T3 (h xa1) [x11] [xa1; x02] (ex s)
       else ex s) ∧
  f = (if accepted rawResponse then Continue true (flow_state f)
       else Return false (flow_state f)) ∧
  ∃ log,
    trace (flow_state f) = trace s ++ EvQuery sendT3Cmd rawResponse :: log ∧
    if accepted rawResponse then log = [] else ∃ m, log = [EvError m].
Proof.
  intros s sendT3Cmd rawResponse f.
  assert (receivedT1s (ex s) !! h xa1 = Some [xa1; x11; x21]) as Ht1
    by by_evaluation.
  assert (repliedT2s (ex s) !! sha256 [xa1; x02] = None) as Hrep
    by by_evaluation.
  assert (receivedT1Alphas (ex s) !! h xa1 = Some [xa1]) as Halpha
    by by_evaluation.
  assert (GetCandidateKey (session (ex s)) [xa1; x02] [xa1] = Ok [xa1]) as Hck
    by by_evaluation.
  assert (DecodeT1Message [xa1; x11; x21] = Ok ([xa1], [x11], [x21])) as Hdec
    by by_evaluation.
  assert (DecryptT1Beta [xa1] [x11] = Ok [x11]) as Hbeta by by_evaluation.
  assert (ComposeType3Message (session (ex s)) [x11] = Ok [x03; x11]) as Ht3
    by by_evaluation.
  assert (accepted rawResponse = true) as Hacc by by_evaluation.
  exact (conj Ht1 (conj Hrep (conj Halpha (conj Hck (conj Hdec (conj Hbeta
           (conj Ht3 (conj Hacc
              (sendT3_bookkeeping me (h xa1) [xa1; x02] false s
                 [xa1; x11; x21] [xa1] [xa1] [xa1] [x11] [x21] [x11]
                 [x03; x11] Ht1 Hrep Halpha Hck Hdec Hbeta Ht3))))))))).
Defined.

(** The state in which the run with two peers ends. *)
Definition two_peers_end : State World :=
  outcome_state (Run 1 (loop_head two_peers)).

Lemma two_peers_end_reachable : reachable two_peers_end.
Proof.
  apply Run_reachable, Run_reachable.
  exact (reach_NewExchange [x41; x41; x41] 7%N [x68; x69] [] 1%N
           freshExchange _ NewExchange_fresh).
Qed.

Lemma reachable_hash_keys_witness :
  let s := two_peers_end in
  reachable s ∧
  size (sentT2Map (ex s)) = 2 ∧ size (repliedT2s (ex s)) = 2 ∧
  (∀ k t2, sentT2Map (ex s) !! k = Some t2 → k = sha256 t2) ∧
  (∀ k t2, repliedT2s (ex s) !! k = Some t2 → k = sha256 t2).
Proof.
  intros s.
  assert (size (sentT2Map (ex s)) = 2) as H1 by by_evaluation.
  assert (size (repliedT2s (ex s)) = 2) as H2 by by_evaluation.
  exact (conj two_peers_end_reachable (conj H1 (conj H2
           (reachable_hash_keys s two_peers_end_reachable)))).
Defined.

Lemma reachable_alpha_keys_witness :
  let s := two_peers_end in
  reachable s ∧
  size (receivedT1Alphas (ex s)) = 2 ∧
  receivedT1Alphas (ex s) !! sha256 (sentT1 (ex s)) = None ∧
  (∀ k, is_Some (repliedT1s (ex s) !! k) →
        is_Some (receivedT1Alphas (ex s) !! k)) ∧
  (∀ k, is_Some (receivedT1Alphas (ex s) !! k) →
        is_Some (receivedT1s (ex s) !! k)) ∧
  (status (ex s) = initialState → receivedT1Alphas (ex s) = ∅).
Proof.
  intros s.
  assert (size (receivedT1Alphas (ex s)) = 2) as H1 by by_evaluation.
  exact (conj two_peers_end_reachable (conj H1
           (reachable_alpha_keys s two_peers_end_reachable))).
Defined.

Lemma reachable_beta_keys_witness :
  let s := two_peers_end in
  reachable s ∧
  size (decryptedT1Betas (ex s)) = 2 ∧
  (∀ k, is_Some (decryptedT1Betas (ex s) !! k) →
        is_Some (receivedT1Alphas (ex s) !! k) ∧
        ∃ t2, receivedT2s (ex s) !! k = Some t2 ∧
              repliedT2s (ex s) !! sha256 t2 = Some t2) ∧
  (∀ k t2, repliedT2s (ex s) !! k = Some t2 →
           ∃ src, receivedT2s (ex s) !! src = Some t2 ∧
                  is_Some (decryptedT1Betas (ex s) !! src)).
Proof.
  intros s.
  assert (size (decryptedT1Betas (ex s)) = 2) as H1 by by_evaluation.
  exact (conj two_peers_end_reachable (conj H1
           (reachable_beta_keys s two_peers_end_reachable))).
Defined.

Lemma reachable_status_witness :
  let s := two_peers_end in
  reachable s ∧
  status (ex s) = t1MessageSentState ∧
  (status (ex s) = initialState ∧ nothing_on_file (ex s) ∨
   status (ex s) = t1MessageSentState).
Proof.
  intros s.
  assert (status (ex s) = t1MessageSentState) as H1 by by_evaluation.
  exact (conj two_peers_end_reachable (conj H1
           (reachable_status s two_peers_end_reachable))).
Defined.

(** A whole run from the fresh Exchange to the results of two peers. *)
Definition whole_run : World :=
  script (OK :: responses two_peers) [false] [].

Lemma Run_commands_own_witness :
  let s := fresh whole_run in
  let s' := outcome_state (Run 1 s) in
  reachable s ∧
  length (trace s') = 16 ∧
  ∃ evs, trace s' = trace s ++ evs ∧ Forall (command_ok (ex s')) evs.
Proof.
  intros s s'.
  assert (reachable s) as Hs.
  { exact (reach_NewExchange [x41; x41; x41] 7%N [x68; x69] [] 1%N
             freshExchange _ NewExchange_fresh). }
  assert (length (trace s') = 16) as Hlen by by_evaluation.
  exact (conj Hs (conj Hlen (Run_commands_own 1 s Hs))).
Defined.

Lemma SendT2_accepted_once_witness :
  let s := fresh whole_run in
  let s' := outcome_state (Run 1 s) in
  answered_once s ∧
  length (accepted_T2 (trace s')) = 2 ∧
  answered_once s'.
Proof.
  intros s s'.
  assert (answered_once s) as Hs.
  { split; [apply NoDup_nil_2|]. intros dst Hdst. by apply elem_of_nil in Hdst. }
  assert (length (accepted_T2 (trace s')) = 2) as Hlen by by_evaluation.
  exact (conj Hs (conj Hlen (SendT2_accepted_once 1 s Hs))).
Defined.

Lemma SendT3_accepted_once_witness :
  let s := fresh whole_run in
  let s' := outcome_state (Run 1 s) in
  concluded_once s ∧
  length (accepted_T3 (trace s')) = 2 ∧
  concluded_once s'.
Proof.
  intros s s'.
  assert (concluded_once s) as Hs.
  { split; [apply NoDup_nil_2|]. intros dst Hdst. by apply elem_of_nil in Hdst. }
  assert (length (accepted_T3 (trace s')) = 2) as Hlen by by_evaluation.
  exact (conj Hs (conj Hlen (SendT3_accepted_once 1 s Hs))).
Defined.

(** A further pass of [processT3Messages] at the end of the run with
    two peers sends the two results again. *)
Lemma results_need_handshake_witness :
  let s := two_peers_end in
  reachable s ∧
  length (updates (drop (length (trace s)) (trace (processT3Messages s).2)))
    = 2 ∧
  Forall (handshake_result (ex s))
    (updates (drop (length (trace s)) (trace (processT3Messages s).2))).
Proof.
  intros s.
  assert (length (updates (drop (length (trace s))
                             (trace (processT3Messages s).2))) = 2) as Hlen
    by by_evaluation.
  exact (conj two_peers_end_reachable (conj Hlen
           (results_need_handshake s two_peers_end_reachable))).
Defined.

End Scenarios.
